(** * Ember+ client session engine: request pipeline, tree merge, path walk
      and StreamDescription codec.

    The development follows [EmberClient/EmberClient.js].  The client is a
    record with the fields of the JavaScript object; its methods pass the
    record explicitly.  Closures stored in [_callback] and in the request
    records are defunctionalised: one constructor per closure of the source,
    carrying what the closure captures.

    Library methods that the client calls but that live outside
    [EmberClient.js] (the tree classes of [EmberLib], the BER reader and
    writer) are modelled from the specification and marked as such. *)

From Stdlib Require Import List ZArith NArith String Ascii Bool Lia.
From Stdlib Require Import Decimal DecimalString DecimalN.
Import ListNotations.

Set Warnings "-register-all".

Local Open Scope Z_scope.

(* ===================================================================== *)
(** * JavaScript string primitives used by the client                     *)
(* ===================================================================== *)

Module JsString.

(** [s.lastIndexOf(c)]: index of the last occurrence of [c], or [-1]. *)
Fixpoint lastIndexOf (c : ascii) (s : string) : Z :=
  match s with
  | EmptyString => -1
  | String a rest =>
      let r := lastIndexOf c rest in
      if r =? -1 then (if Ascii.eqb a c then 0 else -1) else r + 1
  end.

(** [s.startsWith(p)]. *)
Definition startsWith (s p : string) : bool := String.prefix p s.

(** [s.split(sep)] for a one-character separator: always at least one piece. *)
Fixpoint split (sep : ascii) (s : string) : list string :=
  match s with
  | EmptyString => [EmptyString]
  | String a rest =>
      if Ascii.eqb a sep then EmptyString :: split sep rest
      else match split sep rest with
           | [] => [String a EmptyString]
           | piece :: pieces => String a piece :: pieces
           end
  end.

(** [l.join(sep)]. *)
Fixpoint join (sep : string) (l : list string) : string :=
  match l with
  | [] => EmptyString
  | [x] => x
  | x :: rest => (x ++ sep ++ join sep rest)%string
  end.

(** A string without the character [c]. *)
Definition lacks (c : ascii) (s : string) : Prop := lastIndexOf c s = -1.

End JsString.

(* ===================================================================== *)
(** * Numeric paths and their dotted rendering                            *)
(* ===================================================================== *)

(** An Ember+ path is a RELATIVE-OID: a sequence of child numbers.  The
    JavaScript code carries it as the dotted string ["1.3.2"]. *)
Definition Path := list N.

Module Paths.
Import JsString.

Definition decimal (n : N) : string := NilEmpty.string_of_uint (N.to_uint n).

(** [path.join(".")] of the rendered segments; the root has path [""]. *)
Definition pathString (p : Path) : string := join "." (map decimal p).

End Paths.

(** Source lines 733-735. *)
Definition isDirectSubPathOf (path parent : string) : bool :=
  String.eqb path parent
  || ((JsString.lastIndexOf "." path =? Z.of_nat (String.length parent))
      && JsString.startsWith path parent).

(* ===================================================================== *)
(** * The tree model ([EmberLib]), as the client uses it                  *)
(* ===================================================================== *)

Module Tree.

(** The node classes; a [Qualified...] class is the same kind with a
    [path]. *)
Inductive ElementKind := KRoot | KNode | KParameter | KMatrix | KFunction.

Definition ElementKind_eqb (a b : ElementKind) : bool :=
  match a, b with
  | KRoot, KRoot | KNode, KNode | KParameter, KParameter
  | KMatrix, KMatrix | KFunction, KFunction => true
  | _, _ => false
  end.

Inductive Value := VInteger (z : Z) | VString (s : string) | VBoolean (b : bool).

(** The [contents] object: every field is optional. *)
Record Contents := mkContents {
  identifier : option string;
  description : option string;
  value : option Value;
  streamIdentifier : option Z;
  targetCount : option Z;
  sourceCount : option Z }.

(** A node object.  [path] is set on qualified nodes only; [_parent] keeps
    the class of the parent object, which is all the client ever asks of it
    ([el._parent instanceof ember.Root]); [elements] is [None] when the node
    has no children collection ([getChildren()] returns [null]). *)
Inductive TreeNode : Type := mkTreeNode {
  kind : ElementKind;
  number : N;
  path : option Path;
  _parent : option ElementKind;
  contents : option Contents;
  elements : option (list TreeNode) }.

Definition isRoot (n : TreeNode) : bool := ElementKind_eqb (kind n) KRoot.
Definition isParameter (n : TreeNode) : bool := ElementKind_eqb (kind n) KParameter.
Definition isMatrix (n : TreeNode) : bool := ElementKind_eqb (kind n) KMatrix.
Definition isFunction (n : TreeNode) : bool := ElementKind_eqb (kind n) KFunction.

Definition isQualified (n : TreeNode) : bool :=
  match path n with Some _ => true | None => false end.

Definition getChildren (n : TreeNode) : option (list TreeNode) := elements n.

(** Modelled from the spec: [isStream] is missing from the sources; a node
    is a stream when its contents carry a [streamIdentifier] (spec 3,
    Parameter fields). *)
Definition isStream (n : TreeNode) : bool :=
  match contents n with
  | Some c => match streamIdentifier c with Some _ => true | None => false end
  | None => false
  end.

(** Modelled from the spec: [getNumber] is missing from the sources; the
    number of a node is one segment of its dotted path (spec 3, invariant 1),
    so a qualified node with path [p.q.r] has number [r] (invariant 3). *)
Definition getNumber (n : TreeNode) : N :=
  match path n with
  | Some p => last p (number n)
  | None => number n
  end.

(** Modelled from the spec: [getElementByNumber] is missing from the
    sources; it returns at most one child, the one with that number
    (spec 3, invariant 2). *)
Definition getElementByNumber (k : N) (n : TreeNode) : option TreeNode :=
  match elements n with
  | Some l => find (fun c => N.eqb (getNumber c) k) l
  | None => None
  end.

(** Modelled from the spec: [getElementByPath] is missing from the sources;
    it walks the dotted segments from the receiver and returns nil on a
    miss, never a partial result (spec 4.C). *)
Fixpoint getElementByPath (p : Path) (n : TreeNode) : option TreeNode :=
  match p with
  | [] => Some n
  | k :: rest =>
      match getElementByNumber k n with
      | Some c => getElementByPath rest c
      | None => None
      end
  end.

(** [getPath()] of a child whose parent has path [parentPath]. *)
Definition getPath (parentPath : Path) (n : TreeNode) : Path :=
  match path n with
  | Some p => p
  | None => (parentPath ++ [number n])%list
  end.

Definition setParent (k : ElementKind) (n : TreeNode) : TreeNode :=
  mkTreeNode (kind n) (number n) (path n) (Some k) (contents n) (elements n).

Definition setElements (l : option (list TreeNode)) (n : TreeNode) : TreeNode :=
  mkTreeNode (kind n) (number n) (path n) (_parent n) (contents n) l.

Definition children_of (n : TreeNode) : list TreeNode :=
  match elements n with Some l => l | None => [] end.

(** Modelled from the spec: [addChild] is missing from the sources; it
    attaches the node to the receiver and fails with [DuplicateNumber] when a
    sibling with the same number exists (spec 4.C).  [None] is that failure.
    The child's [_parent] becomes the receiver (spec 9, cyclic parent refs). *)
Definition attach (child : TreeNode) (n : TreeNode) : TreeNode :=
  setElements (Some (children_of n ++ [setParent (kind n) child])) n.

Definition addChild (child : TreeNode) (n : TreeNode) : option TreeNode :=
  match getElementByNumber (getNumber child) n with
  | Some _ => None
  | None => Some (attach child n)
  end.

(** Modelled from the spec: [clear] is missing from the sources; it
    destroys the children of the root (spec 3, lifecycle). *)
Definition clear (n : TreeNode) : TreeNode := setElements None n.

Definition orElse {A} (theirs mine : option A) : option A :=
  match theirs with Some _ => theirs | None => mine end.

(** Scalar fields present in the fragment overwrite, absent ones are
    preserved. *)
Definition mergeContents (mine theirs : option Contents) : option Contents :=
  match mine, theirs with
  | _, None => mine
  | None, Some _ => theirs
  | Some m, Some t =>
      Some (mkContents
              (orElse (identifier t) (identifier m))
              (orElse (description t) (description m))
              (orElse (value t) (value m))
              (orElse (streamIdentifier t) (streamIdentifier m))
              (orElse (targetCount t) (targetCount m))
              (orElse (sourceCount t) (sourceCount m)))
  end.

(** Replace the first child numbered [k] by its image under [f]. *)
Fixpoint replaceChild (k : N) (f : TreeNode -> TreeNode) (l : list TreeNode)
  : list TreeNode :=
  match l with
  | [] => []
  | c :: rest =>
      if N.eqb (getNumber c) k then f c :: rest
      else c :: replaceChild k f rest
  end.

(** One child of a fragment merged into a list of children: merged into the
    sibling with its number when there is one, attached otherwise.  A
    qualified child is not placed by containment: it is left to the merge by
    path. *)
Definition mergeChild (pk : ElementKind) (upd : TreeNode -> TreeNode)
    (fragment : TreeNode) (acc : list TreeNode) : list TreeNode :=
  if isQualified fragment then acc
  else
    match find (fun c => N.eqb (getNumber c) (getNumber fragment)) acc with
    | Some _ => replaceChild (getNumber fragment) upd acc
    | None => (acc ++ [setParent pk fragment])%list
    end.

(** Modelled from the spec: [update] is missing from the sources; it merges
    a decoded fragment into the receiver: scalar fields present in the
    fragment overwrite, absent fields are preserved, and the children of the
    fragment are recursively merged by number (spec 4.C).  The receiver keeps
    its identity (class, number, path, parent).  Children that carry their
    own absolute path do not rely on containment (spec 3) and are installed
    by path, which the client does itself (spec 4.C, qualified vs positional
    responses). *)
Fixpoint update (n other : TreeNode) {struct other} : TreeNode :=
  match other with
  | mkTreeNode _ _ _ _ oc oels =>
      mkTreeNode (kind n) (number n) (path n) (_parent n)
        (mergeContents (contents n) oc)
        (match oels with
         | None => elements n
         | Some fs =>
             Some ((fix mergeAll (fs : list TreeNode) (acc : list TreeNode)
                      {struct fs} : list TreeNode :=
                      match fs with
                      | [] => acc
                      | f :: fs' =>
                          mergeAll fs' (mergeChild (kind n) (fun c => update c f) f acc)
                      end) fs (children_of n))
         end)
  end.

(** The same loop, named. *)
Fixpoint mergeAll (pk : ElementKind) (fs acc : list TreeNode) : list TreeNode :=
  match fs with
  | [] => acc
  | f :: fs' => mergeAll pk fs' (mergeChild pk (fun c => update c f) f acc)
  end.

(** The object stored at [loc] below [t] replaced by its image under [f]:
    what an in-place mutation of that object does to the tree. *)
Fixpoint modifyAt (loc : Path) (f : TreeNode -> TreeNode) (t : TreeNode) : TreeNode :=
  match loc with
  | [] => f t
  | k :: rest =>
      match elements t with
      | Some l => setElements (Some (replaceChild k (modifyAt rest f) l)) t
      | None => t
      end
  end.

End Tree.

(* ===================================================================== *)
(** * The client object                                                   *)
(* ===================================================================== *)

Module Client.
Import Tree.

(** Error objects. *)
Inductive Exn :=
| EmberTimeoutError (requestID : nat) (nodePath : string)
| EmberAccessError (msg : string)
| JsError (msg : string)
| InvalidConnection
| DuplicateNumber (k : N)
| TransportFault (code : nat)
| TypeError (msg : string).

(** The [error] argument of a callback: absent, [null], or an error. *)
Inductive ErrArg := ErrUndefined | ErrNull | Err (e : Exn).

(** [if (error)] *)
Definition truthy (e : ErrArg) : bool :=
  match e with Err _ => true | _ => false end.

Record InvocationResult := mkInvocationResult {
  invocationId : nat;
  success : bool;
  result : list Value }.

(** What the decoder hands over in an ['emberTree'] event, and the second
    argument of a callback. *)
Inductive Payload :=
| Undefined
| Tree (t : TreeNode)
| Invocation (r : InvocationResult).

(** A node object passed to a facade method: the client's own root object,
    or a node with the path it sits at. *)
Inductive NodeRef :=
| TheRoot
| Detached (p : Path) (n : TreeNode).

Inductive MatrixOperation := op_absolute | op_connect | op_disconnect.

(** The BER trees handed to [sendBERNode], by the library method that
    builds them. *)
Inductive Message :=
| GetDirectoryCommand (target : string)
| SetValueRequest (target : string) (v : Value)
| InvocationRequest (target : string) (invocation : nat) (args : list Value)
| MatrixConnectRequest (target : string) (targetID : Z) (sources : list Z)
    (operation : MatrixOperation)
| SubscribeCommand (target : string)
| UnsubscribeCommand (target : string).

(** The closures [func] of the request records, one per facade method. *)
Inductive RequestFunc :=
| getDirectoryFunc (qnode : NodeRef) (promise : nat)
| invokeFunctionFunc (fnNode : NodeRef) (params : list Value) (promise : nat)
| matrixOperationFunc (matrixNode : NodeRef) (targetID : Z) (sources : list Z)
    (operation : MatrixOperation) (promise : nat)
| setValueFunc (node : NodeRef) (v : Value) (promise : nat)
| subscribeFunc (qnode : NodeRef) (promise : nat)
| unsubscribeFunc (qnode : NodeRef) (promise : nat).

(** [{node, func}], and the [timeoutError] that [_makeRequest] adds. *)
Record REQUEST := mkRequest {
  node : NodeRef;
  func : RequestFunc;
  timeoutError : option Exn }.

(** The closures stored in [_callback]. *)
Inductive Callback :=
| connectCallback (promise : nat)
| getDirectoryCallback (qnode : NodeRef) (promise : nat)
| invokeFunctionCallback (promise : nat)
| matrixOperationCallback (matrixNode : NodeRef) (promise : nat)
| setValueCallback (promise : nat).

Inductive Event :=
| ev_connecting
| ev_connected
| ev_disconnected
| ev_error (e : Exn)
| ev_value_change (n : TreeNode)
| ev_invocationResult (r : InvocationResult).

Inductive Settlement :=
| Resolved (v : Payload)
| Rejected (e : ErrArg).

(** Pipeline events, recorded in order. *)
Inductive TraceEvent :=
| Started (requestID : nat)
| Written (m : Message)
| WriteFailed (m : Message)
| Finished.

(** The object.  The first six fields are the fields of the class.  The
    others are the world around it: the timers set with [setTimeout] and not
    yet cleared or fired, the outcomes of the coming [sendBERNode] calls
    (an error when the call throws; no entry means success), the library's
    invocation counter, the promises settled so far (first settlement
    wins), the callbacks registered with [addCallback], the events emitted
    (each with the local tree as a listener sees it at that moment), the
    pipeline trace, and the number of listeners that the user of the client
    has registered for its ['error'] event (the constructor registers
    none). *)
Record EmberClient := mkClient {
  _pendingRequests : list REQUEST;
  _activeRequest : option REQUEST;
  _timeout : option nat;
  _callback : option Callback;
  _requestID : nat;
  root : TreeNode;
  timers : list nat;
  nextTimer : nat;
  faults : list (option Exn);
  invocationCounter : nat;
  promises : list (nat * Settlement);
  nextPromise : nat;
  subscribers : list (Path * nat);
  emitted : list (Event * TreeNode);
  trace : list TraceEvent;
  errorListeners : nat }.

Definition emptyRoot : TreeNode := mkTreeNode KRoot 0%N None None None None.

(** The constructor (source lines 21-43). *)
Definition new (faults : list (option Exn)) : EmberClient :=
  mkClient [] None None None 0 emptyRoot [] 0 faults 0 [] 0 [] [] [] 0.

Definition set_pendingRequests v c :=
  mkClient v (_activeRequest c) (_timeout c) (_callback c) (_requestID c) (root c)
    (timers c) (nextTimer c) (faults c) (invocationCounter c) (promises c)
    (nextPromise c) (subscribers c) (emitted c) (trace c) (errorListeners c).
Definition set_activeRequest v c :=
  mkClient (_pendingRequests c) v (_timeout c) (_callback c) (_requestID c) (root c)
    (timers c) (nextTimer c) (faults c) (invocationCounter c) (promises c)
    (nextPromise c) (subscribers c) (emitted c) (trace c) (errorListeners c).
Definition set_timeout v c :=
  mkClient (_pendingRequests c) (_activeRequest c) v (_callback c) (_requestID c)
    (root c) (timers c) (nextTimer c) (faults c) (invocationCounter c) (promises c)
    (nextPromise c) (subscribers c) (emitted c) (trace c) (errorListeners c).
Definition set_callback v c :=
  mkClient (_pendingRequests c) (_activeRequest c) (_timeout c) v (_requestID c)
    (root c) (timers c) (nextTimer c) (faults c) (invocationCounter c) (promises c)
    (nextPromise c) (subscribers c) (emitted c) (trace c) (errorListeners c).
Definition set_requestID v c :=
  mkClient (_pendingRequests c) (_activeRequest c) (_timeout c) (_callback c) v (root c)
    (timers c) (nextTimer c) (faults c) (invocationCounter c) (promises c)
    (nextPromise c) (subscribers c) (emitted c) (trace c) (errorListeners c).
Definition set_root v c :=
  mkClient (_pendingRequests c) (_activeRequest c) (_timeout c) (_callback c)
    (_requestID c) v (timers c) (nextTimer c) (faults c) (invocationCounter c)
    (promises c) (nextPromise c) (subscribers c) (emitted c) (trace c)
    (errorListeners c).
Definition set_timers v w c :=
  mkClient (_pendingRequests c) (_activeRequest c) (_timeout c) (_callback c)
    (_requestID c) (root c) v w (faults c) (invocationCounter c) (promises c)
    (nextPromise c) (subscribers c) (emitted c) (trace c) (errorListeners c).
Definition set_faults v c :=
  mkClient (_pendingRequests c) (_activeRequest c) (_timeout c) (_callback c)
    (_requestID c) (root c) (timers c) (nextTimer c) v (invocationCounter c)
    (promises c) (nextPromise c) (subscribers c) (emitted c) (trace c)
    (errorListeners c).
Definition set_invocationCounter v c :=
  mkClient (_pendingRequests c) (_activeRequest c) (_timeout c) (_callback c)
    (_requestID c) (root c) (timers c) (nextTimer c) (faults c) v (promises c)
    (nextPromise c) (subscribers c) (emitted c) (trace c) (errorListeners c).
Definition set_promises v w c :=
  mkClient (_pendingRequests c) (_activeRequest c) (_timeout c) (_callback c)
    (_requestID c) (root c) (timers c) (nextTimer c) (faults c) (invocationCounter c) v
    w (subscribers c) (emitted c) (trace c) (errorListeners c).
Definition set_subscribers v c :=
  mkClient (_pendingRequests c) (_activeRequest c) (_timeout c) (_callback c)
    (_requestID c) (root c) (timers c) (nextTimer c) (faults c) (invocationCounter c)
    (promises c) (nextPromise c) v (emitted c) (trace c) (errorListeners c).
Definition set_emitted v c :=
  mkClient (_pendingRequests c) (_activeRequest c) (_timeout c) (_callback c)
    (_requestID c) (root c) (timers c) (nextTimer c) (faults c) (invocationCounter c)
    (promises c) (nextPromise c) (subscribers c) v (trace c) (errorListeners c).
Definition set_trace v c :=
  mkClient (_pendingRequests c) (_activeRequest c) (_timeout c) (_callback c)
    (_requestID c) (root c) (timers c) (nextTimer c) (faults c) (invocationCounter c)
    (promises c) (nextPromise c) (subscribers c) (emitted c) v (errorListeners c).
Definition set_errorListeners v c :=
  mkClient (_pendingRequests c) (_activeRequest c) (_timeout c) (_callback c)
    (_requestID c) (root c) (timers c) (nextTimer c) (faults c) (invocationCounter c)
    (promises c) (nextPromise c) (subscribers c) (emitted c) (trace c) v.

(** ** Statements that may throw *)

Inductive Completion (A : Type) :=
| Normal (a : A)
| Throw (e : Exn).
Arguments Normal {A} a.
Arguments Throw {A} e.

(** A method body: it changes the object and returns or throws. *)
Definition M (A : Type) := EmberClient -> EmberClient * Completion A.

Definition ret {A} (a : A) : M A := fun c => (c, Normal a).
Definition throw {A} (e : Exn) : M A := fun c => (c, Throw e).
Definition bind {A B} (m : M A) (k : A -> M B) : M B :=
  fun c => match m c with
           | (c1, Normal a) => k a c1
           | (c1, Throw e) => (c1, Throw e)
           end.
Definition exec (f : EmberClient -> EmberClient) : M unit :=
  fun c => (f c, Normal tt).
(** [try { m } catch (e) { handler e }] *)
Definition try_catch {A} (m : M A) (handler : Exn -> M A) : M A :=
  fun c => match m c with
           | (c1, Normal a) => (c1, Normal a)
           | (c1, Throw e) => handler e c1
           end.

Declare Scope client_scope.
Delimit Scope client_scope with client.
Notation "x <- m ;; k" := (bind m (fun x => k))
  (at level 61, m at next level, right associativity) : client_scope.
Notation "m ;; k" := (bind m (fun _ => k))
  (at level 61, right associativity) : client_scope.
Local Open Scope client_scope.

(** ** Promises, events, timers, transport *)

Definition promiseState (p : nat) (c : EmberClient) : option Settlement :=
  match find (fun e => Nat.eqb (fst e) p) (promises c) with
  | Some (_, s) => Some s
  | None => None
  end.

(** [resolve]/[reject] of promise [p]: a settled promise stays as it is. *)
Definition settle (p : nat) (s : Settlement) (c : EmberClient) : EmberClient :=
  match promiseState p c with
  | Some _ => c
  | None => set_promises ((p, s) :: promises c) (nextPromise c) c
  end.

(** [new Promise(...)]: a fresh promise. *)
Definition newPromise (c : EmberClient) : nat * EmberClient :=
  (nextPromise c, set_promises (promises c) (S (nextPromise c)) c).

(** [this.emit(event, ...)] for the events other than ['error']: the
    event and the tree as its listeners see it are recorded. *)
Definition emit (e : Event) (c : EmberClient) : EmberClient :=
  set_emitted (emitted c ++ [(e, root c)]) c.

(** [this.emit("error", e)]: an [EventEmitter] with no listener for
    ['error'] throws the error itself instead of emitting it. *)
Definition emitError (e : Exn) : M unit :=
  fun c =>
    if Nat.eqb (errorListeners c) 0 then (c, Throw e)
    else (emit (ev_error e) c, Normal tt).

Definition log (t : TraceEvent) (c : EmberClient) : EmberClient :=
  set_trace (trace c ++ [t]) c.

Definition remove_timer (h : nat) (l : list nat) : list nat :=
  filter (fun x => negb (Nat.eqb x h)) l.

(** [setTimeout(() => this._timeoutRequest(), this.timeoutValue)]. *)
Definition setTimeout (c : EmberClient) : nat * EmberClient :=
  (nextTimer c, set_timers (timers c ++ [nextTimer c]) (S (nextTimer c)) c).

Definition clearTimeout (h : nat) (c : EmberClient) : EmberClient :=
  set_timers (remove_timer h (timers c)) (nextTimer c) c.

(** Source lines 149-154. *)
Definition _clearTimeout (c : EmberClient) : EmberClient :=
  match _timeout c with
  | Some h => set_timeout None (clearTimeout h c)
  | None => c
  end.

(** [this._client.sendBERNode(m)]: writes, or throws what the transport
    throws. *)
Definition sendBERNode (m : Message) : M unit :=
  fun c =>
    match faults c with
    | Some e :: rest => (log (WriteFailed m) (set_faults rest c), Throw e)
    | None :: rest => (log (Written m) (set_faults rest c), Normal tt)
    | [] => (log (Written m) c, Normal tt)
    end.

(** ** Node references *)

Definition deref (r : NodeRef) (c : EmberClient) : TreeNode :=
  match r with
  | TheRoot => root c
  | Detached _ n => n
  end.

(** [qnode.getPath()], as a path and as the string the source compares. *)
Definition refPath (r : NodeRef) : Path :=
  match r with
  | TheRoot => []
  | Detached p _ => p
  end.

Definition requestedPath (r : NodeRef) : string := Paths.pathString (refPath r).

(** [el.getPath()] for an element of a decoded root. *)
Definition elementPath (el : TreeNode) : string := Paths.pathString (getPath [] el).

(** [el._parent instanceof ember.Root] *)
Definition parentIsRoot (el : TreeNode) : bool :=
  match _parent el with
  | Some k => ElementKind_eqb k KRoot
  | None => false
  end.

(** ** Merging a decoded tree (source lines 161-247) *)

(** [parent.addChild(node)] on the object stored at [loc]. *)
Definition addChildAt (loc : Path) (child : TreeNode) : M unit :=
  fun c =>
    match getElementByPath loc (root c) with
    | None => (c, Throw (TypeError "parent is null"))
    | Some parent =>
        match addChild child parent with
        | None => (c, Throw (DuplicateNumber (getNumber child)))
        | Some _ => (set_root (modifyAt loc (attach child) (root c)) c, Normal tt)
        end
    end.

(** [x.update(other)] on the object stored at [loc]. *)
Definition updateAt (loc : Path) (other : TreeNode) (c : EmberClient) : EmberClient :=
  set_root (modifyAt loc (fun x => update x other) (root c)) c.

(** [for (var i = 0; i < children.length; i++) h(children[i])]; the result
    is [final] when no call throws. *)
Definition forEach (h : TreeNode -> M TreeNode) (final : TreeNode)
  : list TreeNode -> M TreeNode :=
  fix each (l : list TreeNode) : M TreeNode :=
    fun c =>
      match l with
      | [] => (c, Normal final)
      | child :: rest =>
          match h child c with
          | (c1, Normal _) => each rest c1
          | (c1, Throw e) => (c1, Throw e)
          end
      end.

(** Source lines 162-168: the stored element [n] is the one with the
    node's number below [parent]; the node is attached when there is none,
    merged into it otherwise.  The result is the decoded node afterwards: it
    is the argument, re-parented when it was attached. *)
Definition attachOrUpdate (parent : Path) (node : TreeNode) : M TreeNode :=
  fun c =>
    match getElementByPath (parent ++ [getNumber node]) (root c) with
    | None =>
        match addChildAt parent node c with
        | (c1, Normal _) =>
            (c1, Normal (match getElementByPath parent (root c) with
                         | Some p => setParent (kind p) node
                         | None => node
                         end))
        | (c1, Throw e) => (c1, Throw e)
        end
    | Some _ => (updateAt (parent ++ [getNumber node]) node c, Normal node)
    end.

(** Source lines 161-180.  [parent] is where the parent object sits in the
    local tree. *)
Fixpoint _handleNode (parent : Path) (node : TreeNode) {struct node} : M TreeNode :=
  match node with
  | mkTreeNode nk nn np npar nc children =>
      let node := mkTreeNode nk nn np npar nc children in
      let n := (parent ++ [getNumber node])%list in
      fun c =>
        match attachOrUpdate parent node c with
        | (c1, Throw e) => (c1, Throw e)
        | (c1, Normal node') =>
            match children with
            | Some l => forEach (fun child => _handleNode n child) node' l c1
            | None => (emit (ev_value_change node') c1, Normal node')
            end
        end
  end.

(** Source lines 188-209: the stored element for a qualified node.  It is
    the one found at the node's path from [parent], updated after the
    ['value-change'] event; or the node itself, attached to the root (a
    one-segment path) or to the element at the path without its last
    segment.  [None] when that element is unknown: the node is dropped.  With
    the place of the element comes the decoded node afterwards. *)
Definition locate (parent : Path) (node : TreeNode) (path : Path)
  : M (option (Path * TreeNode)) :=
  fun c =>
    match getElementByPath (parent ++ path) (root c) with
    | Some _ =>
        (updateAt (parent ++ path) node (emit (ev_value_change node) c),
         Normal (Some ((parent ++ path)%list, node)))
    | None =>
        if Nat.eqb (List.length path) 1 then
          match addChildAt [] node c with
          | (c1, Normal _) => (c1, Normal (Some (path, setParent (kind (root c)) node)))
          | (c1, Throw e) => (c1, Throw e)
          end
        else
          match getElementByPath (removelast path) (root c) with
          | None => (c, Normal None)
          | Some p =>
              match addChildAt (removelast path) node c with
              | (c1, Normal _) =>
                  (set_root (modifyAt (removelast path) (fun x => update x x) (root c1)) c1,
                   Normal (Some (path, setParent (kind p) node)))
              | (c1, Throw e) => (c1, Throw e)
              end
          end
    end.

(** Source lines 187-224. *)
Fixpoint _handleQualifiedNode (parent : Path) (node : TreeNode) {struct node}
  : M TreeNode :=
  match node with
  | mkTreeNode nk nn np npar nc children =>
      let node := mkTreeNode nk nn np npar nc children in
      fun c =>
        match np with
        | None => (c, Throw (TypeError "node.path is undefined"))
        | Some path =>
            match locate parent node path c with
            | (c1, Throw e) => (c1, Throw e)
            | (c1, Normal None) => (c1, Normal node)
            | (c1, Normal (Some (element, node'))) =>
                match children with
                | Some l =>
                    forEach (fun child =>
                               if isQualified child
                               then _handleQualifiedNode element child
                               else _handleNode element child)
                      node' l c1
                | None => (c1, Normal node')
                end
            end
        end
  end.

(** The loop of [_handleRoot] over the elements of the decoded root; it
    returns the elements as they are afterwards. *)
Fixpoint handleElements (l : list TreeNode) : M (list TreeNode) :=
  match l with
  | [] => ret []
  | el :: rest =>
      el' <- (if isQualified el then _handleQualifiedNode [] el else _handleNode [] el) ;;
      rest' <- handleElements rest ;;
      ret (el' :: rest')
  end.

(** Source lines 230-243: [_handleRoot] up to the callback.  The result is
    the decoded root as the callback will see it. *)
Definition mergeRoot (decoded : TreeNode) : M TreeNode :=
  exec (fun c => set_root (update (root c) decoded) c) ;;
  match elements decoded with
  | Some l =>
      l' <- handleElements l ;;
      ret (setElements (Some l') decoded)
  | None => ret decoded
  end.

(** ** The request pipeline (source lines 108-147) and the closures *)

Section Closures.

(** [this._finishRequest()], as seen from inside a closure. *)
Variable finish : M unit.

(** [this._callback(new Error(...))] from inside a callback. *)
Variable callCurrent : Exn -> M unit.

(** [_clearTimeout(); _finishRequest(); resolve(v)] *)
Definition finishAndResolve (p : nat) (v : Payload) : M unit :=
  exec _clearTimeout ;; finish ;; exec (settle p (Resolved v)).

(** [_clearTimeout(); _finishRequest(); reject(error)] *)
Definition finishAndReject (p : nat) (error : ErrArg) : M unit :=
  exec _clearTimeout ;; finish ;; exec (settle p (Rejected error)).

(** The callback of [connect] (source lines 255-261). *)
Definition run_connectCallback (p : nat) (e : ErrArg) : M unit :=
  exec (fun c =>
          let c := set_callback None c in
          match e with
          | ErrUndefined => settle p (Resolved Undefined) c
          | _ => settle p (Rejected e) c
          end).

(** The match of a decoded root against a non-root target, once
    [node.getElementByPath(requestedPath)] has found nothing (source lines
    374-377). *)
Definition elementsMatch (qnode : TreeNode) (requested : string)
    (nodeElements : list TreeNode) : bool :=
  (isMatrix qnode
   && Nat.eqb (List.length nodeElements) 1
   && match nodeElements with
      | el :: _ => String.eqb (elementPath el) requested
      | [] => false
      end)
  || (negb (isMatrix qnode)
      && forallb (fun el => isDirectSubPathOf (elementPath el) requested) nodeElements).

(** The callback of [getDirectory] (source lines 335-388). *)
Definition run_getDirectoryCallback (qnode : NodeRef) (p : nat)
    (error : ErrArg) (node : Payload) : M unit :=
  fun c =>
    match node with
    | Undefined => (c, Normal tt)
    | _ =>
        if truthy error then finishAndReject p error c
        else if isRoot (deref qnode c) then
          match getChildren (deref qnode c) with
          | None | Some [] => callCurrent (JsError "Invalid qnode for getDirectory") c
          | Some _ =>
              match node with
              | Tree t =>
                  match getChildren t with
                  | Some nodeElements =>
                      if forallb parentIsRoot nodeElements
                      then finishAndResolve p node c
                      else callCurrent
                             (JsError ("Invalid response for getDirectory "
                                       ++ requestedPath qnode)) c
                  | None =>
                      callCurrent
                        (JsError ("Invalid response for getDirectory "
                                  ++ requestedPath qnode)) c
                  end
              | _ => (c, Throw (TypeError "node.getChildren is not a function"))
              end
          end
        else
          match node with
          | Tree t =>
              match getElementByPath (refPath qnode) t with
              | Some _ => finishAndResolve p node c
              | None =>
                  match getChildren t with
                  | Some nodeElements =>
                      if elementsMatch (deref qnode c) (requestedPath qnode) nodeElements
                      then finishAndResolve p node c
                      else (c, Normal tt)
                  | None => (c, Normal tt)
                  end
              end
          | _ => (c, Throw (TypeError "node.getElementByPath is not a function"))
          end
    end.

(** The callback of [invokeFunction] (source lines 511-522). *)
Definition run_invokeFunctionCallback (p : nat) (error : ErrArg) (res : Payload)
  : M unit :=
  exec _clearTimeout ;;
  exec (if truthy error then settle p (Rejected error) else settle p (Resolved res)) ;;
  finish.

(** The callback of [matrixOPeration] (source lines 568-594). *)
Definition run_matrixOperationCallback (matrixNode : NodeRef) (p : nat)
    (error : ErrArg) (node : Payload) : M unit :=
  fun c =>
    match node with
    | Undefined => (c, Normal tt)
    | Invocation _ =>
        if truthy error then finishAndReject p error c
        else (c, Throw (TypeError "node.getElementByPath is not a function"))
    | Tree t =>
        if truthy error then finishAndReject p error c
        else
          match getElementByPath (refPath matrixNode) t with
          | Some matrix =>
              if isMatrix matrix
                 && String.eqb
                      (Paths.pathString (getPath (removelast (refPath matrixNode)) matrix))
                      (requestedPath matrixNode)
              then finishAndResolve p (Tree matrix) c
              else (c, Normal tt)
          | None => (c, Normal tt)
          end
    end.

(** The callback of [setValue] (source lines 661-670). *)
Definition run_setValueCallback (p : nat) (error : ErrArg) (node : Payload)
  : M unit :=
  exec _clearTimeout ;;
  finish ;;
  exec (if truthy error then settle p (Rejected error) else settle p (Resolved node)).

(** [cb(error, node)] *)
Definition callWith (cb : Callback) (error : ErrArg) (node : Payload) : M unit :=
  match cb with
  | connectCallback p => run_connectCallback p error
  | getDirectoryCallback qnode p => run_getDirectoryCallback qnode p error node
  | invokeFunctionCallback p => run_invokeFunctionCallback p error node
  | matrixOperationCallback m p => run_matrixOperationCallback m p error node
  | setValueCallback p => run_setValueCallback p error node
  end.

(** Modelled from the spec: [fnNode.invoke(params)] is missing from the
    sources; it emits an InvocationRequest carrying a client-allocated,
    monotonically increasing invocation-id (spec 4.C). *)
Definition invoke (fnNode : NodeRef) (params : list Value) : M Message :=
  fun c =>
    (set_invocationCounter (S (invocationCounter c)) c,
     Normal (InvocationRequest (requestedPath fnNode) (invocationCounter c) params)).

(** [req.func(error)]: the six closures passed to [addRequest]. *)
Definition callFunc (f : RequestFunc) (error : ErrArg) : M unit :=
  match f with
  | getDirectoryFunc qnode p =>
      if truthy error
      then finish ;; exec (settle p (Rejected error))
      else exec (set_callback (Some (getDirectoryCallback qnode p))) ;;
           sendBERNode (GetDirectoryCommand (requestedPath qnode))
  | invokeFunctionFunc fnNode params p =>
      if truthy error
      then exec (settle p (Rejected error)) ;; finish
      else exec (set_callback (Some (invokeFunctionCallback p))) ;;
           m <- invoke fnNode params ;;
           sendBERNode m
  | matrixOperationFunc matrixNode targetID sources operation p =>
      if truthy error
      then finish ;; exec (settle p (Rejected error))
      else exec (set_callback (Some (matrixOperationCallback matrixNode p))) ;;
           sendBERNode (MatrixConnectRequest (requestedPath matrixNode)
                          targetID sources operation)
  | setValueFunc n v p =>
      if truthy error
      then finish ;; exec (settle p (Rejected error))
      else exec (set_callback (Some (setValueCallback p))) ;;
           sendBERNode (SetValueRequest (requestedPath n) v)
  | subscribeFunc qnode p =>
      if truthy error
      then exec (settle p (Rejected error))
      else sendBERNode (SubscribeCommand (requestedPath qnode)) ;;
           finish ;;
           exec (settle p (Resolved Undefined))
  | unsubscribeFunc qnode p =>
      if truthy error
      then exec (settle p (Rejected error))
      else sendBERNode (UnsubscribeCommand (requestedPath qnode)) ;;
           finish ;;
           exec (settle p (Resolved Undefined))
  end.

(** The body of [_makeRequest] once its test has passed: [req] is the
    record shifted off the queue and [rest] what remains. *)
Definition activate (req : REQUEST) (rest : list REQUEST) : M unit :=
  fun c =>
    let id := _requestID c in
    let active :=
      mkRequest (node req) (func req)
        (Some (EmberTimeoutError id (requestedPath (node req)))) in
    let c := set_pendingRequests rest c in
    let c := set_activeRequest (Some active) c in
    let c := set_requestID (S id) c in
    let c := log (Started id) c in
    let (h, c) := setTimeout c in
    let c := set_timeout (Some h) c in
    callFunc (func active) ErrUndefined c.

End Closures.

(** [this._callback(e)] where nothing is passed for the node: no callback
    calls [this._callback] again on that path. *)
Definition callCurrentWith (finish : M unit) (e : Exn) : M unit :=
  fun c =>
    match _callback c with
    | Some cb => callWith finish (fun _ => ret tt) cb (Err e) Undefined c
    | None => (c, Throw (TypeError "this._callback is not a function"))
    end.

Definition callCallback (finish : M unit)
    (cb : Callback) (error : ErrArg) (node : Payload) : M unit :=
  callWith finish (callCurrentWith finish) cb error node.

(** Source lines 108-120.  The method calls itself through the closures it
    runs (a request function or a callback may call [_finishRequest] again);
    every such call finds the queue shorter by the record just shifted, so
    [depth] bounds the nesting: with no depth left, or nothing queued,
    [_makeRequest] has nothing to start. *)
Fixpoint _finishRequest_upto (depth : nat) : M unit :=
  fun c =>
    let c := _clearTimeout c in
    let c := set_activeRequest None c in
    let c := log Finished c in
    match depth, _pendingRequests c with
    | S depth', req :: rest =>
        try_catch
          (activate (_finishRequest_upto depth') req rest)
          (fun e =>
             (fun c1 =>
                match _callback c1 with
                | Some cb => callCallback (_finishRequest_upto depth') cb (Err e) Undefined c1
                | None => (c1, Normal tt)
                end) ;;
             emitError e)
          c
    | _, _ => (c, Normal tt)
    end.

(** The depth that the queue allows. *)
Definition _finishRequest : M unit :=
  fun c => _finishRequest_upto (List.length (_pendingRequests c)) c.

(** Source lines 122-134. *)
Definition _makeRequest : M unit :=
  fun c =>
    match _activeRequest c, _pendingRequests c with
    | None, req :: rest => activate _finishRequest req rest c
    | _, _ => (c, Normal tt)
    end.

(** Source lines 136-138. *)
Definition _timeoutRequest : M unit :=
  fun c =>
    match _activeRequest c with
    | Some req =>
        callFunc _finishRequest (func req)
          (match timeoutError req with Some e => Err e | None => ErrUndefined end) c
    | None => (c, Throw (TypeError "this._activeRequest is null"))
    end.

(** Source lines 144-147. *)
Definition addRequest (req : REQUEST) : M unit :=
  exec (fun c => set_pendingRequests (_pendingRequests c ++ [req]) c) ;;
  _makeRequest.

(** ** The facade (source lines 253-730) *)

(** [new Promise((resolve, reject) => { body })]: the executor runs at once
    and a throw inside it rejects the promise. *)
Definition promiseOf (body : nat -> M unit) (c : EmberClient) : nat * EmberClient :=
  let (p, c) := newPromise c in
  match body p c with
  | (c1, Normal _) => (p, c1)
  | (c1, Throw e) => (p, settle p (Rejected (Err e)) c1)
  end.

(** Source lines 253-267; the transport's own [connect] is outside. *)
Definition connect : EmberClient -> nat * EmberClient :=
  promiseOf (fun p => exec (set_callback (Some (connectCallback p)))).

(** Source lines 322-393. *)
Definition getDirectory (qnode : option NodeRef) (c : EmberClient) : nat * EmberClient :=
  let (q, c) :=
    match qnode with
    | None => (TheRoot, set_root (clear (root c)) c)
    | Some q => (q, c)
    end in
  promiseOf (fun p => addRequest (mkRequest q (getDirectoryFunc q p) None)) c.

(** Source lines 503-528. *)
Definition invokeFunction (fnNode : NodeRef) (params : list Value)
  : EmberClient -> nat * EmberClient :=
  promiseOf (fun p => addRequest (mkRequest fnNode (invokeFunctionFunc fnNode params p) None)).

Definition within (count : option Z) (id : Z) : bool :=
  (0 <=? id) && match count with Some k => id <=? k | None => true end.

(** Modelled from the spec: [validateConnection] is missing from the
    sources; the preflight validates target and source IDs against the
    declared [targetCount]/[sourceCount] and fails with [InvalidConnection]
    on violation (spec 4.E).  With [sourceCount = 2] the sources [[1,2]] are
    accepted and [[5]] is rejected (spec 8, scenario 5), so an ID is out of
    range when it is negative or above the declared count. *)
Definition validateConnection (matrixNode : TreeNode) (targetID : Z)
    (sources : list Z) : option Exn :=
  let counts :=
    match contents matrixNode with
    | Some k => (targetCount k, sourceCount k)
    | None => (None, None)
    end in
  if within (fst counts) targetID && forallb (within (snd counts)) sources
  then None
  else Some InvalidConnection.

(** Source lines 544-598.  [sources] is [None] when the argument is not an
    array. *)
Definition matrixOPeration (matrixNode : NodeRef) (targetID : Z)
    (sources : option (list Z)) (operation : MatrixOperation)
  : EmberClient -> nat * EmberClient :=
  promiseOf (fun p c =>
    match sources with
    | None => (settle p (Rejected (Err (JsError "Sources should be an array"))) c, Normal tt)
    | Some srcs =>
        match validateConnection (deref matrixNode c) targetID srcs with
        | Some e => (settle p (Rejected (Err e)) c, Normal tt)
        | None =>
            addRequest
              (mkRequest matrixNode
                 (matrixOperationFunc matrixNode targetID srcs operation p) None) c
        end
    end).

(** Source lines 606-628. *)
Definition matrixConnect m t s := matrixOPeration m t s op_connect.
Definition matrixDisconnect m t s := matrixOPeration m t s op_disconnect.
Definition matrixSetConnection m t s := matrixOPeration m t s op_absolute.

(** Source lines 646-678.  [node instanceof ember.Parameter] or
    [ember.QualifiedParameter]: the parameter class, qualified or not. *)
Definition setValue (n : NodeRef) (v : Value) : EmberClient -> nat * EmberClient :=
  promiseOf (fun p c =>
    if negb (isParameter (deref n c))
    then (settle p (Rejected (Err (EmberAccessError "not a property"))) c, Normal tt)
    else addRequest (mkRequest n (setValueFunc n v p) None) c).

(** Modelled from the spec: [qnode.addCallback(callback)] is missing from
    the sources; it keeps the callback with the node and touches nothing of
    the client. *)
Definition addCallback (qnode : NodeRef) (callback : nat) (c : EmberClient) : EmberClient :=
  set_subscribers (subscribers c ++ [(refPath qnode, callback)]) c.

(** Source lines 685-705.  The result is the promise, or [None] for
    [undefined]. *)
Definition subscribe (qnode : NodeRef) (callback : nat) (c : EmberClient)
  : option nat * EmberClient :=
  if (isParameter (deref qnode c) || isMatrix (deref qnode c)) && isStream (deref qnode c)
  then let (p, c1) :=
         promiseOf (fun p => addRequest (mkRequest qnode (subscribeFunc qnode p) None)) c in
       (Some p, c1)
  else (None, addCallback qnode callback c).

(** Source lines 712-730. *)
Definition unsubscribe (qnode : NodeRef) (callback : nat) (c : EmberClient)
  : option nat * EmberClient :=
  if isParameter (deref qnode c) && isStream (deref qnode c)
  then let (p, c1) :=
         promiseOf (fun p => addRequest (mkRequest qnode (unsubscribeFunc qnode p) None)) c in
       (Some p, c1)
  else (None, c).

(** [client.on('error', listener)], inherited from [EventEmitter]. *)
Definition on_error_listener (c : EmberClient) : EmberClient :=
  set_errorListeners (S (errorListeners c)) c.

(** ** The handlers of the transport's events (source lines 44-85) *)

(** [if (this._callback) this._callback(error, node)] *)
Definition callIfSet (error : ErrArg) (node : Payload) : M unit :=
  fun c =>
    match _callback c with
    | Some cb => callCallback _finishRequest cb error node c
    | None => (c, Normal tt)
    end.

(** Source lines 230-247. *)
Definition _handleRoot (decoded : TreeNode) : M TreeNode :=
  r <- mergeRoot decoded ;;
  callIfSet ErrNull (Tree r) ;;
  ret r.

(** A handler that throws leaves the object as it is at the throw; the
    error goes to the transport that emitted the event. *)
Definition on_connecting (c : EmberClient) : EmberClient := emit ev_connecting c.

Definition on_connected (c : EmberClient) : EmberClient :=
  fst (callIfSet ErrUndefined Undefined (emit ev_connected c)).

Definition on_disconnected (c : EmberClient) : EmberClient := emit ev_disconnected c.

(** Source lines 59-64. *)
Definition on_error (e : Exn) (c : EmberClient) : EmberClient :=
  fst ((callIfSet (Err e) Undefined ;; emitError e) c).

(** Source lines 66-85. *)
Definition on_emberTree (decoded : Payload) (c : EmberClient) : EmberClient :=
  fst (try_catch
         (seen <- match decoded with
                  | Invocation r =>
                      exec (emit (ev_invocationResult r)) ;; ret decoded
                  | Tree t =>
                      r <- _handleRoot t ;; ret (Tree r)
                  | Undefined => throw (TypeError "root is undefined")
                  end ;;
          callIfSet ErrUndefined seen)
         (fun e => callIfSet (Err e) Undefined) c).

(** The timer set by [_makeRequest] goes off. *)
Definition on_timer (h : nat) (c : EmberClient) : EmberClient :=
  if existsb (Nat.eqb h) (timers c)
  then fst (_timeoutRequest (clearTimeout h c))
  else c.

(** ** Sessions *)

Inductive Input :=
| call_connect
| call_getDirectory (qnode : option NodeRef)
| call_invokeFunction (fnNode : NodeRef) (params : list Value)
| call_matrixOPeration (matrixNode : NodeRef) (targetID : Z)
    (sources : option (list Z)) (operation : MatrixOperation)
| call_setValue (n : NodeRef) (v : Value)
| call_subscribe (qnode : NodeRef) (callback : nat)
| call_unsubscribe (qnode : NodeRef) (callback : nat)
| call_on_error
| ev_in_connecting
| ev_in_connected
| ev_in_disconnected
| ev_in_error (e : Exn)
| ev_in_emberTree (decoded : Payload)
| ev_in_timer (h : nat).

Definition step (c : EmberClient) (i : Input) : EmberClient :=
  match i with
  | call_connect => snd (connect c)
  | call_getDirectory q => snd (getDirectory q c)
  | call_invokeFunction f ps => snd (invokeFunction f ps c)
  | call_matrixOPeration m t s o => snd (matrixOPeration m t s o c)
  | call_setValue n v => snd (setValue n v c)
  | call_subscribe q cb => snd (subscribe q cb c)
  | call_unsubscribe q cb => snd (unsubscribe q cb c)
  | call_on_error => on_error_listener c
  | ev_in_connecting => on_connecting c
  | ev_in_connected => on_connected c
  | ev_in_disconnected => on_disconnected c
  | ev_in_error e => on_error e c
  | ev_in_emberTree d => on_emberTree d c
  | ev_in_timer h => on_timer h c
  end.

Definition run (c : EmberClient) (inputs : list Input) : EmberClient :=
  fold_left step inputs c.

(** A state of some session: any faults of the transport, any inputs. *)
Definition reachable (c : EmberClient) : Prop :=
  exists faults inputs, c = run (new faults) inputs.

End Client.

(* ===================================================================== *)
(** * Looking a path up by walking the tree (source lines 416-496)        *)
(* ===================================================================== *)

Module Walk.
Import Tree Client.

(** The value of a [var] where it is used as a number. *)
Inductive JsNumber :=
| js_undefined
| js_NaN
| js_number (z : Z).

(** [v + 1]: [undefined + 1] is [NaN]. *)
Definition plus_one (v : JsNumber) : JsNumber :=
  match v with
  | js_number z => js_number (z + 1)
  | _ => js_NaN
  end.

(** [l.slice(0, end)]: an [undefined] end is the length, [NaN] is 0, a
    negative end counts from the right. *)
Definition slice_to {A} (end_ : JsNumber) (l : list A) : list A :=
  match end_ with
  | js_undefined => l
  | js_NaN => []
  | js_number z =>
      if z <? 0 then firstn (Z.to_nat (Z.of_nat (List.length l) + z)) l
      else firstn (Z.to_nat z) l
  end.

(** The [path] argument: a string or an array. *)
Inductive PathArg :=
| path_string (s : string)
| path_array (l : list string).

(** [if (typeof path === 'string') path = path.split(sep)] *)
Definition segments (sep : ascii) (path : PathArg) : list string :=
  match path with
  | path_string s => JsString.split sep s
  | path_array l => l
  end.

(** [pos], [lastMissingPos] and [currentNode], the last as the place of the
    object in the local tree. *)
Record WalkState := mkWalk {
  pos : nat;
  lastMissingPos : Z;
  currentNode : Path }.

(** What one run of the function passed to [then] in [getNext] comes to. *)
Inductive Turn :=
| Returned (n : TreeNode)
| Thrown (e : Exn)
| Again (next : WalkState)
| AwaitDirectory (target : Path) (next : WalkState).

(** Source line 420.  [pos] is declared on the next line: at this point it
    is [undefined]. *)
Definition pathError (path : list string) : Exn :=
  JsError ("Failed path discovery at "
           ++ JsString.join "/" (slice_to (plus_one js_undefined) path)).

(** Source line 464, with [pos] equally [undefined]. *)
Definition pathnumError (path : list string) : Exn :=
  JsError ("Failed path discovery at "
           ++ JsString.join "/" (slice_to js_undefined path)).

(** Lines 427-448 and 471-492 differ by the test on a child only. *)
Definition turn (found : option string -> TreeNode -> bool) (failure : Exn)
    (path : list string) (tree : TreeNode) (st : WalkState) : Turn :=
  let children :=
    match getElementByPath (currentNode st) tree with
    | Some current => getChildren current
    | None => None
    end in
  match match children with
        | Some l => find (found (nth_error path (pos st))) l
        | None => None
        end with
  | Some n =>
      if Nat.leb (List.length path) (S (pos st)) then Returned n
      else Again (mkWalk (S (pos st)) (lastMissingPos st)
                    (currentNode st ++ [getNumber n])%list)
  | None =>
      if lastMissingPos st =? Z.of_nat (pos st) then Thrown failure
      else AwaitDirectory (currentNode st)
             (mkWalk (pos st) (Z.of_nat (pos st)) (currentNode st))
  end.

(** [node.contents != null && node.contents.identifier === identifier];
    [path[pos]] past the end is [undefined], as is a field not set. *)
Definition hasIdentifier (wanted : option string) (n : TreeNode) : bool :=
  match contents n with
  | Some k =>
      match identifier k, wanted with
      | Some a, Some b => String.eqb a b
      | None, None => true
      | _, _ => false
      end
  | None => false
  end.

(** [Number(s)] for a segment of a dotted path written with decimal
    digits: the empty string is 0, digits are their value, [undefined] and
    a segment with any other character are [NaN].  The other numeric
    literals of JavaScript (sign, fraction, exponent, [0x] prefix,
    surrounding blanks) and the rounding above 2^53 are not modelled: no
    statement below is about such a segment. *)
Definition toNumber (s : option string) : option N :=
  match s with
  | Some EmptyString => Some 0%N
  | Some str =>
      match NilEmpty.uint_of_string str with
      | Some d => Some (N.of_uint d)
      | None => None
      end
  | None => None
  end.

(** [node.getNumber() === number] *)
Definition hasNumber (wanted : option string) (n : TreeNode) : bool :=
  match toNumber wanted with
  | Some k => N.eqb (getNumber n) k
  | None => false
  end.

Inductive Outcome :=
| Found (n : TreeNode)
| Failed (e : Exn)
| Pending (target : Path)
| OutOfFuel.

(** The chain of promises.  [getDirectory(currentNode)] is answered by the
    peer: [answers] lists, for the calls to come, the local tree once the
    answer is merged, or the error the promise is rejected with; with no
    answer left the walk waits. *)
Fixpoint getNext (fuel : nat) (found : option string -> TreeNode -> bool)
    (failure : Exn) (path : list string) (tree : TreeNode)
    (answers : list (TreeNode + Exn)) (st : WalkState) : Outcome :=
  match fuel with
  | O => OutOfFuel
  | S fuel' =>
      match turn found failure path tree st with
      | Returned n => Found n
      | Thrown e => Failed e
      | Again next => getNext fuel' found failure path tree answers next
      | AwaitDirectory target next =>
          match answers with
          | [] => Pending target
          | inl tree' :: rest => getNext fuel' found failure path tree' rest next
          | inr e :: rest => Failed e
          end
      end
  end.

(** Every turn moves [pos] on or takes an answer. *)
Definition enough (path : list string) (answers : list (TreeNode + Exn)) : nat :=
  S (List.length path + List.length answers).

Definition start : WalkState := mkWalk 0 (-1) [].

(** Source lines 416-452. *)
Definition getNodeByPath (path : PathArg) (tree : TreeNode)
    (answers : list (TreeNode + Exn)) : Outcome :=
  let path := segments "/" path in
  getNext (enough path answers) hasIdentifier (pathError path) path tree answers start.

(** Source lines 460-496. *)
Definition getNodeByPathnum (path : PathArg) (tree : TreeNode)
    (answers : list (TreeNode + Exn)) : Outcome :=
  let path := segments "." path in
  getNext (enough path answers) hasNumber (pathnumError path) path tree answers start.

End Walk.

(* ===================================================================== *)
(** * The BER codec and the StreamDescription structure                   *)
(* ===================================================================== *)

(** Modelled from the spec: the BER reader and writer and the encoder and
    decoder of StreamDescription are missing from the sources (only their
    test is there).  This module follows spec 4.A: tags made of a class, a
    number and the constructed bit; lengths in short and long definite form
    and, on reading, in indefinite form; integers in two's complement of
    variable length; a writer that buffers the children of a sequence and
    prefixes their length; a reader that is a cursor over the input with the
    four failures of the spec. *)
Module Ber.

Inductive TagClass := Universal | Application | Context | Private.

Record Tag := mkTag {
  tagClass : TagClass;
  constructed : bool;
  tagNumber : Z }.

Definition classBits (c : TagClass) : Z :=
  match c with
  | Universal => 0
  | Application => 64
  | Context => 128
  | Private => 192
  end.

Definition classOfBits (z : Z) : TagClass :=
  if z =? 0 then Universal
  else if z =? 64 then Application
  else if z =? 128 then Context
  else Private.

(** Modelled from the spec: the identifier octet, for tag numbers below 31
    (all the tags of Ember+ are). *)
Definition encodeTag (t : Tag) : list Z :=
  [Z.lor (Z.lor (classBits (tagClass t)) (if constructed t then 32 else 0))
         (Z.land (tagNumber t) 31)].

Definition decodeTag (b : Z) : Tag :=
  mkTag (classOfBits (Z.land b 192)) (Z.testbit b 5) (Z.land b 31).

Definition Tag_eqb (a b : Tag) : bool :=
  (classBits (tagClass a) =? classBits (tagClass b))
  && Bool.eqb (constructed a) (constructed b)
  && (tagNumber a =? tagNumber b).

Definition INTEGER : Tag := mkTag Universal false 2.
Definition ENUMERATED : Tag := mkTag Universal false 10.
Definition CONTEXT (n : Z) : Tag := mkTag Context true n.
Definition APPLICATION (n : Z) : Tag := mkTag Application true n.

(** The [n] low bytes of [z], most significant first. *)
Fixpoint be_bytes (n : nat) (z : Z) : list Z :=
  match n with
  | O => []
  | S n' => be_bytes n' (Z.shiftr z 8) ++ [Z.land z 255]
  end.

(** The value of bytes read as an unsigned number. *)
Definition unsigned (bytes : list Z) : Z :=
  fold_left (fun acc b => acc * 256 + b) bytes 0.

(** [z] fits in [n] bytes of two's complement. *)
Definition fits (n : nat) (z : Z) : bool :=
  (- 2 ^ (8 * Z.of_nat n - 1) <=? z) && (z <? 2 ^ (8 * Z.of_nat n - 1)).

Fixpoint size_from (fuel n : nat) (z : Z) : nat :=
  match fuel with
  | O => n
  | S fuel' => if fits n z then n else size_from fuel' (S n) z
  end.

(** Modelled from the spec: integers are two's complement of variable
    length: the least number of bytes, at least one, that holds the
    value. *)
Definition intSize (z : Z) : nat :=
  size_from (Z.to_nat (Z.log2_up (Z.abs z + 1))) 1 z.

Definition twosComplement (z : Z) : list Z := be_bytes (intSize z) z.

(** The value of bytes read as two's complement: the upper half of the
    unsigned range stands for the negative numbers. *)
Definition signed (bytes : list Z) : Z :=
  let bits := 8 * Z.of_nat (List.length bytes) in
  if 2 ^ (bits - 1) <=? unsigned bytes then unsigned bytes - 2 ^ bits
  else unsigned bytes.

(** The bytes an unsigned number needs, at least one. *)
Fixpoint unsignedSize (fuel : nat) (z : Z) : nat :=
  match fuel with
  | O => 1
  | S fuel' => if z <? 256 then 1 else S (unsignedSize fuel' (Z.shiftr z 8))
  end.

(** Modelled from the spec: the short form is a single byte below 0x80;
    the long definite form is a byte with the top bit set that gives the
    length of the length, then the length. *)
Definition encodeLength (len : nat) : list Z :=
  let z := Z.of_nat len in
  if z <? 128 then [z]
  else
    let k := unsignedSize len z in
    Z.lor 128 (Z.of_nat k) :: be_bytes k z.

Inductive BerError := UnexpectedTag | TruncatedInput | InvalidLength | ExcessData.

Inductive Result (A : Type) :=
| Ok (a : A)
| Error (e : BerError).
Arguments Ok {A} a.
Arguments Error {A} e.

Definition andThen {A B} (r : Result A) (k : A -> Result B) : Result B :=
  match r with
  | Ok a => k a
  | Error e => Error e
  end.

Declare Scope ber_scope.
Delimit Scope ber_scope with ber.
Notation "x <- r ;; k" := (andThen r (fun x => k))
  (at level 61, r at next level, right associativity) : ber_scope.
Notation "' p <- r ;; k" := (andThen r (fun x => match x with p => k end))
  (at level 61, p pattern, r at next level, right associativity) : ber_scope.
Local Open Scope ber_scope.

(** ** The writer *)

(** The bytes of the sequence being written, and, for each sequence that is
    open, its tag with the bytes written before it at the level above. *)
Record Writer := mkWriter {
  buffer : list Z;
  opened : list (Tag * list Z) }.

Definition newWriter : Writer := mkWriter [] [].

Definition writeBytes (bytes : list Z) (w : Writer) : Writer :=
  mkWriter (buffer w ++ bytes) (opened w).

Definition startSequence (t : Tag) (w : Writer) : Writer :=
  mkWriter [] ((t, buffer w) :: opened w).

(** Closes the innermost sequence: tag, definite length, children. *)
Definition endSequence (w : Writer) : Writer :=
  match opened w with
  | (t, before) :: outer =>
      mkWriter (before ++ encodeTag t ++ encodeLength (List.length (buffer w)) ++ buffer w)
               outer
  | [] => w
  end.

Definition writeInteger (z : Z) (t : Tag) (w : Writer) : Writer :=
  writeBytes (encodeTag t ++ encodeLength (intSize z) ++ twosComplement z) w.

(** ** The reader *)

(** A sequence that was entered: of definite length, with the input that
    follows it; or of indefinite length, closed by two zero bytes. *)
Inductive Frame :=
| DefiniteFrame (after : list Z)
| IndefiniteFrame.

Record Reader := mkReader {
  input : list Z;
  frames : list Frame }.

Definition newReader (bytes : list Z) : Reader := mkReader bytes [].

Definition peekTag (r : Reader) : Result Tag :=
  match input r with
  | b :: _ => Ok (decodeTag b)
  | [] => Error TruncatedInput
  end.

(** A length: [Some n] definite, [None] indefinite; with the input after
    it. *)
Definition readLength (bytes : list Z) : Result (option nat * list Z) :=
  match bytes with
  | [] => Error TruncatedInput
  | b :: rest =>
      if b <? 128 then Ok (Some (Z.to_nat b), rest)
      else if b =? 128 then Ok (None, rest)
      else if b =? 255 then Error InvalidLength
      else
        let k := Z.to_nat (b - 128) in
        if Nat.ltb (List.length rest) k then Error TruncatedInput
        else Ok (Some (Z.to_nat (unsigned (firstn k rest))), skipn k rest)
  end.

(** Tag and length of the next value. *)
Definition readHeader (expected : Tag) (bytes : list Z)
  : Result (option nat * list Z) :=
  match bytes with
  | [] => Error TruncatedInput
  | b :: rest =>
      if Tag_eqb (decodeTag b) expected then readLength rest
      else Error UnexpectedTag
  end.

Definition enterSequence (expected : Tag) (r : Reader) : Result Reader :=
  '(len, rest) <- readHeader expected (input r) ;;
  match len with
  | Some n =>
      if Nat.ltb (List.length rest) n then Error TruncatedInput
      else Ok (mkReader (firstn n rest) (DefiniteFrame (skipn n rest) :: frames r))
  | None => Ok (mkReader rest (IndefiniteFrame :: frames r))
  end.

(** The cursor is at the end of the innermost sequence. *)
Definition atEnd (r : Reader) : bool :=
  match frames r, input r with
  | IndefiniteFrame :: _, 0 :: 0 :: _ => true
  | IndefiniteFrame :: _, _ => false
  | _, [] => true
  | _, _ => false
  end.

Definition exitSequence (r : Reader) : Result Reader :=
  match frames r with
  | DefiniteFrame after :: outer =>
      match input r with
      | [] => Ok (mkReader after outer)
      | _ => Error ExcessData
      end
  | IndefiniteFrame :: outer =>
      match input r with
      | 0 :: 0 :: rest => Ok (mkReader rest outer)
      | [] | [_] => Error TruncatedInput
      | _ => Error ExcessData
      end
  | [] => Error ExcessData
  end.

Definition readInteger (expected : Tag) (r : Reader) : Result (Z * Reader) :=
  '(len, rest) <- readHeader expected (input r) ;;
  match len with
  | Some O | None => Error InvalidLength
  | Some n =>
      if Nat.ltb (List.length rest) n then Error TruncatedInput
      else Ok (signed (firstn n rest), mkReader (skipn n rest) (frames r))
  end.

(** ** StreamDescription *)

(** The sample types of spec 4.A. *)
Inductive StreamFormat :=
| Int8 | Int16BE | Int16LE | Int32BE | Int32LE | Int64BE | Int64LE
| Float32BE | Float32LE | Float64BE | Float64LE.

Definition allFormats : list StreamFormat :=
  [Int8; Int16BE; Int16LE; Int32BE; Int32LE; Int64BE; Int64LE;
   Float32BE; Float32LE; Float64BE; Float64LE].

Record StreamDescription := mkStreamDescription {
  format : StreamFormat;
  offset : Z }.

Section StreamDescriptionCodec.

(** The number of the application tag of StreamDescription and the numbers
    of the sample types on the wire: the spec gives neither table (only
    that [Int32BE] is sent as 4). *)
Variable StreamDescriptionBERID : Z.
Variable formatCode : StreamFormat -> Z.

Definition formatOfCode (z : Z) : option StreamFormat :=
  find (fun f => formatCode f =? z) allFormats.

(** Modelled from the spec: an application-tagged set of
    [{format: enumerated, offset: integer}], the fields labelled with the
    context tags 0 and 1 (spec 4.A and 8, scenario 1). *)
Definition encodeStreamDescription (sd : StreamDescription) (w : Writer) : Writer :=
  let w := startSequence (APPLICATION StreamDescriptionBERID) w in
  let w := startSequence (CONTEXT 0) w in
  let w := writeInteger (formatCode (format sd)) ENUMERATED w in
  let w := endSequence w in
  let w := startSequence (CONTEXT 1) w in
  let w := writeInteger (offset sd) INTEGER w in
  let w := endSequence w in
  endSequence w.

(** The fields read so far. *)
Definition Fields := (option StreamFormat * option Z)%type.

(** One field: a context tag, its value, the end of the context tag. *)
Definition readField (fields : Fields) (r : Reader) : Result (Fields * Reader) :=
  t <- peekTag r ;;
  if Tag_eqb t (CONTEXT 0) then
    r <- enterSequence (CONTEXT 0) r ;;
    '(v, r) <- readInteger ENUMERATED r ;;
    r <- exitSequence r ;;
    match formatOfCode v with
    | Some f => Ok ((Some f, snd fields), r)
    | None => Error UnexpectedTag
    end
  else if Tag_eqb t (CONTEXT 1) then
    r <- enterSequence (CONTEXT 1) r ;;
    '(v, r) <- readInteger INTEGER r ;;
    r <- exitSequence r ;;
    Ok ((fst fields, Some v), r)
  else Error UnexpectedTag.

(** The fields up to the end of the sequence; a field takes at least one
    byte, so the length of the input is fuel enough. *)
Fixpoint readFields (fuel : nat) (fields : Fields) (r : Reader)
  : Result (Fields * Reader) :=
  if atEnd r then Ok (fields, r)
  else
    match fuel with
    | O => Error TruncatedInput
    | S fuel' =>
        '(fields, r) <- readField fields r ;;
        readFields fuel' fields r
    end.

(** Modelled from the spec: the decoder recovers the exact struct (spec 8,
    scenario 1); a description without one of its two fields is
    truncated. *)
Definition decodeStreamDescription (r : Reader) : Result StreamDescription :=
  r <- enterSequence (APPLICATION StreamDescriptionBERID) r ;;
  '(fields, r) <- readFields (List.length (input r)) (None, None) r ;;
  _ <- exitSequence r ;;
  match fields with
  | (Some f, Some o) => Ok (mkStreamDescription f o)
  | _ => Error TruncatedInput
  end.

End StreamDescriptionCodec.

End Ber.

(* ===================================================================== *)
(** * Facts about the string primitives and the rendering of paths        *)
(* ===================================================================== *)

Module StringFacts.
Import JsString.

Lemma lastIndexOf_bounds c s :
  -1 <= lastIndexOf c s < Z.of_nat (String.length s).
Proof.
  induction s as [|a rest IH]; simpl; [lia|].
  destruct (lastIndexOf c rest =? -1) eqn:E.
  - destruct (Ascii.eqb a c); lia.
  - apply Z.eqb_neq in E. lia.
Qed.

Lemma lastIndexOf_cons_sep c seg :
  lacks c seg -> lastIndexOf c (String c seg) = 0.
Proof.
  unfold lacks. intros H. simpl. rewrite H. simpl.
  now rewrite Ascii.eqb_refl.
Qed.

Lemma lastIndexOf_append c p t :
  0 <= lastIndexOf c t ->
  lastIndexOf c (p ++ t) = Z.of_nat (String.length p) + lastIndexOf c t.
Proof.
  intros Ht. induction p as [|a p IH]; simpl String.length.
  - simpl. lia.
  - cbn [append lastIndexOf]. rewrite IH.
    destruct (_ =? -1) eqn:E.
    + apply Z.eqb_eq in E. lia.
    + lia.
Qed.

Lemma lastIndexOf_at_length c p t :
  lastIndexOf c (p ++ t) = Z.of_nat (String.length p) ->
  exists seg, t = String c seg /\ lacks c seg.
Proof.
  induction p as [|a p IH]; cbn [append String.length]; intros H.
  - destruct t as [|b seg]; simpl in H; [lia|].
    destruct (lastIndexOf c seg =? -1) eqn:E.
    + apply Z.eqb_eq in E.
      destruct (Ascii.eqb b c) eqn:Eb; [|lia].
      apply Ascii.eqb_eq in Eb. subst b. now exists seg.
    + pose proof (lastIndexOf_bounds c seg). apply Z.eqb_neq in E. lia.
  - cbn [lastIndexOf] in H.
    destruct (lastIndexOf c (p ++ t) =? -1) eqn:E.
    + destruct (Ascii.eqb a c); lia.
    + apply IH. lia.
Qed.

Lemma startsWith_append s p :
  startsWith s p = true <-> exists t, s = (p ++ t)%string.
Proof.
  unfold startsWith. revert s.
  induction p as [|a p IH]; intros s; simpl.
  - split; [intros _; now exists s | intros _; now destruct s].
  - destruct s as [|b s]; simpl.
    + split; [discriminate | intros [t Ht]; discriminate].
    + destruct (ascii_dec a b) as [->|Hab].
      * rewrite IH. split; intros [t Ht]; exists t; [now subst | now inversion Ht].
      * split; [discriminate | intros [t Ht]; inversion Ht; congruence].
Qed.

Lemma append_lacks c s t :
  lacks c (s ++ t) <-> lacks c s /\ lacks c t.
Proof.
  unfold lacks. induction s as [|a s IH]; cbn [append lastIndexOf].
  - intuition.
  - destruct (lastIndexOf c (s ++ t) =? -1) eqn:E.
    + apply Z.eqb_eq in E. apply IH in E as [Hs Ht]. rewrite Hs. simpl.
      intuition.
    + apply Z.eqb_neq in E.
      pose proof (lastIndexOf_bounds c (s ++ t)).
      split; [lia|]. intros [Hs Ht].
      destruct (lastIndexOf c s =? -1) eqn:Es.
      * apply Z.eqb_eq in Es. exfalso. apply E. apply IH. now split.
      * pose proof (lastIndexOf_bounds c s). apply Z.eqb_neq in Es. lia.
Qed.

Lemma lacks_cons c a s : lacks c (String a s) <-> a <> c /\ lacks c s.
Proof.
  unfold lacks. simpl.
  destruct (lastIndexOf c s =? -1) eqn:E.
  - apply Z.eqb_eq in E. destruct (Ascii.eqb a c) eqn:Ea.
    + apply Ascii.eqb_eq in Ea. split; [lia | intros [H _]; congruence].
    + apply Ascii.eqb_neq in Ea. intuition.
  - apply Z.eqb_neq in E. pose proof (lastIndexOf_bounds c s).
    split; [lia | intros [_ Hs]; congruence].
Qed.

(** Two strings cut at their first separator agree piecewise. *)
Lemma append_sep_inj c s1 s2 t1 t2 :
  lacks c s1 -> lacks c s2 ->
  (s1 ++ String c t1 = s2 ++ String c t2)%string ->
  s1 = s2 /\ t1 = t2.
Proof.
  revert s2. induction s1 as [|a s1 IH]; intros [|b s2] H1 H2 E; simpl in E.
  - inversion E. auto.
  - inversion E. subst. apply lacks_cons in H2. tauto.
  - inversion E. subst. apply lacks_cons in H1. tauto.
  - inversion E. subst.
    apply lacks_cons in H1 as [_ H1]. apply lacks_cons in H2 as [_ H2].
    destruct (IH s2 H1 H2 H3). subst. auto.
Qed.

Lemma append_assoc (s t u : string) : ((s ++ t) ++ u = s ++ (t ++ u))%string.
Proof. induction s as [|a s IH]; simpl; [reflexivity | now rewrite IH]. Qed.

End StringFacts.

Module PathFacts.
Import JsString StringFacts Paths.

Lemma string_of_uint_lacks_dot d : lacks "." (NilEmpty.string_of_uint d).
Proof.
  induction d; simpl; try reflexivity;
    apply lacks_cons; (split; [discriminate | assumption]).
Qed.

Lemma decimal_lacks_dot n : lacks "." (decimal n).
Proof. apply string_of_uint_lacks_dot. Qed.

Lemma decimal_inj n m : decimal n = decimal m -> n = m.
Proof.
  unfold decimal. intros E.
  apply (f_equal NilEmpty.uint_of_string) in E.
  rewrite !NilEmpty.usu in E. inversion E as [E'].
  apply (f_equal N.of_uint) in E'.
  now rewrite !DecimalN.Unsigned.of_to in E'.
Qed.

Lemma decimal_nonempty n : decimal n <> EmptyString.
Proof.
  unfold decimal. intros E.
  assert (H : N.to_uint n = Nil).
  { destruct (N.to_uint n); simpl in E; try discriminate. reflexivity. }
  apply (f_equal N.of_uint) in H. rewrite DecimalN.Unsigned.of_to in H.
  simpl in H. subst n. discriminate.
Qed.

Lemma pathString_cons a b r :
  pathString (a :: b :: r) = (decimal a ++ String "." (pathString (b :: r)))%string.
Proof. reflexivity. Qed.

Lemma pathString_snoc p n :
  p <> [] -> pathString (p ++ [n]) = (pathString p ++ String "." (decimal n))%string.
Proof.
  induction p as [|a [|b r] IH]; intros Hp; [congruence | reflexivity |].
  change ((a :: b :: r) ++ [n])%list with (a :: b :: (r ++ [n]))%list.
  rewrite !pathString_cons.
  change (b :: (r ++ [n]))%list with ((b :: r) ++ [n])%list.
  rewrite IH by discriminate.
  now rewrite append_assoc.
Qed.

Lemma pathString_lacks_dot p : lacks "." (pathString p) -> List.length p = 0%nat \/ List.length p = 1%nat.
Proof.
  destruct p as [|a [|b r]]; auto.
  rewrite pathString_cons. intros H.
  apply append_lacks in H as [_ H]. apply lacks_cons in H. tauto.
Qed.

(** What a rendered path followed by one more dot-free segment can be. *)
Lemma pathString_extend q : q <> [] -> forall p seg,
  lacks "." seg ->
  pathString p = (pathString q ++ String "." seg)%string ->
  exists n, p = (q ++ [n])%list /\ seg = decimal n.
Proof.
  induction q as [|b [|b2 r] IH]; intros Hq p seg Hseg E; [congruence | |].
  - change (pathString [b]) with (decimal b) in E.
    destruct p as [|a [|a2 r]].
    + destruct (decimal b); discriminate.
    + change (pathString [a]) with (decimal a) in E.
      pose proof (decimal_lacks_dot a) as Ha. rewrite E in Ha.
      apply append_lacks in Ha as [_ Ha]. apply lacks_cons in Ha. tauto.
    + rewrite pathString_cons in E.
      apply append_sep_inj in E as [Eab Er]; try apply decimal_lacks_dot.
      apply decimal_inj in Eab. subst a.
      rewrite <- Er in Hseg.
      destruct (pathString_lacks_dot _ Hseg) as [Hl|Hl]; [discriminate|].
      destruct r; [|discriminate]. exists a2. now subst seg.
  - rewrite pathString_cons in E. rewrite append_assoc in E.
    destruct p as [|a [|a2 r']].
    + destruct (decimal b); discriminate.
    + change (pathString [a]) with (decimal a) in E.
      pose proof (decimal_lacks_dot a) as Ha. rewrite E in Ha.
      apply append_lacks in Ha as [_ Ha]. apply lacks_cons in Ha. tauto.
    + rewrite pathString_cons in E. simpl append in E.
      apply append_sep_inj in E as [Eab Er]; try apply decimal_lacks_dot.
      apply decimal_inj in Eab. subst a.
      destruct (IH ltac:(discriminate) (a2 :: r') seg Hseg Er) as [n [Hp Hn]].
      exists n. split; [|assumption]. simpl. now rewrite Hp.
Qed.

Lemma pathString_nonempty p : p <> [] -> pathString p <> EmptyString.
Proof.
  destruct p as [|a [|b r]]; intros Hp; [congruence | apply decimal_nonempty |].
  rewrite pathString_cons. pose proof (decimal_nonempty a).
  destruct (decimal a); [congruence | discriminate].
Qed.

Lemma pathString_inj p : forall q, pathString p = pathString q -> p = q.
Proof.
  induction p as [|a [|a2 r] IH]; intros q E.
  - destruct q; [reflexivity|]. symmetry in E.
    now apply pathString_nonempty in E.
  - destruct q as [|b [|b2 r']].
    + now apply (pathString_nonempty [a]) in E.
    + f_equal. now apply decimal_inj.
    + change (pathString [a]) with (decimal a) in E.
      rewrite pathString_cons in E.
      pose proof (decimal_lacks_dot a) as Ha. rewrite E in Ha.
      apply append_lacks in Ha as [_ Ha]. apply lacks_cons in Ha. tauto.
  - destruct q as [|b [|b2 r']].
    + now apply (pathString_nonempty (a :: a2 :: r)) in E.
    + change (pathString [b]) with (decimal b) in E.
      rewrite pathString_cons in E.
      pose proof (decimal_lacks_dot b) as Hb. rewrite <- E in Hb.
      apply append_lacks in Hb as [_ Hb]. apply lacks_cons in Hb. tauto.
    + rewrite !pathString_cons in E.
      apply append_sep_inj in E as [Eab Er]; try apply decimal_lacks_dot.
      apply decimal_inj in Eab. subst b. f_equal. now apply IH.
Qed.

End PathFacts.

(** On strings: equal, or the parent followed by a dot and one dot-free
    segment. *)
Lemma isDirectSubPathOf_spec path parent :
  isDirectSubPathOf path parent = true <->
  path = parent \/
  exists seg, path = (parent ++ String "." seg)%string /\ JsString.lacks "." seg.
Proof.
  unfold isDirectSubPathOf. rewrite orb_true_iff, andb_true_iff.
  rewrite String.eqb_eq, Z.eqb_eq, StringFacts.startsWith_append.
  split.
  - intros [H|[Hl [t Ht]]]; [now left|]. right. subst path.
    apply StringFacts.lastIndexOf_at_length in Hl as [seg [-> Hseg]]. eauto.
  - intros [H|[seg [Hp Hseg]]]; [now left|]. right. subst path. split.
    + rewrite StringFacts.lastIndexOf_append;
        rewrite StringFacts.lastIndexOf_cons_sep by assumption; lia.
    + eauto.
Qed.

(** On rendered numeric paths below a non-root parent: the same path, or
    the parent's path extended by exactly one child number. *)
Lemma isDirectSubPathOf_paths (p q : Path) :
  q <> [] ->
  (isDirectSubPathOf (Paths.pathString p) (Paths.pathString q) = true <->
   p = q \/ exists n, p = (q ++ [n])%list).
Proof.
  intros Hq. rewrite isDirectSubPathOf_spec. split.
  - intros [E|[seg [E Hseg]]].
    + left. now apply PathFacts.pathString_inj.
    + right. destruct (PathFacts.pathString_extend q Hq p seg Hseg E) as [n [Hp _]].
      eauto.
  - intros [->|[n ->]]; [now left|]. right.
    exists (Paths.decimal n). split.
    + now apply PathFacts.pathString_snoc.
    + apply PathFacts.decimal_lacks_dot.
Qed.


(* ===================================================================== *)
(** * Facts about the tree model                                          *)
(* ===================================================================== *)

Module TreeFacts.
Import Tree.


(** ** Lookups survive the mutations of the merge *)

Definition resolves (p : Path) (t : TreeNode) : Prop :=
  getElementByPath p t <> None.


Lemma getNumber_setElements l x : getNumber (setElements l x) = getNumber x.
Proof. reflexivity. Qed.

Lemma getNumber_setParent k x : getNumber (setParent k x) = getNumber x.
Proof. reflexivity. Qed.




















(** Induction on a node with the hypothesis for all its children. *)
Section NestedInduction.

Variable P : TreeNode -> Prop.

Hypothesis step :
  forall k n p par c els,
    match els with Some l => Forall P l | None => True end ->
    P (mkTreeNode k n p par c els).

Fixpoint TreeNode_nested_ind (t : TreeNode) : P t :=
  match t as t0 return P t0 with
  | mkTreeNode k n p par c els =>
      step k n p par c els
        (match els as e
               return match e with Some l => Forall P l | None => True end with
         | Some l =>
             (fix all (l : list TreeNode) : Forall P l :=
                match l with
                | [] => Forall_nil P
                | x :: rest => Forall_cons x (TreeNode_nested_ind x) (all rest)
                end) l
         | None => I
         end)
  end.

End NestedInduction.

End TreeFacts.

(* ===================================================================== *)
(** * Sample nodes used in the scenarios                                  *)
(* ===================================================================== *)

Module Samples.
Import Tree Client.

Definition integerContents (v : Z) : Contents :=
  mkContents None None (Some (VInteger v)) None None None.

Definition parameter (k : N) (v : Z) : TreeNode :=
  mkTreeNode KParameter k None None (Some (integerContents v)) None.

Definition qualifiedParameter (p : Path) (v : Z) : TreeNode :=
  mkTreeNode KParameter 0 (Some p) None (Some (integerContents v)) None.

Definition streamParameter (k : N) (stream : Z) : TreeNode :=
  mkTreeNode KParameter k None None
    (Some (mkContents None None None (Some stream) None None)) None.

Definition container (k : N) (children : list TreeNode) : TreeNode :=
  mkTreeNode KNode k None None None (Some children).

Definition functionNode (k : N) : TreeNode :=
  mkTreeNode KFunction k None None None None.

Definition matrix (k : N) (targets sources : Z) : TreeNode :=
  mkTreeNode KMatrix k None None
    (Some (mkContents None None None None (Some targets) (Some sources))) None.

Definition decodedRoot (children : list TreeNode) : TreeNode :=
  mkTreeNode KRoot 0 None None None (Some children).

(** The integer stored at [p] in a tree. *)
Definition integerAt (p : Path) (t : TreeNode) : option Z :=
  match getElementByPath p t with
  | Some n =>
      match contents n with
      | Some k => match value k with Some (VInteger z) => Some z | _ => None end
      | None => None
      end
  | None => None
  end.

End Samples.

(* ===================================================================== *)
(** * The facade's preflight checks and local subscriptions               *)
(* ===================================================================== *)

Module FacadeFacts.
Import Tree Client Samples.

(** An ID outside the declared range (negative, or above the count). *)
Definition outOfRange (matrixNode : TreeNode) (targetID : Z) (sources : list Z) : Prop :=
  exists k, contents matrixNode = Some k /\
    ((exists tc, targetCount k = Some tc /\ (targetID < 0 \/ tc < targetID)) \/
     (exists sc s, sourceCount k = Some sc /\ In s sources /\ (s < 0 \/ sc < s))).

Lemma within_false_above count id k :
  count = Some k -> id < 0 \/ k < id -> within count id = false.
Proof.
  intros -> H. unfold within. destruct H.
  - replace (0 <=? id) with false; [reflexivity|]. symmetry. apply Z.leb_gt. lia.
  - replace (id <=? k) with false; [apply andb_false_r|]. symmetry. apply Z.leb_gt. lia.
Qed.

Lemma validateConnection_outOfRange m t srcs :
  outOfRange m t srcs -> validateConnection m t srcs = Some InvalidConnection.
Proof.
  intros [k [Hk H]]. unfold validateConnection. rewrite Hk. cbn [fst snd].
  destruct H as [[tc [Htc Hr]] | [sc [s [Hsc [Hin Hr]]]]].
  - now rewrite (within_false_above _ _ _ Htc Hr).
  - replace (forallb (within (sourceCount k)) srcs) with false;
      [now rewrite andb_false_r|].
    symmetry. apply not_true_is_false. intros Hall.
    rewrite forallb_forall in Hall. specialize (Hall s Hin).
    now rewrite (within_false_above _ _ _ Hsc Hr) in Hall.
Qed.

Lemma promiseState_settle_fresh p s c :
  promiseState p c = None -> promiseState p (settle p s c) = Some s.
Proof.
  intros H. unfold settle. rewrite H. unfold promiseState. cbn.
  now rewrite Nat.eqb_refl.
Qed.

Lemma promiseState_newPromise p c :
  promiseState p (snd (newPromise c)) = promiseState p c.
Proof. reflexivity. Qed.

(** C9: a matrix operation with a target or source ID outside the declared
    counts, and a [setValue] on a node that is not a parameter, reject the
    promise they return at once ([InvalidConnection] for the matrix) and
    leave the pipeline alone: nothing is queued, the queue, the active
    request, the timers and the transport are as before. *)
Theorem preflight_rejects_without_enqueueing
    (c : EmberClient) (matrixNode : NodeRef) (targetID : Z) (sources : list Z)
    (operation : MatrixOperation) (n : NodeRef) (v : Value) :
  (outOfRange (deref matrixNode c) targetID sources ->
   let r := matrixOPeration matrixNode targetID (Some sources) operation c in
   fst r = nextPromise c /\
   snd r = settle (fst r) (Rejected (Err InvalidConnection)) (snd (newPromise c)) /\
   (promiseState (fst r) c = None ->
    promiseState (fst r) (snd r) = Some (Rejected (Err InvalidConnection))) /\
   _pendingRequests (snd r) = _pendingRequests c /\
   _activeRequest (snd r) = _activeRequest c /\
   _timeout (snd r) = _timeout c /\
   _callback (snd r) = _callback c /\
   trace (snd r) = trace c) /\
  (isParameter (deref n c) = false ->
   let r := setValue n v c in
   fst r = nextPromise c /\
   snd r = settle (fst r) (Rejected (Err (EmberAccessError "not a property")))
             (snd (newPromise c)) /\
   (promiseState (fst r) c = None ->
    promiseState (fst r) (snd r)
    = Some (Rejected (Err (EmberAccessError "not a property")))) /\
   _pendingRequests (snd r) = _pendingRequests c /\
   _activeRequest (snd r) = _activeRequest c /\
   _timeout (snd r) = _timeout c /\
   _callback (snd r) = _callback c /\
   trace (snd r) = trace c).
Proof.
  split.
  - intros Hout. apply validateConnection_outOfRange in Hout.
    unfold matrixOPeration, promiseOf. cbn [newPromise].
    change (deref matrixNode (set_promises (promises c) (S (nextPromise c)) c))
      with (deref matrixNode c).
    rewrite Hout. cbn [fst snd].
    repeat split; try (unfold settle; destruct (promiseState _ _); reflexivity).
    intros Hfresh. now apply promiseState_settle_fresh.
  - intros Hnot. unfold setValue, promiseOf. cbn [newPromise].
    change (deref n (set_promises (promises c) (S (nextPromise c)) c))
      with (deref n c).
    rewrite Hnot. cbn [negb fst snd].
    repeat split; try (unfold settle; destruct (promiseState _ _); reflexivity).
    intros Hfresh. now apply promiseState_settle_fresh.
Qed.

(** A matrix with two sources asked to connect source 5, and a container
    node given a value. *)
Lemma preflight_rejects_witness :
  (let r := matrixOPeration (Detached [7%N] (matrix 7 4 2)) 3 (Some [5]) op_connect (new []) in
   promiseState (fst r) (snd r) = Some (Rejected (Err InvalidConnection)) /\
   _pendingRequests (snd r) = [] /\ _activeRequest (snd r) = None) /\
  (let r := setValue (Detached [1%N] (container 1 [])) (VInteger 7) (new []) in
   promiseState (fst r) (snd r)
   = Some (Rejected (Err (EmberAccessError "not a property"))) /\
   _pendingRequests (snd r) = [] /\ _activeRequest (snd r) = None).
Proof.
  destruct (preflight_rejects_without_enqueueing (new [])
              (Detached [7%N] (matrix 7 4 2)) 3 [5] op_connect
              (Detached [1%N] (container 1 [])) (VInteger 7)) as [Hm Hs].
  split.
  - assert (Hout : outOfRange (deref (Detached [7%N] (matrix 7 4 2)) (new [])) 3 [5]).
    { eexists. split; [reflexivity|]. right. exists 2, 5. cbn. intuition lia. }
    destruct (Hm Hout) as (_ & _ & Hp & Hq & Ha & _).
    cbv zeta. split; [apply Hp; reflexivity | split; [exact Hq | exact Ha]].
  - destruct (Hs eq_refl) as (_ & _ & Hp & Hq & Ha & _).
    cbv zeta. split; [apply Hp; reflexivity | split; [exact Hq | exact Ha]].
Defined.

(** C10: for a node that is not a stream parameter or stream matrix,
    [subscribe] returns [undefined], queues nothing and only registers the
    callback with the node; [unsubscribe] on a node that is not a stream
    parameter returns [undefined] and changes nothing. *)
Theorem subscribe_off_stream_is_local
    (c : EmberClient) (qnode : NodeRef) (callback : nat) :
  ((isParameter (deref qnode c) || isMatrix (deref qnode c))
     && isStream (deref qnode c) = false ->
   fst (subscribe qnode callback c) = None /\
   snd (subscribe qnode callback c) = addCallback qnode callback c /\
   subscribers (snd (subscribe qnode callback c))
   = (subscribers c ++ [(refPath qnode, callback)])%list /\
   _pendingRequests (snd (subscribe qnode callback c)) = _pendingRequests c /\
   _activeRequest (snd (subscribe qnode callback c)) = _activeRequest c /\
   promises (snd (subscribe qnode callback c)) = promises c /\
   nextPromise (snd (subscribe qnode callback c)) = nextPromise c /\
   trace (snd (subscribe qnode callback c)) = trace c) /\
  (isParameter (deref qnode c) && isStream (deref qnode c) = false ->
   unsubscribe qnode callback c = (None, c)).
Proof.
  split; intros H.
  - unfold subscribe. rewrite H. cbn [fst snd]. repeat split.
  - unfold unsubscribe. now rewrite H.
Qed.

(** A plain parameter (no stream identifier). *)
Lemma subscribe_off_stream_witness :
  (fst (subscribe (Detached [2%N] (parameter 2 10)) 0 (new [])) = None /\
   _pendingRequests (snd (subscribe (Detached [2%N] (parameter 2 10)) 0 (new []))) = []) /\
  unsubscribe (Detached [2%N] (parameter 2 10)) 0 (new []) = (None, new []).
Proof.
  destruct (subscribe_off_stream_is_local (new []) (Detached [2%N] (parameter 2 10)) 0)
    as [Hs Hu].
  split.
  - destruct (Hs eq_refl) as (H1 & _ & _ & H2 & _). split; [exact H1 | exact H2].
  - apply Hu. reflexivity.
Defined.

End FacadeFacts.

(* ===================================================================== *)
(** * The pipeline: one request at a time                                 *)
(* ===================================================================== *)

Module PipelineFacts.
Import Tree Client Samples.
Local Open Scope client_scope.

Definition isSome {A} (o : option A) : bool :=
  match o with Some _ => true | None => false end.

(** Reading the trace from the start: a request may start only when none is
    active, the transport may be written only while one is, and
    [_finishRequest] leaves none active.  The result is [None] when the
    trace breaks one of these rules, and otherwise tells whether a request
    is active at the end. *)
Definition pipeline_step (busy : option bool) (e : TraceEvent) : option bool :=
  match busy, e with
  | Some false, Started _ => Some true
  | Some true, Written _ => Some true
  | Some true, WriteFailed _ => Some true
  | Some _, Finished => Some false
  | _, _ => None
  end.

Definition tracked (tr : list TraceEvent) : option bool :=
  fold_left pipeline_step tr (Some false).

(** The invariant: the trace obeys the rules and agrees with the slot. *)
Definition Inv (c : EmberClient) : Prop :=
  tracked (trace c) = Some (isSome (_activeRequest c)).

(** The trace obeys the rules, whatever the slot holds. *)
Definition WF (c : EmberClient) : Prop :=
  exists b, tracked (trace c) = Some b.

Lemma tracked_snoc tr e : tracked (tr ++ [e]) = pipeline_step (tracked tr) e.
Proof. unfold tracked. now rewrite fold_left_app. Qed.

Lemma Inv_WF c : Inv c -> WF c.
Proof. intros H. eexists. exact H. Qed.

Lemma trace_log e c : trace (log e c) = (trace c ++ [e])%list.
Proof. reflexivity. Qed.

Ltac break_match :=
  match goal with
  | |- context [match ?x with _ => _ end] => destruct x eqn:?
  end.

(** ** Sequencing *)

Lemma bind_exec {B} f (k : unit -> M B) c : bind (exec f) k c = k tt (f c).
Proof. reflexivity. Qed.

Lemma bind_invoke {B} fnNode params (k : Message -> M B) c :
  bind (invoke fnNode params) k c
  = k (InvocationRequest (requestedPath fnNode) (invocationCounter c) params)
      (set_invocationCounter (S (invocationCounter c)) c).
Proof. reflexivity. Qed.

(** What holds after [m] holds after [m ;; k] when [k] keeps it; a throw of
    [m] leaves the object as [m] left it. *)
Lemma after_bind {A B} (Q P : EmberClient -> Prop) (m : M A) (k : A -> M B) c :
  Q (fst (m c)) ->
  (forall x, Q x -> P x) ->
  (forall a x, Q x -> P (fst (k a x))) ->
  P (fst (bind m k c)).
Proof.
  intros Hm Hthrow Hk. unfold bind.
  destruct (m c) as [c1 [a|e]]; cbn [fst] in *; auto.
Qed.

Lemma after_try_catch {A} (Q P : EmberClient -> Prop) (m : M A) (h : Exn -> M A) c :
  Q (fst (m c)) ->
  (forall x, Q x -> P x) ->
  (forall e x, Q x -> P (fst (h e x))) ->
  P (fst (try_catch m h c)).
Proof.
  intros Hm Hret Hh. unfold try_catch.
  destruct (m c) as [c1 [a|e]]; cbn [fst] in *; auto.
Qed.

(** ** Field lemmas *)

Lemma pending_settle p s c : _pendingRequests (settle p s c) = _pendingRequests c.
Proof. unfold settle. now destruct (promiseState p c). Qed.

Lemma pending_clearTimeout c : _pendingRequests (_clearTimeout c) = _pendingRequests c.
Proof. unfold _clearTimeout. now destruct (_timeout c). Qed.

Lemma pending_send m c :
  _pendingRequests (fst (sendBERNode m c)) = _pendingRequests c.
Proof. unfold sendBERNode. now destruct (faults c) as [|[e|] rest]. Qed.

Lemma trace_settle p s c : trace (settle p s c) = trace c.
Proof. unfold settle. now destruct (promiseState p c). Qed.

Lemma trace_clearTimeout c : trace (_clearTimeout c) = trace c.
Proof. unfold _clearTimeout. now destruct (_timeout c). Qed.

Lemma requestID_clearTimeout c : _requestID (_clearTimeout c) = _requestID c.
Proof. unfold _clearTimeout. now destruct (_timeout c). Qed.

Lemma promiseState_same p c c' :
  promises c' = promises c -> promiseState p c' = promiseState p c.
Proof. intros E. unfold promiseState. now rewrite E. Qed.

(** The object left by the first three statements of [_finishRequest], and
    the object when [_makeRequest] reaches [this._activeRequest.func()]
    (source lines 124-131). *)
Definition released (c : EmberClient) : EmberClient :=
  log Finished (set_activeRequest None (_clearTimeout c)).

Definition started (req : REQUEST) (rest : list REQUEST) (c : EmberClient)
  : EmberClient :=
  set_timeout (Some (nextTimer c))
    (snd (setTimeout
            (log (Started (_requestID c))
               (set_requestID (S (_requestID c))
                  (set_activeRequest
                     (Some (mkRequest (node req) (func req)
                              (Some (EmberTimeoutError (_requestID c)
                                       (requestedPath (node req))))))
                     (set_pendingRequests rest c)))))).

Lemma activate_started finish req rest c :
  activate finish req rest c = callFunc finish (func req) ErrUndefined (started req rest c).
Proof. reflexivity. Qed.

Lemma pending_released c : _pendingRequests (released c) = _pendingRequests c.
Proof. apply pending_clearTimeout. Qed.

Lemma trace_released c : trace (released c) = (trace c ++ [Finished])%list.
Proof. unfold released. rewrite trace_log. f_equal. apply trace_clearTimeout. Qed.

(** [_finishRequest] in terms of the two objects. *)
Lemma _finishRequest_upto_S depth c :
  _finishRequest_upto (S depth) c
  = match _pendingRequests c with
    | req :: rest =>
        try_catch
          (callFunc (_finishRequest_upto depth) (func req) ErrUndefined)
          (fun e =>
             (fun c1 =>
                match _callback c1 with
                | Some cb => callCallback (_finishRequest_upto depth) cb (Err e) Undefined c1
                | None => (c1, Normal tt)
                end) ;;
             emitError e)
          (started req rest (released c))
    | [] => (released c, Normal tt)
    end.
Proof.
  change (_finishRequest_upto (S depth) c)
    with (match _pendingRequests (released c) with
          | req :: rest =>
              try_catch
                (activate (_finishRequest_upto depth) req rest)
                (fun e =>
                   (fun c1 =>
                      match _callback c1 with
                      | Some cb =>
                          callCallback (_finishRequest_upto depth) cb (Err e) Undefined c1
                      | None => (c1, Normal tt)
                      end) ;;
                   emitError e)
                (released c)
          | [] => (released c, Normal tt)
          end).
  rewrite pending_released.
  destruct (_pendingRequests c) as [|req rest]; [reflexivity|].
  unfold try_catch. now rewrite activate_started.
Qed.

Lemma _finishRequest_upto_0 c : _finishRequest_upto 0 c = (released c, Normal tt).
Proof. reflexivity. Qed.

Lemma _finishRequest_empty c :
  _pendingRequests c = [] -> _finishRequest c = (released c, Normal tt).
Proof. intros E. unfold _finishRequest. rewrite E. reflexivity. Qed.

(** ** The merge touches the tree and the emitted events only *)

Definition framed (c c' : EmberClient) : Prop :=
  c' = set_emitted (emitted c') (set_root (root c') c).

Lemma framed_refl c : framed c c.
Proof. now destruct c. Qed.

Lemma framed_trans a b c : framed a b -> framed b c -> framed a c.
Proof. unfold framed. intros H1 H2. rewrite H2. rewrite H1. reflexivity. Qed.

Lemma framed_set_root r c : framed c (set_root r c).
Proof. now destruct c. Qed.

Lemma framed_emit e c : framed c (emit e c).
Proof. now destruct c. Qed.

(** ** Relations that every step of the merge respects *)

Section MergeRespect.

Variable R : EmberClient -> EmberClient -> Prop.

Hypothesis R_refl : forall c, R c c.
Hypothesis R_trans : forall a b c, R a b -> R b c -> R a c.
Hypothesis R_addChildAt : forall loc child c, R c (fst (addChildAt loc child c)).
Hypothesis R_updateAt : forall loc other c, R c (updateAt loc other c).
Hypothesis R_emit : forall e c, R c (emit e c).
Hypothesis R_selfUpdate :
  forall loc c, R c (set_root (modifyAt loc (fun x => update x x) (root c)) c).
Hypothesis R_rootUpdate :
  forall decoded c, R c (set_root (update (root c) decoded) c).

Lemma forEach_respects h final l :
  Forall (fun child => forall c, R c (fst (h child c))) l ->
  forall c, R c (fst (forEach h final l c)).
Proof.
  induction l as [|child rest IH]; intros HF c; cbn [forEach].
  - apply R_refl.
  - inversion HF as [|? ? Hchild Hrest]; subst.
    specialize (Hchild c).
    destruct (h child c) as [c1 [n|e]]; cbn [fst] in *; [|exact Hchild].
    eapply R_trans; [exact Hchild | now apply IH].
Qed.

Lemma attachOrUpdate_respects parent node c :
  R c (fst (attachOrUpdate parent node c)).
Proof.
  unfold attachOrUpdate.
  destruct (getElementByPath _ (root c)); [apply R_updateAt|].
  pose proof (R_addChildAt parent node c) as Hadd.
  destruct (addChildAt parent node c) as [c1 [[]|e]]; exact Hadd.
Qed.

Lemma locate_respects parent node path c :
  R c (fst (locate parent node path c)).
Proof.
  unfold locate.
  destruct (getElementByPath (parent ++ path) (root c)).
  - cbn [fst]. eapply R_trans; [apply R_emit | apply R_updateAt].
  - destruct (Nat.eqb (List.length path) 1).
    + pose proof (R_addChildAt [] node c) as Hadd.
      destruct (addChildAt [] node c) as [c1 [[]|e]]; exact Hadd.
    + destruct (getElementByPath (removelast path) (root c)); [|apply R_refl].
      pose proof (R_addChildAt (removelast path) node c) as Hadd.
      destruct (addChildAt (removelast path) node c) as [c1 [[]|e]]; [|exact Hadd].
      cbn [fst] in *. eapply R_trans; [exact Hadd | apply R_selfUpdate].
Qed.

Lemma handleNode_respects node :
  forall parent c, R c (fst (_handleNode parent node c)).
Proof.
  induction node as [k n p par cs els IH] using TreeFacts.TreeNode_nested_ind.
  intros parent c. cbn [_handleNode].
  set (node := mkTreeNode k n p par cs els).
  pose proof (attachOrUpdate_respects parent node c) as Ha.
  destruct (attachOrUpdate parent node c) as [c1 [node'|e]]; cbn [fst] in Ha;
    [|exact Ha].
  destruct els as [l|].
  - eapply R_trans; [exact Ha|]. apply forEach_respects.
    eapply Forall_impl; [|exact IH]. intros child Hc c0. apply Hc.
  - cbn [fst]. eapply R_trans; [exact Ha | apply R_emit].
Qed.

Lemma handleQualifiedNode_respects node :
  forall parent c, R c (fst (_handleQualifiedNode parent node c)).
Proof.
  induction node as [k n p par cs els IH] using TreeFacts.TreeNode_nested_ind.
  intros parent c. cbn [_handleQualifiedNode].
  destruct p as [path|]; [|apply R_refl].
  set (node := mkTreeNode k n (Some path) par cs els).
  pose proof (locate_respects parent node path c) as Ha.
  destruct (locate parent node path c) as [c1 [[[element node']|]|e]];
    cbn [fst] in Ha; try exact Ha.
  destruct els as [l|]; [|exact Ha].
  eapply R_trans; [exact Ha|]. apply forEach_respects.
  eapply Forall_impl; [|exact IH]. intros child Hc c0.
  destruct (isQualified child); [apply Hc | apply handleNode_respects].
Qed.

Lemma handleElements_respects l :
  forall c, R c (fst (handleElements l c)).
Proof.
  induction l as [|el rest IH]; intros c; cbn [handleElements].
  - apply R_refl.
  - unfold bind.
    assert (He : exists h : TreeNode -> M TreeNode,
               (if isQualified el then _handleQualifiedNode [] el else _handleNode [] el)
               = h el /\ R c (fst (h el c))).
    { destruct (isQualified el).
      - exists (_handleQualifiedNode []). split; [reflexivity|].
        apply handleQualifiedNode_respects.
      - exists (_handleNode []). split; [reflexivity|]. apply handleNode_respects. }
    destruct He as [h [-> He]].
    destruct (h el c) as [c1 [el'|e]]; cbn [fst] in *; [|exact He].
    specialize (IH c1).
    destruct (handleElements rest c1) as [c2 [rest'|e]]; cbn [fst ret] in *;
      eapply R_trans; eassumption.
Qed.

Lemma mergeRoot_respects decoded c : R c (fst (mergeRoot decoded c)).
Proof.
  unfold mergeRoot, bind, exec.
  destruct (elements decoded) as [l|]; [|apply R_rootUpdate].
  pose proof (handleElements_respects l (set_root (update (root c) decoded) c)) as H.
  destruct (handleElements l _) as [c1 [l'|e]]; cbn [fst ret] in *;
    (eapply R_trans; [apply R_rootUpdate | exact H]).
Qed.

End MergeRespect.

Lemma framed_addChildAt loc child c : framed c (fst (addChildAt loc child c)).
Proof.
  unfold addChildAt. repeat break_match; cbn [fst];
    try apply framed_refl; apply framed_set_root.
Qed.

Lemma framed_mergeRoot decoded c : framed c (fst (mergeRoot decoded c)).
Proof.
  apply (mergeRoot_respects framed); intros;
    auto using framed_refl, framed_addChildAt, framed_set_root, framed_emit.
  - eapply framed_trans; eassumption.
  - apply framed_set_root.
Qed.

(** ** Invariants of whole sessions *)

(** Two states with the same slot, timer fields, request counter and
    trace. *)
Definition sameCore (c c' : EmberClient) : Prop :=
  _activeRequest c' = _activeRequest c /\ _timeout c' = _timeout c /\
  _requestID c' = _requestID c /\ timers c' = timers c /\
  nextTimer c' = nextTimer c /\ trace c' = trace c.

Lemma sameCore_refl c : sameCore c c.
Proof. now repeat split. Qed.

Lemma sameCore_trans a b c : sameCore a b -> sameCore b c -> sameCore a c.
Proof.
  unfold sameCore. intros (A1 & A2 & A3 & A4 & A5 & A6) (B1 & B2 & B3 & B4 & B5 & B6).
  repeat split; congruence.
Qed.

Lemma sameCore_settle p s c : sameCore c (settle p s c).
Proof. unfold settle. destruct (promiseState p c); now repeat split. Qed.

Lemma sameCore_framed c c' : framed c c' -> sameCore c c'.
Proof. intros H. rewrite H. now repeat split. Qed.

Lemma sameCore_emitError e c : sameCore c (fst (emitError e c)).
Proof. unfold emitError. destruct (Nat.eqb _ 0); now repeat split. Qed.

Definition isWrite (e : TraceEvent) : bool :=
  match e with
  | Written _ | WriteFailed _ => true
  | _ => false
  end.

Section SessionInvariant.

(** [I] is to hold between the calls of the client; [W] is what is left of
    it while a callback or a request function is about to call
    [_finishRequest]. *)
Variables I W : EmberClient -> Prop.

Hypothesis I_W : forall c, I c -> W c.
Hypothesis I_core : forall c c', sameCore c c' -> I c -> I c'.
Hypothesis W_core : forall c c', sameCore c c' -> W c -> W c'.
Hypothesis I_write :
  forall e c, isWrite e = true -> I c -> _activeRequest c <> None -> I (log e c).
Hypothesis W_clear : forall c, W c -> W (_clearTimeout c).
Hypothesis I_release : forall c, W c -> I (released c).
Hypothesis I_start :
  forall req rest c, I c -> _activeRequest c = None -> I (started req rest c).
Hypothesis I_fire : forall h c, I c -> I (clearTimeout h c).

Definition Finishing (finish : M unit) : Prop :=
  forall c, W c -> I (fst (finish c)).

Lemma I_settle p s c : I c -> I (settle p s c).
Proof. apply I_core, sameCore_settle. Qed.

Lemma I_emitError e c : I c -> I (fst (emitError e c)).
Proof. apply I_core, sameCore_emitError. Qed.

Lemma sendBERNode_I m c :
  I c -> _activeRequest c <> None ->
  I (fst (sendBERNode m c)) /\ _activeRequest (fst (sendBERNode m c)) = _activeRequest c.
Proof.
  intros H Ha. unfold sendBERNode.
  destruct (faults c) as [|[e|] rest]; cbn [fst]; (split; [|reflexivity]).
  - now apply I_write.
  - apply (I_write (WriteFailed m) (set_faults rest c)); auto.
    apply (I_core c); [now repeat split | exact H].
  - apply (I_write (Written m) (set_faults rest c)); auto.
    apply (I_core c); [now repeat split | exact H].
Qed.

Lemma finish_then_settle_I finish p s c :
  Finishing finish -> W c -> I (fst ((finish ;; exec (settle p s)) c)).
Proof.
  intros Hfin Hw. apply (after_bind I I); [apply Hfin, Hw | auto |].
  intros [] x Hx. now apply I_settle.
Qed.

Lemma callFunc_I finish :
  Finishing finish ->
  forall f error c, I c -> _activeRequest c <> None -> I (fst (callFunc finish f error c)).
Proof.
  intros Hfin f error c H Ha.
  assert (Hsend : forall m v, I (fst (sendBERNode m (set_callback v c)))).
  { intros m v. apply sendBERNode_I; [|exact Ha].
    apply (I_core c); [now repeat split | exact H]. }
  assert (Hsub : forall m p s,
             I (fst ((sendBERNode m ;; finish ;; exec (settle p s)) c))).
  { intros m p s. apply (after_bind I I); [now apply sendBERNode_I | auto |].
    intros [] x Hx. apply finish_then_settle_I; auto. }
  destruct f; cbn [callFunc]; destruct (truthy error);
    try (apply finish_then_settle_I; auto);
    try (rewrite bind_exec; apply Hsend);
    try apply Hsub.
  - rewrite bind_exec. apply Hfin, (W_core c); [apply sameCore_settle | apply I_W, H].
  - rewrite bind_exec, bind_invoke. apply sendBERNode_I; [|exact Ha].
    apply (I_core c); [now repeat split | exact H].
  - cbn [exec fst]. now apply I_settle.
  - cbn [exec fst]. now apply I_settle.
Qed.

Lemma callWith_I finish cc :
  Finishing finish ->
  (forall e c, I c -> I (fst (cc e c))) ->
  forall cb error node c, I c -> I (fst (callWith finish cc cb error node c)).
Proof.
  intros Hfin Hcc cb error node c H.
  assert (Hdone : forall p s,
             I (fst ((exec _clearTimeout ;; finish ;; exec (settle p s)) c))).
  { intros p s. rewrite bind_exec. apply finish_then_settle_I; auto. }
  destruct cb; cbn [callWith].
  - unfold run_connectCallback, exec. cbn [fst].
    destruct error; apply I_settle; (apply (I_core c); [now repeat split | exact H]).
  - unfold run_getDirectoryCallback, finishAndResolve, finishAndReject.
    repeat break_match; try apply Hdone; cbn [fst]; auto.
  - unfold run_invokeFunctionCallback. rewrite !bind_exec.
    apply Hfin. destruct (truthy error);
      (apply (W_core (_clearTimeout c)); [apply sameCore_settle | apply W_clear, I_W, H]).
  - unfold run_matrixOperationCallback, finishAndResolve, finishAndReject.
    repeat break_match; try apply Hdone; cbn [fst]; auto.
  - unfold run_setValueCallback. rewrite bind_exec.
    apply (after_bind I I); [apply Hfin, W_clear, I_W, H | auto |].
    intros [] x Hx. cbn [exec fst]. destruct (truthy error); now apply I_settle.
Qed.

Lemma callCallback_I finish :
  Finishing finish ->
  forall cb error node c, I c -> I (fst (callCallback finish cb error node c)).
Proof.
  intros Hfin cb error node c H. unfold callCallback.
  apply callWith_I; auto.
  intros e c0 H0. unfold callCurrentWith.
  destruct (_callback c0) as [cb0|]; [|exact H0].
  apply callWith_I; auto.
Qed.

Lemma _finishRequest_upto_Finishing depth : Finishing (_finishRequest_upto depth).
Proof.
  induction depth as [|depth IH]; intros c Hw.
  - rewrite _finishRequest_upto_0. now apply I_release.
  - rewrite _finishRequest_upto_S.
    destruct (_pendingRequests c) as [|req rest]; [now apply I_release|].
    apply (after_try_catch I I); auto.
    + apply callFunc_I; [exact IH | | discriminate].
      apply I_start; [now apply I_release | reflexivity].
    + intros e x Hx. apply (after_bind I I); auto.
      * destruct (_callback x) as [cb|]; [now apply callCallback_I | exact Hx].
      * intros [] y Hy. now apply I_emitError.
Qed.

Lemma _finishRequest_Finishing : Finishing _finishRequest.
Proof. intros c H. now apply _finishRequest_upto_Finishing. Qed.

Lemma addRequest_I req c : I c -> I (fst (addRequest req c)).
Proof.
  intros H. unfold addRequest. rewrite bind_exec. unfold _makeRequest.
  cbn [_activeRequest _pendingRequests set_pendingRequests].
  assert (Hp : I (set_pendingRequests (_pendingRequests c ++ [req]) c))
    by (apply (I_core c); [now repeat split | exact H]).
  destruct (_activeRequest c) eqn:Ha; [exact Hp|].
  destruct (_pendingRequests c ++ [req])%list as [|r rest] eqn:Eq; [exact Hp|].
  rewrite activate_started.
  apply callFunc_I; [apply _finishRequest_Finishing | | discriminate].
  apply (I_core (started r rest c)); [now repeat split|].
  now apply I_start.
Qed.

Lemma promiseOf_I body c :
  (forall p c, I c -> I (fst (body p c))) -> I c -> I (snd (promiseOf body c)).
Proof.
  intros Hbody H. unfold promiseOf. cbn [newPromise].
  assert (H0 : I (set_promises (promises c) (S (nextPromise c)) c))
    by (apply (I_core c); [now repeat split | exact H]).
  specialize (Hbody (nextPromise c) _ H0).
  destruct (body _ _) as [c1 [[]|e]]; cbn [fst snd] in *; [exact Hbody|].
  apply I_settle, Hbody.
Qed.

Lemma callIfSet_I error node c : I c -> I (fst (callIfSet error node c)).
Proof.
  intros H. unfold callIfSet. destruct (_callback c); [|exact H].
  apply callCallback_I; [apply _finishRequest_Finishing | exact H].
Qed.

Lemma _timeoutRequest_I c : I c -> I (fst (_timeoutRequest c)).
Proof.
  intros H. unfold _timeoutRequest.
  destruct (_activeRequest c) eqn:Ha; [|exact H].
  apply callFunc_I; [apply _finishRequest_Finishing | exact H | now rewrite Ha].
Qed.

Lemma on_emberTree_I decoded c : I c -> I (on_emberTree decoded c).
Proof.
  intros H. unfold on_emberTree.
  apply (after_try_catch I I); auto; [|intros e x Hx; now apply callIfSet_I].
  apply (after_bind I I); auto; [|intros seen x Hx; now apply callIfSet_I].
  destruct decoded as [|t|r].
  - exact H.
  - apply (after_bind I I); auto. unfold _handleRoot.
    apply (after_bind I I); auto.
    + apply (I_core c); [apply sameCore_framed, framed_mergeRoot | exact H].
    + intros r x Hx. apply (after_bind I I); auto. now apply callIfSet_I.
  - rewrite bind_exec. cbn [ret fst].
    apply (I_core c); [now repeat split | exact H].
Qed.

Lemma step_I c i : I c -> I (step c i).
Proof.
  intros H. destruct i; cbn [step].
  - apply promiseOf_I; [|exact H]. intros p c0 H0.
    apply (I_core c0); [now repeat split | exact H0].
  - unfold getDirectory. destruct qnode as [q|].
    + apply promiseOf_I; [intros p c0 H0; apply addRequest_I, H0 | exact H].
    + apply promiseOf_I; [intros p c0 H0; apply addRequest_I, H0 |].
      apply (I_core c); [now repeat split | exact H].
  - apply promiseOf_I; [intros p c0 H0; apply addRequest_I, H0 | exact H].
  - apply promiseOf_I; [|exact H]. intros p c0 H0.
    destruct sources as [srcs|]; [|apply I_settle, H0].
    destruct (validateConnection _ _ _); [apply I_settle, H0 | apply addRequest_I, H0].
  - apply promiseOf_I; [|exact H]. intros p c0 H0.
    destruct (negb _); [apply I_settle, H0 | apply addRequest_I, H0].
  - unfold subscribe. destruct (_ && _).
    + pose proof (promiseOf_I
                    (fun p => addRequest (mkRequest qnode (subscribeFunc qnode p) None)) c
                    (fun p c0 H0 => addRequest_I _ c0 H0) H) as Hp.
      destruct (promiseOf _ c) as [p c1]. exact Hp.
    + apply (I_core c); [now repeat split | exact H].
  - unfold unsubscribe. destruct (_ && _); [|exact H].
    pose proof (promiseOf_I
                  (fun p => addRequest (mkRequest qnode (unsubscribeFunc qnode p) None)) c
                  (fun p c0 H0 => addRequest_I _ c0 H0) H) as Hp.
    destruct (promiseOf _ c) as [p c1]. exact Hp.
  - apply (I_core c); [now repeat split | exact H].
  - apply (I_core c); [now repeat split | exact H].
  - unfold on_connected. apply callIfSet_I.
    apply (I_core c); [now repeat split | exact H].
  - apply (I_core c); [now repeat split | exact H].
  - unfold on_error. apply (after_bind I I); auto; [now apply callIfSet_I|].
    intros [] x Hx. now apply I_emitError.
  - apply on_emberTree_I, H.
  - unfold on_timer. destruct (existsb _ _); [|exact H].
    apply _timeoutRequest_I, I_fire, H.
Qed.

Lemma run_I inputs : forall c, I c -> I (run c inputs).
Proof.
  induction inputs as [|i rest IH]; intros c H; [exact H|].
  apply IH, step_I, H.
Qed.

Lemma reachable_I : (forall faults, I (new faults)) -> forall c, reachable c -> I c.
Proof. intros H0 c [faults [inputs ->]]. apply run_I, H0. Qed.

End SessionInvariant.

(** ** The trace obeys the rules *)

Lemma reachable_Inv c : reachable c -> Inv c.
Proof.
  apply (reachable_I Inv WF).
  - apply Inv_WF.
  - intros c0 c' (Ha & _ & _ & _ & _ & Ht) H. unfold Inv. now rewrite Ha, Ht.
  - intros c0 c' (_ & _ & _ & _ & _ & Ht) [b H]. exists b. now rewrite Ht.
  - intros e c0 He H Ha. unfold Inv in *. rewrite trace_log, tracked_snoc, H.
    change (_activeRequest (log e c0)) with (_activeRequest c0).
    destruct (_activeRequest c0); [|contradiction].
    destruct e; try discriminate; reflexivity.
  - intros c0 [b H]. exists b. now rewrite trace_clearTimeout.
  - intros c0 [b H]. unfold Inv. rewrite trace_released, tracked_snoc, H.
    now destruct b.
  - intros req rest c0 H Ha. unfold Inv in *. rewrite Ha in H.
    unfold started.
    cbn [trace _activeRequest set_timeout setTimeout snd set_timers log set_trace
         set_requestID set_activeRequest set_pendingRequests].
    rewrite tracked_snoc, H. reflexivity.
  - intros h c0 H. exact H.
  - intros faults. reflexivity.
Qed.

(** ** What a rule-abiding trace looks like *)

Lemma fold_pipeline_None tr : fold_left pipeline_step tr None = None.
Proof. induction tr as [|e tr IH]; [reflexivity | exact IH]. Qed.

Lemma tracked_prefix pre post b :
  tracked (pre ++ post) = Some b -> exists b', tracked pre = Some b'.
Proof.
  unfold tracked. rewrite fold_left_app.
  destruct (fold_left pipeline_step pre (Some false)) as [b'|]; [eauto|].
  now rewrite fold_pipeline_None.
Qed.

Lemma tracked_idle_shape tr :
  tracked tr = Some false -> tr = [] \/ exists tr', tr = (tr' ++ [Finished])%list.
Proof.
  destruct tr as [|e0 tr0] using rev_ind; [now left|].
  rewrite tracked_snoc. intros H. right. exists tr0.
  destruct (tracked tr0) as [[|]|]; destruct e0; simpl in H; congruence.
Qed.

Lemma tracked_busy_shape tr :
  tracked tr = Some true ->
  exists tr' e, tr = (tr' ++ [e])%list /\ e <> Finished.
Proof.
  destruct tr as [|e0 tr0] using rev_ind; [discriminate|].
  rewrite tracked_snoc. intros H. exists tr0, e0. split; [reflexivity|].
  destruct (tracked tr0) as [[|]|]; destruct e0; simpl in H; congruence.
Qed.

Lemma tracked_before pre e post b :
  tracked (pre ++ e :: post) = Some b ->
  exists b0 b1, tracked pre = Some b0 /\ pipeline_step (Some b0) e = Some b1.
Proof.
  intros H.
  change (pre ++ e :: post)%list with (pre ++ [e] ++ post)%list in H.
  rewrite app_assoc in H.
  apply tracked_prefix in H as [b1 H1].
  rewrite tracked_snoc in H1.
  destruct (tracked pre) as [b0|]; [eauto | discriminate].
Qed.

(** C1: the pipeline holds at most one request.  [addRequest] puts the
    record at the end of the queue and, while a request is active, does
    nothing else; [_makeRequest] does nothing while [_activeRequest] is set
    or the queue is empty, and otherwise takes the head of the queue into
    the slot, numbers it, arms its timer and calls its function.  In every
    state of every session the trace obeys the rules of [pipeline_step] and
    agrees with [_activeRequest]: a request is started only with the slot
    empty, that is first of all or directly after a [_finishRequest]; and
    every call of the transport's [sendBERNode] directly follows the start
    of a request or another write, never a [_finishRequest]: between the
    completion of one request and the start of the next nothing is sent. *)
Theorem one_request_in_flight (c : EmberClient) (req : REQUEST) :
  reachable c ->
  tracked (trace c) = Some (isSome (_activeRequest c)) /\
  (forall pre id post,
      trace c = (pre ++ Started id :: post)%list ->
      pre = [] \/ exists pre', pre = (pre' ++ [Finished])%list) /\
  (forall pre e post,
      trace c = (pre ++ e :: post)%list -> isWrite e = true ->
      exists pre' e', pre = (pre' ++ [e'])%list /\ e' <> Finished) /\
  (_activeRequest c = None <->
   trace c = [] \/ exists tr, trace c = (tr ++ [Finished])%list) /\
  (_activeRequest c <> None ->
   addRequest req c
   = (set_pendingRequests (_pendingRequests c ++ [req]) c, Normal tt)) /\
  (_activeRequest c = None ->
   forall r rest,
     (_pendingRequests c ++ [req])%list = r :: rest ->
     addRequest req c
     = callFunc _finishRequest (func r) ErrUndefined (started r rest c)) /\
  (_activeRequest c <> None \/ _pendingRequests c = [] ->
   _makeRequest c = (c, Normal tt)) /\
  (_activeRequest c = None ->
   forall r rest,
     _pendingRequests c = r :: rest ->
     _makeRequest c
     = callFunc _finishRequest (func r) ErrUndefined (started r rest c)).
Proof.
  intros Hr. pose proof (reachable_Inv c Hr) as H. unfold Inv in H.
  split; [exact H|]. split; [|split; [|split; [|split; [|split; [|split]]]]].
  - intros pre id post E. rewrite E in H.
    apply tracked_before in H as [b0 [b1 [Hpre Hstep]]].
    apply tracked_idle_shape. destruct b0; [discriminate | exact Hpre].
  - intros pre e post E Hw. rewrite E in H.
    apply tracked_before in H as [b0 [b1 [Hpre Hstep]]].
    apply tracked_busy_shape.
    destruct b0; [exact Hpre | destruct e; discriminate].
  - split.
    + intros Ha. rewrite Ha in H. now apply tracked_idle_shape.
    + intros [E|[tr E]]; rewrite E in H.
      * destruct (_activeRequest c); [discriminate | reflexivity].
      * rewrite tracked_snoc in H.
        destruct (tracked tr) as [[|]|]; destruct (_activeRequest c);
          simpl in H; congruence.
  - intros Ha. unfold addRequest. rewrite bind_exec. unfold _makeRequest.
    cbn [_activeRequest set_pendingRequests].
    destruct (_activeRequest c); [reflexivity | contradiction].
  - intros Ha r rest E. unfold addRequest. rewrite bind_exec. unfold _makeRequest.
    cbn [_activeRequest _pendingRequests set_pendingRequests].
    rewrite Ha, E. rewrite activate_started. reflexivity.
  - intros [Ha|Hq]; unfold _makeRequest.
    + destruct (_activeRequest c); [reflexivity | contradiction].
    + rewrite Hq. now destruct (_activeRequest c).
  - intros Ha r rest E. unfold _makeRequest. rewrite Ha, E.
    apply activate_started.
Qed.

(** Three calls in a row, then the answer to the first. *)
Definition busySession : EmberClient :=
  run (new [])
    [call_getDirectory (Some (Detached [1%N] (container 1 [])));
     call_setValue (Detached [1%N; 2%N] (parameter 2 0)) (VInteger 5);
     call_subscribe (Detached [3%N] (streamParameter 3 7)) 0;
     ev_in_emberTree (Tree (decodedRoot [container 1 [parameter 2 10]]))].

Lemma one_request_in_flight_witness :
  tracked (trace busySession) = Some (isSome (_activeRequest busySession)).
Proof.
  refine (proj1 (one_request_in_flight busySession
                   (mkRequest TheRoot (getDirectoryFunc TheRoot 9) None) _)).
  exists [], [call_getDirectory (Some (Detached [1%N] (container 1 [])));
              call_setValue (Detached [1%N; 2%N] (parameter 2 0)) (VInteger 5);
              call_subscribe (Detached [3%N] (streamParameter 3 7)) 0;
              ev_in_emberTree (Tree (decodedRoot [container 1 [parameter 2 10]]))].
  reflexivity.
Defined.

(** ** Relations that every step of the pipeline respects *)

Section Respect.

Variable R : EmberClient -> EmberClient -> Prop.

Hypothesis R_refl : forall c, R c c.
Hypothesis R_trans : forall a b c, R a b -> R b c -> R a c.
Hypothesis R_settle : forall p s c, R c (settle p s c).
Hypothesis R_clearTimeout : forall c, R c (_clearTimeout c).
Hypothesis R_set_callback : forall v c, R c (set_callback v c).
Hypothesis R_send : forall m c, R c (fst (sendBERNode m c)).
Hypothesis R_counter : forall v c, R c (set_invocationCounter v c).

Definition Respects (f : M unit) : Prop := forall c, R c (fst (f c)).

Lemma respects_bind {A B} (m : M A) (k : A -> M B) c :
  R c (fst (m c)) -> (forall a x, R x (fst (k a x))) -> R c (fst (bind m k c)).
Proof.
  intros H Hk. unfold bind. destruct (m c) as [c1 [a|e]]; cbn [fst] in *;
    [eapply R_trans; [exact H | apply Hk] | exact H].
Qed.

Lemma respects_try_catch {A} (m : M A) (h : Exn -> M A) c :
  R c (fst (m c)) -> (forall e x, R x (fst (h e x))) -> R c (fst (try_catch m h c)).
Proof.
  intros H Hh. unfold try_catch. destruct (m c) as [c1 [a|e]]; cbn [fst] in *;
    [exact H | eapply R_trans; [exact H | apply Hh]].
Qed.

Ltac respects_steps :=
  repeat (apply respects_bind; [|intros]); cbn [exec invoke fst];
  auto.

Lemma callFunc_respects finish :
  Respects finish ->
  forall f error c, R c (fst (callFunc finish f error c)).
Proof.
  intros Hfin f error c.
  destruct f; cbn [callFunc]; destruct (truthy error); respects_steps.
Qed.

Lemma callWith_respects finish cc :
  Respects finish ->
  (forall e c, R c (fst (cc e c))) ->
  forall cb error node c, R c (fst (callWith finish cc cb error node c)).
Proof.
  intros Hfin Hcc cb error node c.
  destruct cb; cbn [callWith].
  - unfold run_connectCallback, exec. cbn [fst].
    destruct error; (eapply R_trans; [apply R_set_callback | apply R_settle]).
  - unfold run_getDirectoryCallback, finishAndResolve, finishAndReject.
    repeat break_match; respects_steps.
  - unfold run_invokeFunctionCallback. respects_steps.
    destruct (truthy error); auto.
  - unfold run_matrixOperationCallback, finishAndResolve, finishAndReject.
    repeat break_match; respects_steps.
  - unfold run_setValueCallback. respects_steps.
    destruct (truthy error); auto.
Qed.

Lemma callCallback_respects finish :
  Respects finish ->
  forall cb error node c, R c (fst (callCallback finish cb error node c)).
Proof.
  intros Hfin cb error node c. unfold callCallback.
  apply callWith_respects; [exact Hfin|].
  intros e c0. unfold callCurrentWith.
  destruct (_callback c0); [|apply R_refl].
  apply callWith_respects; [exact Hfin|]. intros; apply R_refl.
Qed.

Hypothesis R_emit : forall e c, R c (emit e c).
Hypothesis R_shift :
  forall req rest c, _pendingRequests c = req :: rest -> R c (started req rest c).

Lemma emitError_respects e c : R c (fst (emitError e c)).
Proof. unfold emitError. destruct (Nat.eqb _ 0); cbn [fst]; auto. Qed.

Hypothesis R_release : forall c, R c (released c).

(** What [_finishRequest] does after its first three statements. *)
Lemma _finishRequest_upto_after_release depth :
  Respects (_finishRequest_upto depth) ->
  forall c, R (released c) (fst (_finishRequest_upto (S depth) c)).
Proof.
  intros Hfin c. rewrite _finishRequest_upto_S.
  destruct (_pendingRequests c) as [|req rest] eqn:Eq; [apply R_refl|].
  apply (R_trans _ (started req rest (released c)));
    [apply R_shift; now rewrite pending_released|].
  apply respects_try_catch; [apply callFunc_respects, Hfin|].
  intros e x. apply respects_bind; [|intros; apply emitError_respects].
  destruct (_callback x); [apply callCallback_respects, Hfin | apply R_refl].
Qed.

Lemma _finishRequest_upto_respects depth : Respects (_finishRequest_upto depth).
Proof.
  induction depth as [|depth IH]; intros c.
  - rewrite _finishRequest_upto_0. apply R_release.
  - apply (R_trans c (released c));
      [apply R_release | now apply _finishRequest_upto_after_release].
Qed.

Lemma _finishRequest_after_release c : R (released c) (fst (_finishRequest c)).
Proof.
  unfold _finishRequest. destruct (List.length (_pendingRequests c)).
  - rewrite _finishRequest_upto_0. apply R_refl.
  - apply _finishRequest_upto_after_release, _finishRequest_upto_respects.
Qed.

Lemma _finishRequest_respects : Respects _finishRequest.
Proof. intros c. apply _finishRequest_upto_respects. Qed.

Lemma callIfSet_respects error node c : R c (fst (callIfSet error node c)).
Proof.
  unfold callIfSet. destruct (_callback c); [|apply R_refl].
  apply callCallback_respects, _finishRequest_respects.
Qed.

Lemma _timeoutRequest_respects c : R c (fst (_timeoutRequest c)).
Proof.
  unfold _timeoutRequest. destruct (_activeRequest c); [|apply R_refl].
  apply callFunc_respects, _finishRequest_respects.
Qed.

End Respect.

(** ** The queue only gets shorter while [_finishRequest] runs *)

Definition shrinks (c c' : EmberClient) : Prop :=
  (List.length (_pendingRequests c') <= List.length (_pendingRequests c))%nat.

Lemma shrinks_same c c' : _pendingRequests c' = _pendingRequests c -> shrinks c c'.
Proof. unfold shrinks. intros ->. lia. Qed.

Lemma shrinks_refl c : shrinks c c.
Proof. unfold shrinks. lia. Qed.

Lemma shrinks_started req rest c :
  _pendingRequests c = req :: rest -> shrinks c (started req rest c).
Proof.
  intros E. unfold shrinks, started.
  cbn [_pendingRequests set_timeout setTimeout snd set_timers log set_trace
       set_requestID set_activeRequest set_pendingRequests].
  rewrite E. cbn [List.length]. lia.
Qed.

Lemma shrinks_trans a b c : shrinks a b -> shrinks b c -> shrinks a c.
Proof. unfold shrinks. lia. Qed.

Ltac shrinks_auto :=
  intros;
  first [ apply shrinks_refl
        | eapply shrinks_trans; eassumption
        | apply shrinks_started; assumption
        | apply shrinks_same; reflexivity
        | apply shrinks_same, pending_settle
        | apply shrinks_same, pending_clearTimeout
        | apply shrinks_same, pending_send
        | apply shrinks_same, pending_released ].

Lemma _finishRequest_upto_shrinks depth c :
  shrinks c (fst (_finishRequest_upto depth c)).
Proof. apply (_finishRequest_upto_respects shrinks); shrinks_auto. Qed.

Lemma callFunc_shrinks finish f error c :
  (forall x, shrinks x (fst (finish x))) ->
  shrinks c (fst (callFunc finish f error c)).
Proof.
  intros H. apply (callFunc_respects shrinks); try shrinks_auto.
  intros x. apply H.
Qed.

(** ** The depth given to [_finishRequest] is enough *)

(** Two versions of [_finishRequest] that agree on the objects whose queue
    is not longer than [n]. *)
Definition agreeBelow (n : nat) (f g : M unit) : Prop :=
  forall x, (List.length (_pendingRequests x) <= n)%nat -> f x = g x.

Lemma bind_agree {A B} (m : M A) (k k' : A -> M B) c :
  (forall a, k a (fst (m c)) = k' a (fst (m c))) -> bind m k c = bind m k' c.
Proof. unfold bind. destruct (m c) as [c1 [a|e]]; cbn [fst]; auto. Qed.

Lemma callFunc_agree f g fn error c :
  agreeBelow (List.length (_pendingRequests c)) f g ->
  callFunc f fn error c = callFunc g fn error c.
Proof.
  intros H.
  assert (H0 : f c = g c) by (apply H; lia).
  assert (Hs : forall p s, f (settle p s c) = g (settle p s c))
    by (intros; apply H; rewrite pending_settle; lia).
  assert (Hsend : forall m p s,
             (sendBERNode m ;; f ;; exec (settle p s)) c
             = (sendBERNode m ;; g ;; exec (settle p s)) c).
  { intros m p s. apply bind_agree. intros []. unfold bind.
    rewrite (H (fst (sendBERNode m c))) by (rewrite pending_send; lia).
    reflexivity. }
  destruct fn; cbn [callFunc]; destruct (truthy error);
    try reflexivity; try apply Hsend;
    try (unfold bind; rewrite H0; reflexivity);
    rewrite !bind_exec; apply Hs.
Qed.

Lemma callWith_agree f g cc cc' cb error node c :
  agreeBelow (List.length (_pendingRequests c)) f g ->
  (forall e, cc e c = cc' e c) ->
  callWith f cc cb error node c = callWith g cc' cb error node c.
Proof.
  intros H Hcc.
  assert (Hc : f (_clearTimeout c) = g (_clearTimeout c))
    by (apply H; rewrite pending_clearTimeout; lia).
  assert (Hdone : forall p s,
             (exec _clearTimeout ;; f ;; exec (settle p s)) c
             = (exec _clearTimeout ;; g ;; exec (settle p s)) c).
  { intros p s. rewrite !bind_exec. unfold bind. now rewrite Hc. }
  destruct cb; cbn [callWith].
  - reflexivity.
  - unfold run_getDirectoryCallback, finishAndResolve, finishAndReject.
    repeat break_match; try reflexivity; try apply Hdone; apply Hcc.
  - unfold run_invokeFunctionCallback. rewrite !bind_exec.
    apply H. destruct (truthy error);
      rewrite pending_settle, pending_clearTimeout; lia.
  - unfold run_matrixOperationCallback, finishAndResolve, finishAndReject.
    repeat break_match; try reflexivity; apply Hdone.
  - unfold run_setValueCallback. rewrite !bind_exec. unfold bind. now rewrite Hc.
Qed.

Lemma callCallback_agree f g cb error node c :
  agreeBelow (List.length (_pendingRequests c)) f g ->
  callCallback f cb error node c = callCallback g cb error node c.
Proof.
  intros H. unfold callCallback. apply callWith_agree; [exact H|].
  intros e. unfold callCurrentWith.
  destruct (_callback c); [|reflexivity].
  apply callWith_agree; [exact H | reflexivity].
Qed.

Lemma _finishRequest_upto_agree depth :
  forall depth' c,
    (List.length (_pendingRequests c) <= depth)%nat ->
    (List.length (_pendingRequests c) <= depth')%nat ->
    _finishRequest_upto depth c = _finishRequest_upto depth' c.
Proof.
  induction depth as [|depth IH]; intros depth' c Hd Hd'.
  - destruct (_pendingRequests c) as [|req rest] eqn:Eq; [|cbn in Hd; lia].
    destruct depth'; [reflexivity|].
    now rewrite _finishRequest_upto_0, _finishRequest_upto_S, Eq.
  - destruct depth' as [|depth'].
    + destruct (_pendingRequests c) as [|req rest] eqn:Eq; [|cbn in Hd'; lia].
      now rewrite _finishRequest_upto_0, _finishRequest_upto_S, Eq.
    + rewrite !_finishRequest_upto_S.
      destruct (_pendingRequests c) as [|req rest] eqn:Eq; [reflexivity|].
      cbn [List.length] in Hd, Hd'.
      set (s := started req rest (released c)).
      assert (Hs : _pendingRequests s = rest) by reflexivity.
      assert (Hagree : agreeBelow (List.length rest)
                         (_finishRequest_upto depth) (_finishRequest_upto depth'))
        by (intros x Hx; apply IH; lia).
      unfold try_catch.
      rewrite (callFunc_agree _ _ (func req) ErrUndefined s) with (1 := Hagree)
        by (rewrite Hs; exact Hagree).
      pose proof (callFunc_shrinks (_finishRequest_upto depth') (func req) ErrUndefined s
                    (_finishRequest_upto_shrinks depth')) as Hsh.
      destruct (callFunc (_finishRequest_upto depth') (func req) ErrUndefined s)
        as [c1 [[]|e]]; [reflexivity|].
      cbn [fst] in Hsh. unfold shrinks in Hsh. rewrite Hs in Hsh.
      unfold bind. destruct (_callback c1) as [cb|]; [|reflexivity].
      rewrite (callCallback_agree (_finishRequest_upto depth) (_finishRequest_upto depth'));
        [reflexivity|].
      intros x Hx. apply Hagree. lia.
Qed.

Lemma _finishRequest_upto_enough depth c :
  (List.length (_pendingRequests c) <= depth)%nat ->
  _finishRequest_upto depth c = _finishRequest c.
Proof. intros H. unfold _finishRequest. now apply _finishRequest_upto_agree. Qed.

(** [_finishRequest] satisfies the recursion of the source: the calls of
    [_finishRequest] made by the request function and by the callback are
    calls of the same method. *)
Lemma _finishRequest_unfold c :
  _finishRequest c
  = match _pendingRequests c with
    | req :: rest =>
        try_catch
          (callFunc _finishRequest (func req) ErrUndefined)
          (fun e =>
             (fun c1 =>
                match _callback c1 with
                | Some cb => callCallback _finishRequest cb (Err e) Undefined c1
                | None => (c1, Normal tt)
                end) ;;
             emitError e)
          (started req rest (released c))
    | [] => (released c, Normal tt)
    end.
Proof.
  unfold _finishRequest at 1.
  destruct (_pendingRequests c) as [|req rest] eqn:Eq.
  - rewrite _finishRequest_upto_0. reflexivity.
  - cbn [List.length]. rewrite _finishRequest_upto_S, Eq.
    set (s := started req rest (released c)).
    assert (Hs : _pendingRequests s = rest) by reflexivity.
    assert (Hagree : agreeBelow (List.length rest)
                       (_finishRequest_upto (List.length rest)) _finishRequest)
      by (intros x Hx; now apply _finishRequest_upto_enough).
    unfold try_catch.
    rewrite (callFunc_agree _ _ (func req) ErrUndefined s) with (1 := Hagree)
      by (rewrite Hs; exact Hagree).
    pose proof (callFunc_shrinks _finishRequest (func req) ErrUndefined s
                  (fun x => _finishRequest_upto_shrinks _ x)) as Hsh1.
    destruct (callFunc _finishRequest (func req) ErrUndefined s) as [c1 [[]|e]];
      [reflexivity|].
    cbn [fst] in Hsh1. unfold shrinks in Hsh1. rewrite Hs in Hsh1.
    unfold bind. destruct (_callback c1) as [cb|]; [|reflexivity].
    rewrite (callCallback_agree (_finishRequest_upto (List.length rest)) _finishRequest);
      [reflexivity|].
    intros x Hx. apply Hagree. lia.
Qed.

(** The same as the body of the source (lines 108-120): the three
    statements, then [_makeRequest] in a [try] whose [catch] calls the
    callback and emits the error. *)
Lemma _finishRequest_body c :
  _finishRequest c
  = try_catch _makeRequest
      (fun e =>
         (fun c1 =>
            match _callback c1 with
            | Some cb => callCallback _finishRequest cb (Err e) Undefined c1
            | None => (c1, Normal tt)
            end) ;;
         emitError e)
      (released c).
Proof.
  rewrite _finishRequest_unfold. unfold try_catch, _makeRequest.
  change (_activeRequest (released c)) with (@None REQUEST).
  rewrite pending_released.
  destruct (_pendingRequests c) as [|req rest]; [reflexivity|].
  now rewrite activate_started.
Qed.

(** ** Settled promises stay settled *)

Definition promisesKept (c c' : EmberClient) : Prop :=
  forall p s, promiseState p c = Some s -> promiseState p c' = Some s.

Lemma promisesKept_same c c' : promises c' = promises c -> promisesKept c c'.
Proof. intros E p s. unfold promiseState. now rewrite E. Qed.

Lemma promisesKept_trans a b c : promisesKept a b -> promisesKept b c -> promisesKept a c.
Proof. intros Hab Hbc p s H. auto. Qed.

Lemma promisesKept_settle p s c : promisesKept c (settle p s c).
Proof.
  unfold settle. destruct (promiseState p c) eqn:E; intros p' s' H; [exact H|].
  unfold promiseState in *. cbn [promises set_promises find fst].
  destruct (Nat.eqb p p') eqn:Ep; [|exact H].
  apply Nat.eqb_eq in Ep. subst p'. rewrite E in H. discriminate.
Qed.

Lemma promises_clearTimeout c : promises (_clearTimeout c) = promises c.
Proof. unfold _clearTimeout. now destruct (_timeout c). Qed.

Lemma promises_send m c : promises (fst (sendBERNode m c)) = promises c.
Proof. unfold sendBERNode. now destruct (faults c) as [|[e|] rest]. Qed.

Ltac promisesKept_auto :=
  intros;
  first [ eapply promisesKept_trans; eassumption
        | apply promisesKept_settle
        | apply promisesKept_same; reflexivity
        | apply promisesKept_same, promises_clearTimeout
        | apply promisesKept_same, promises_send ].

Lemma _finishRequest_keeps_promises c : promisesKept c (fst (_finishRequest c)).
Proof. apply (_finishRequest_respects promisesKept); promisesKept_auto. Qed.

Lemma callIfSet_keeps_promises error node c :
  promisesKept c (fst (callIfSet error node c)).
Proof. apply (callIfSet_respects promisesKept); promisesKept_auto. Qed.

(** ** The trace only grows, and [_finishRequest] logs itself first *)

Definition extends (c c' : EmberClient) : Prop :=
  exists more, trace c' = (trace c ++ more)%list.

Lemma extends_same c c' : trace c' = trace c -> extends c c'.
Proof. intros E. exists []. now rewrite app_nil_r. Qed.

Lemma extends_trans a b c : extends a b -> extends b c -> extends a c.
Proof.
  intros [m1 E1] [m2 E2]. exists (m1 ++ m2)%list. now rewrite E2, E1, app_assoc.
Qed.

Lemma extends_send m c : extends c (fst (sendBERNode m c)).
Proof.
  unfold sendBERNode. destruct (faults c) as [|[e|] rest]; cbn [fst];
    eexists; reflexivity.
Qed.

Lemma extends_released c : extends c (released c).
Proof. exists [Finished]. apply trace_released. Qed.

Lemma extends_started req rest c : extends c (started req rest c).
Proof. eexists. reflexivity. Qed.

Ltac extends_auto :=
  intros;
  first [ eapply extends_trans; eassumption
        | apply extends_same; reflexivity
        | apply extends_same, trace_settle
        | apply extends_same, trace_clearTimeout
        | apply extends_send
        | apply extends_released
        | apply extends_started ].

Lemma _finishRequest_extends c : extends c (fst (_finishRequest c)).
Proof. apply (_finishRequest_respects extends); extends_auto. Qed.

Lemma callIfSet_extends error node c : extends c (fst (callIfSet error node c)).
Proof. apply (callIfSet_respects extends); extends_auto. Qed.

Lemma _finishRequest_logs c :
  exists more, trace (fst (_finishRequest c)) = (trace c ++ Finished :: more)%list.
Proof.
  assert (H : extends (released c) (fst (_finishRequest c)))
    by (apply (_finishRequest_after_release extends); extends_auto).
  destruct H as [more E]. exists more.
  rewrite E, trace_released, <- app_assoc. reflexivity.
Qed.

(** ** Timeouts *)

(** A transport that throws on the first write; a stream parameter is
    subscribed to, then a directory is asked for. *)
Definition jammed : EmberClient :=
  run (new [Some (TransportFault 1)])
    [call_subscribe (Detached [3%N] (streamParameter 3 7)) 0;
     call_getDirectory (Some (Detached [1%N] (container 1 [])))].

(** C5, at the input where the code departs from it: the [subscribe]
    request whose write threw stays in the slot with its timer running; when
    the timer goes off the closure only rejects, [_finishRequest] is not
    called, the slot is not released, the queued [getDirectory] is not
    issued and no timer is left to try again. *)
Theorem subscribe_timeout_keeps_the_slot :
  timers jammed = [0%nat] /\
  option_map func (_activeRequest jammed)
  = Some (subscribeFunc (Detached [3%N] (streamParameter 3 7)) 0) /\
  map func (_pendingRequests jammed)
  = [getDirectoryFunc (Detached [1%N] (container 1 [])) 1] /\
  _activeRequest (step jammed (ev_in_timer 0)) = _activeRequest jammed /\
  _pendingRequests (step jammed (ev_in_timer 0)) = _pendingRequests jammed /\
  trace (step jammed (ev_in_timer 0)) = trace jammed /\
  trace jammed = [Started 0%nat; WriteFailed (SubscribeCommand "3")] /\
  timers (step jammed (ev_in_timer 0)) = [].
Proof. vm_compute. repeat split. Qed.

(** The same session with a [getDirectory] in the place of the
    [subscribe]: the timeout releases the slot and the next request goes
    out. *)
Lemma getDirectory_timeout_releases_the_slot :
  let c := run (new [Some (TransportFault 1)])
             [call_getDirectory (Some (Detached [3%N] (container 3 [])));
              call_getDirectory (Some (Detached [1%N] (container 1 [])));
              ev_in_timer 0] in
  option_map func (_activeRequest c)
  = Some (getDirectoryFunc (Detached [1%N] (container 1 [])) 1) /\
  _pendingRequests c = [] /\
  trace c = [Started 0%nat; WriteFailed (GetDirectoryCommand "3"); Finished;
             Started 1%nat; Written (GetDirectoryCommand "1")].
Proof. vm_compute. repeat split. Qed.

(** The four closures that wait for an answer call [_finishRequest] when
    they are called with the timeout error; the two of the subscriptions do
    not. *)
Lemma waiting_request_times_out c req e :
  _activeRequest c = Some req ->
  timeoutError req = Some e ->
  match func req with
  | getDirectoryFunc _ p | matrixOperationFunc _ _ _ _ p | setValueFunc _ _ p =>
      _timeoutRequest c = (_finishRequest ;; exec (settle p (Rejected (Err e)))) c
  | invokeFunctionFunc _ _ p =>
      _timeoutRequest c = (exec (settle p (Rejected (Err e))) ;; _finishRequest) c
  | subscribeFunc _ p | unsubscribeFunc _ p =>
      _timeoutRequest c = exec (settle p (Rejected (Err e))) c
  end.
Proof.
  intros Ha He. unfold _timeoutRequest. rewrite Ha, He.
  destruct (func req); reflexivity.
Qed.

(** ** Invocations *)

(** Two invocations in a row; the results come back in the other order. *)
Definition crossedResults : EmberClient :=
  run (new [])
    [call_invokeFunction (Detached [4%N] (functionNode 4)) [VInteger 1];
     call_invokeFunction (Detached [4%N] (functionNode 4)) [VInteger 2];
     ev_in_emberTree (Invocation (mkInvocationResult 1 true [VInteger 20]));
     ev_in_emberTree (Invocation (mkInvocationResult 0 true [VInteger 10]))].

(** C7 fails here: the first call went out with invocation-id 0 and its
    waiter gets the result that carries id 1; the second call went out with
    id 1 and gets the result that carries id 0. *)
Lemma results_not_matched_by_id :
  trace crossedResults
  = [Started 0%nat; Written (InvocationRequest "4" 0 [VInteger 1]); Finished;
     Started 1%nat; Written (InvocationRequest "4" 1 [VInteger 2]); Finished] /\
  promiseState 0 crossedResults
  = Some (Resolved (Invocation (mkInvocationResult 1 true [VInteger 20]))) /\
  promiseState 1 crossedResults
  = Some (Resolved (Invocation (mkInvocationResult 0 true [VInteger 10]))).
Proof. vm_compute. repeat split. Qed.

(** The ['emberTree'] handler on an InvocationResult. *)
Lemma on_emberTree_invocation r c :
  on_emberTree (Invocation r) c
  = fst (try_catch (callIfSet ErrUndefined (Invocation r))
           (fun e => callIfSet (Err e) Undefined)
           (emit (ev_invocationResult r) c)).
Proof. reflexivity. Qed.

(** The callback of [invokeFunction] on what the handler passes it. *)
Lemma callIfSet_invocation p r c :
  _callback c = Some (invokeFunctionCallback p) ->
  callIfSet ErrUndefined (Invocation r) c
  = _finishRequest (settle p (Resolved (Invocation r)) (_clearTimeout c)).
Proof. intros Hcb. unfold callIfSet. rewrite Hcb. reflexivity. Qed.

(** A call made while a request is active only appends its record. *)
Lemma addRequest_busy req a c :
  _activeRequest c = Some a ->
  addRequest req c = (set_pendingRequests (_pendingRequests c ++ [req]) c, Normal tt).
Proof.
  intros Ha. unfold addRequest. rewrite bind_exec. unfold _makeRequest.
  cbn [_activeRequest set_pendingRequests]. now rewrite Ha.
Qed.

(** C7, amended: invocations are not matched by invocation-id.  While the
    callback of an [invokeFunction] call is installed and its waiter is
    still pending, the next InvocationResult that arrives resolves that
    waiter, whatever invocation-id the result carries, and [_finishRequest]
    is called: the trace goes on with [Finished], and when that call returns
    the handler is done.  A waiter that is settled already stays as it is.
    A further [invokeFunction] call made meanwhile, while a request is
    active, writes nothing and takes no invocation-id: its record is only
    put at the end of the queue. *)
Theorem invocation_takes_the_next_result
    (c : EmberClient) (p : nat) (r : InvocationResult) :
  _callback c = Some (invokeFunctionCallback p) ->
  (promiseState p c = None ->
   promiseState p (on_emberTree (Invocation r) c) = Some (Resolved (Invocation r))) /\
  (forall s, promiseState p c = Some s ->
             promiseState p (on_emberTree (Invocation r) c) = Some s) /\
  (exists more,
      trace (on_emberTree (Invocation r) c) = (trace c ++ Finished :: more)%list) /\
  (forall c',
      _finishRequest
        (settle p (Resolved (Invocation r))
           (_clearTimeout (emit (ev_invocationResult r) c)))
      = (c', Normal tt) ->
      on_emberTree (Invocation r) c = c') /\
  (forall fnNode params a,
      _activeRequest c = Some a ->
      invokeFunction fnNode params c
      = (nextPromise c,
         set_pendingRequests
           (_pendingRequests c
            ++ [mkRequest fnNode (invokeFunctionFunc fnNode params (nextPromise c)) None])
           (snd (newPromise c))) /\
      trace (snd (invokeFunction fnNode params c)) = trace c /\
      invocationCounter (snd (invokeFunction fnNode params c)) = invocationCounter c).
Proof.
  intros Hcb.
  set (c0 := emit (ev_invocationResult r) c).
  set (x := settle p (Resolved (Invocation r)) (_clearTimeout c0)).
  assert (Hon : on_emberTree (Invocation r) c
                = fst (match _finishRequest x with
                       | (c1, Normal a) => (c1, Normal a)
                       | (c1, Throw e) => callIfSet (Err e) Undefined c1
                       end)).
  { rewrite on_emberTree_invocation. fold c0. unfold try_catch.
    rewrite (callIfSet_invocation p r c0) by exact Hcb. reflexivity. }
  assert (Hkept : promisesKept x (on_emberTree (Invocation r) c)).
  { rewrite Hon. pose proof (_finishRequest_keeps_promises x) as H1.
    destruct (_finishRequest x) as [c1 [[]|e]]; cbn [fst] in *; [exact H1|].
    eapply promisesKept_trans; [exact H1 | apply callIfSet_keeps_promises]. }
  assert (Hp0 : promiseState p (_clearTimeout c0) = promiseState p c)
    by (apply promiseState_same; rewrite promises_clearTimeout; reflexivity).
  split; [|split; [|split; [|split]]].
  - intros Hp. apply Hkept. unfold x.
    apply FacadeFacts.promiseState_settle_fresh. now rewrite Hp0.
  - intros s Hs. apply Hkept. unfold x.
    apply promisesKept_settle. now rewrite Hp0.
  - rewrite Hon. destruct (_finishRequest_logs x) as [more E].
    assert (Hx : trace x = trace c)
      by (unfold x; rewrite trace_settle, trace_clearTimeout; reflexivity).
    rewrite Hx in E.
    pose proof (callIfSet_extends) as Hext.
    destruct (_finishRequest x) as [c1 [[]|e]]; cbn [fst] in *; [eauto|].
    destruct (Hext (Err e) Undefined c1) as [more' E'].
    exists (more ++ more')%list. rewrite E', E, <- app_assoc. reflexivity.
  - intros c' E. rewrite Hon. fold c0 in E. fold x in E. now rewrite E.
  - intros fnNode params a Ha.
    assert (E : invokeFunction fnNode params c
                = (nextPromise c,
                   set_pendingRequests
                     (_pendingRequests c
                      ++ [mkRequest fnNode
                            (invokeFunctionFunc fnNode params (nextPromise c)) None])
                     (snd (newPromise c)))).
    { unfold invokeFunction, promiseOf. cbn [newPromise snd].
      rewrite (addRequest_busy _ a) by exact Ha. reflexivity. }
    split; [exact E|]. rewrite E. split; reflexivity.
Qed.

(** The first of the two invocations above, waiting, and a result that
    carries another id. *)
Lemma invocation_takes_the_next_result_witness :
  promiseState 0
    (on_emberTree (Invocation (mkInvocationResult 1 true [VInteger 20]))
       (run (new [])
          [call_invokeFunction (Detached [4%N] (functionNode 4)) [VInteger 1]]))
  = Some (Resolved (Invocation (mkInvocationResult 1 true [VInteger 20]))).
Proof.
  refine (proj1 (invocation_takes_the_next_result
                   (run (new [])
                      [call_invokeFunction (Detached [4%N] (functionNode 4)) [VInteger 1]])
                   0 (mkInvocationResult 1 true [VInteger 20]) _) _);
    reflexivity.
Defined.

(** ** With an ['error'] listener [_finishRequest] returns *)

Definition sameListeners (c c' : EmberClient) : Prop :=
  errorListeners c' = errorListeners c.

Lemma listeners_settle p s c : errorListeners (settle p s c) = errorListeners c.
Proof. unfold settle. now destruct (promiseState p c). Qed.

Lemma listeners_clearTimeout c : errorListeners (_clearTimeout c) = errorListeners c.
Proof. unfold _clearTimeout. now destruct (_timeout c). Qed.

Lemma listeners_send m c : errorListeners (fst (sendBERNode m c)) = errorListeners c.
Proof. unfold sendBERNode. now destruct (faults c) as [|[e|] rest]. Qed.

Lemma listeners_released c : errorListeners (released c) = errorListeners c.
Proof. apply listeners_clearTimeout. Qed.

Ltac sameListeners_auto :=
  intros; unfold sameListeners in *;
  first [ congruence
        | apply listeners_settle
        | apply listeners_clearTimeout
        | apply listeners_send
        | apply listeners_released
        | reflexivity ].

Lemma _finishRequest_upto_sameListeners depth c :
  sameListeners c (fst (_finishRequest_upto depth c)).
Proof. apply (_finishRequest_upto_respects sameListeners); sameListeners_auto. Qed.

(** [finish] returns whenever a listener is registered. *)
Definition Returns (finish : M unit) : Prop :=
  forall c, errorListeners c <> 0%nat -> snd (finish c) = Normal tt.

Lemma returns_then {B} (finish : M unit) (k : unit -> M B) c :
  snd (finish c) = Normal tt -> (finish ;; k tt) c = k tt (fst (finish c)).
Proof. unfold bind. destruct (finish c) as [c1 [[]|e]]; cbn; congruence. Qed.

(** The callbacks called with an error and no node throw only what
    [_finishRequest] throws. *)
Lemma callCallback_returns finish cb e c :
  Returns finish -> errorListeners c <> 0%nat ->
  snd (callCallback finish cb (Err e) Undefined c) = Normal tt.
Proof.
  intros Hfin Hl. unfold callCallback.
  destruct cb; cbn [callWith]; try reflexivity.
  - unfold run_invokeFunctionCallback. rewrite !bind_exec. cbn [truthy].
    apply Hfin. now rewrite listeners_settle, listeners_clearTimeout.
  - unfold run_setValueCallback. rewrite bind_exec.
    rewrite (returns_then finish (fun _ => exec _))
      by (apply Hfin; now rewrite listeners_clearTimeout).
    reflexivity.
Qed.

Lemma _finishRequest_upto_returns depth : Returns (_finishRequest_upto depth).
Proof.
  induction depth as [|depth IH]; intros c Hl; [reflexivity|].
  rewrite _finishRequest_upto_S.
  destruct (_pendingRequests c) as [|req rest]; [reflexivity|].
  set (s := started req rest (released c)).
  assert (Hs : errorListeners s = errorListeners c) by apply listeners_released.
  assert (H1 : sameListeners s
                 (fst (callFunc (_finishRequest_upto depth) (func req) ErrUndefined s))).
  { apply (callFunc_respects sameListeners); try sameListeners_auto.
    intros x. apply _finishRequest_upto_sameListeners. }
  unfold try_catch.
  destruct (callFunc (_finishRequest_upto depth) (func req) ErrUndefined s)
    as [c1 [[]|e]]; [reflexivity|].
  cbn [fst] in H1. unfold sameListeners in H1.
  assert (Hl1 : errorListeners c1 <> 0%nat) by congruence.
  unfold bind.
  assert (H2 : exists c2, (match _callback c1 with
                           | Some cb =>
                               callCallback (_finishRequest_upto depth) cb (Err e) Undefined c1
                           | None => (c1, Normal tt)
                           end) = (c2, Normal tt) /\ errorListeners c2 = errorListeners c1).
  { destruct (_callback c1) as [cb|]; [|eexists; split; reflexivity].
    pose proof (callCallback_returns _ cb e c1 IH Hl1) as Hr.
    assert (Hk : sameListeners c1
                   (fst (callCallback (_finishRequest_upto depth) cb (Err e) Undefined c1))).
    { apply (callCallback_respects sameListeners); try sameListeners_auto.
      intros x. apply _finishRequest_upto_sameListeners. }
    destruct (callCallback _ cb (Err e) Undefined c1) as [c2 r]. cbn [fst snd] in *.
    subst r. now exists c2. }
  destruct H2 as [c2 [-> Hl2]]. unfold emitError.
  destruct (Nat.eqb (errorListeners c2) 0) eqn:E; [|reflexivity].
  apply Nat.eqb_eq in E. congruence.
Qed.

Lemma _finishRequest_returns : Returns _finishRequest.
Proof. intros c Hl. now apply _finishRequest_upto_returns. Qed.
End PipelineFacts.
(* ===================================================================== *)
(** * Merging decoded trees                                               *)
(* ===================================================================== *)

Module MergeFacts.
Import Tree Client Samples.
Local Open Scope client_scope.

(** ** Events and updates *)

(** A stored element is found: [_handleQualifiedNode] emits, then updates;
    the listener sees the tree before the update. *)
Lemma qualified_emits_before_update parent node p c old :
  path node = Some p ->
  getElementByPath (parent ++ p) (root c) = Some old ->
  elements node = None ->
  fst (_handleQualifiedNode parent node c)
  = updateAt (parent ++ p) node (emit (ev_value_change node) c) /\
  emitted (fst (_handleQualifiedNode parent node c))
  = (emitted c ++ [(ev_value_change node, root c)])%list.
Proof.
  destruct node as [k n np par cs els]. cbn [path elements].
  intros -> Hold ->. cbn [_handleQualifiedNode]. unfold locate.
  rewrite Hold. now split.
Qed.

(** A stored element is found: [_handleNode] updates, then emits; the
    listener sees the updated tree. *)
Lemma positional_updates_before_emit parent node c old :
  getElementByPath (parent ++ [getNumber node]) (root c) = Some old ->
  elements node = None ->
  fst (_handleNode parent node c)
  = emit (ev_value_change node) (updateAt (parent ++ [getNumber node]) node c) /\
  emitted (fst (_handleNode parent node c))
  = (emitted c
     ++ [(ev_value_change node,
          modifyAt (parent ++ [getNumber node]) (fun x => update x node) (root c))])%list.
Proof.
  destruct node as [k n np par cs els]. cbn [elements].
  intros Hold ->. cbn [_handleNode]. unfold attachOrUpdate.
  rewrite Hold. now split.
Qed.

(** The local tree after a first answer: node 1 with parameter 1.2 = 10. *)
Definition known : EmberClient :=
  run (new []) [ev_in_emberTree (Tree (decodedRoot [container 1 [parameter 2 10]]))].

(** What the listeners of the events emitted between [c] and [c'] saw at
    path [p]. *)
Definition seenAt (p : Path) (c c' : EmberClient) : list (Event * option Z) :=
  map (fun e => (fst e, integerAt p (snd e)))
      (skipn (List.length (emitted c)) (emitted c')).

(** C6, at the input where the code departs from it: the peer sends
    parameter 1.2 = 99 in qualified form.  The ['value-change'] event is
    emitted while the stored parameter still holds 10; the update comes
    after the emission. *)
Theorem qualified_value_change_precedes_update :
  integerAt [1%N; 2%N] (root known) = Some 10 /\
  integerAt [1%N; 2%N]
    (root (step known
             (ev_in_emberTree (Tree (decodedRoot [qualifiedParameter [1%N; 2%N] 99])))))
  = Some 99 /\
  seenAt [1%N; 2%N] known
    (step known (ev_in_emberTree (Tree (decodedRoot [qualifiedParameter [1%N; 2%N] 99]))))
  = [(ev_value_change (qualifiedParameter [1%N; 2%N] 99), Some 10)].
Proof. vm_compute. repeat split. Qed.

(** The same update in positional form: the listener sees 99. *)
Lemma positional_value_change_follows_update :
  seenAt [1%N; 2%N] known
    (step known (ev_in_emberTree (Tree (decodedRoot [container 1 [parameter 2 99]]))))
  = [(ev_value_change (parameter 2 99), Some 99)].
Proof. vm_compute. repeat split. Qed.

(** ** Where a qualified node ends up *)

Import TreeFacts PipelineFacts.















(** The callbacks and the pipeline leave the tree alone. *)
Definition sameTree (c c' : EmberClient) : Prop := root c' = root c.

Lemma sameTree_trans a b c : sameTree a b -> sameTree b c -> sameTree a c.
Proof. unfold sameTree. congruence. Qed.



(** ** The node that is stored *)













End MergeFacts.
(* ===================================================================== *)
(** * Which decoded root completes a [getDirectory]                       *)
(* ===================================================================== *)

Module MatchFacts.
Import Tree Client Samples TreeFacts PipelineFacts.
Local Open Scope client_scope.

(** The roots that the callback of [getDirectory(qnode)] accepts:
    - for a root target, the local root has children and every element of
      the decoded root has a [Root] for parent;
    - for any other target, the decoded root has an element at the target's
      path; or, for a matrix, its only element is at the target's path; or,
      for another node, each of its elements is at the target's path or one
      number below it. *)
Definition accepts (qnode : NodeRef) (t : TreeNode) (c : EmberClient) : Prop :=
  if isRoot (deref qnode c) then
    (exists x l, getChildren (deref qnode c) = Some (x :: l)) /\
    exists els, getChildren t = Some els /\
                Forall (fun el => _parent el = Some KRoot) els
  else
    resolves (refPath qnode) t \/
    exists els, getChildren t = Some els /\
      if isMatrix (deref qnode c)
      then exists el, els = [el] /\ getPath [] el = refPath qnode
      else Forall (fun el => getPath [] el = refPath qnode \/
                             exists k, getPath [] el = (refPath qnode ++ [k])%list) els.

(** The same test as the callback computes it. *)
Definition acceptsb (qnode : NodeRef) (t : TreeNode) (c : EmberClient) : bool :=
  if isRoot (deref qnode c) then
    match getChildren (deref qnode c) with
    | Some (_ :: _) =>
        match getChildren t with
        | Some els => forallb parentIsRoot els
        | None => false
        end
    | _ => false
    end
  else
    match getElementByPath (refPath qnode) t with
    | Some _ => true
    | None =>
        match getChildren t with
        | Some els => elementsMatch (deref qnode c) (requestedPath qnode) els
        | None => false
        end
    end.

Lemma parentIsRoot_spec el : parentIsRoot el = true <-> _parent el = Some KRoot.
Proof.
  unfold parentIsRoot. destruct (_parent el) as [[]|]; cbn;
    split; congruence.
Qed.

Lemma elementPath_eqb el q :
  String.eqb (elementPath el) (Paths.pathString q) = true <-> getPath [] el = q.
Proof.
  unfold elementPath. rewrite String.eqb_eq.
  split; [apply PathFacts.pathString_inj | now intros ->].
Qed.

Lemma elementsMatch_spec qnode q els :
  q <> [] ->
  (elementsMatch qnode (Paths.pathString q) els = true <->
   if isMatrix qnode
   then exists el, els = [el] /\ getPath [] el = q
   else Forall (fun el => getPath [] el = q \/
                          exists k, getPath [] el = (q ++ [k])%list) els).
Proof.
  intros Hq. unfold elementsMatch. destruct (isMatrix qnode); cbn [negb andb orb].
  - rewrite orb_false_r. destruct els as [|el [|el2 rest]]; cbn.
    + split; [discriminate | intros [el [H _]]; discriminate].
    + rewrite elementPath_eqb. split.
      * intros H. now exists el.
      * intros [el' [E H]]. now inversion E.
    + split; [discriminate | intros [el' [E _]]; discriminate].
  - rewrite forallb_forall, Forall_forall.
    split; intros H el Hin; specialize (H el Hin);
      now apply (isDirectSubPathOf_paths (getPath [] el) q Hq).
Qed.

Lemma acceptsb_spec qnode t c :
  (isRoot (deref qnode c) = false -> refPath qnode <> []) ->
  (acceptsb qnode t c = true <-> accepts qnode t c).
Proof.
  intros Hq. unfold acceptsb, accepts.
  destruct (isRoot (deref qnode c)).
  - destruct (getChildren (deref qnode c)) as [[|x l]|].
    + split; [discriminate | intros [[x [l H]] _]; discriminate].
    + destruct (getChildren t) as [els|].
      * rewrite forallb_forall. split.
        -- intros H. split; [eauto|]. exists els. split; [reflexivity|].
           apply Forall_forall. intros el Hin. apply parentIsRoot_spec. auto.
        -- intros [_ [els' [E H]]]. inversion E; subst els'.
           rewrite Forall_forall in H. intros el Hin. apply parentIsRoot_spec. auto.
      * split; [discriminate | intros [_ [els [E _]]]; discriminate].
    + split; [discriminate | intros [[x [l H]] _]; discriminate].
  - specialize (Hq eq_refl). unfold resolves.
    destruct (getElementByPath (refPath qnode) t) as [found|].
    + split; [intros _; left; discriminate | reflexivity].
    + destruct (getChildren t) as [els|].
      * unfold requestedPath. rewrite (elementsMatch_spec _ _ els Hq). split.
        -- intros H. right. now exists els.
        -- intros [H|[els' [E H]]]; [congruence|]. now inversion E.
      * split; [discriminate|].
        intros [H|[els [E _]]]; [congruence | discriminate].
Qed.

(** What the callback does with a decoded root and no error. *)
Lemma getDirectoryCallback_decides c qnode p t error :
  _callback c = Some (getDirectoryCallback qnode p) ->
  truthy error = false ->
  callCallback _finishRequest (getDirectoryCallback qnode p) error (Tree t) c
  = if acceptsb qnode t c
    then (exec _clearTimeout ;; _finishRequest ;; exec (settle p (Resolved (Tree t)))) c
    else (c, Normal tt).
Proof.
  intros Hcb Herr.
  assert (Hself : forall e, callCurrentWith _finishRequest e c = (c, Normal tt)).
  { intros e. unfold callCurrentWith. rewrite Hcb. reflexivity. }
  unfold callCallback, acceptsb. cbn [callWith].
  unfold run_getDirectoryCallback, finishAndResolve. rewrite Herr.
  destruct (isRoot (deref qnode c)).
  - destruct (getChildren (deref qnode c)) as [[|x l]|]; try apply Hself.
    destruct (getChildren t) as [els|]; [|apply Hself].
    destruct (forallb parentIsRoot els); [reflexivity | apply Hself].
  - destruct (getElementByPath (refPath qnode) t); [reflexivity|].
    destruct (getChildren t) as [els|]; [|reflexivity].
    now destruct (elementsMatch _ _ els).
Qed.

(** C3, amended: the callback of [getDirectory(qnode)], called with a
    decoded root and no error, clears the timer, calls [_finishRequest] and
    then resolves the waiter with that root exactly when the root satisfies
    [accepts]; any other root changes nothing: the request stays active and
    unresolved.  On an accepted root the waiter is resolved when
    [_finishRequest] returns and has left it pending; when [_finishRequest]
    throws, the callback throws the same and does not resolve.
    [_finishRequest] returns when an ['error'] listener is registered or
    nothing is queued; with nothing queued and the waiter pending, the
    waiter is resolved with the root and the slot is empty. *)
Theorem getDirectory_resolves_on_accepted_roots
    (c : EmberClient) (qnode : NodeRef) (p : nat) (t : TreeNode) (error : ErrArg) :
  _callback c = Some (getDirectoryCallback qnode p) ->
  truthy error = false ->
  (isRoot (deref qnode c) = false -> refPath qnode <> []) ->
  (accepts qnode t c ->
   callCallback _finishRequest (getDirectoryCallback qnode p) error (Tree t) c
   = (exec _clearTimeout ;; _finishRequest ;; exec (settle p (Resolved (Tree t)))) c /\
   (forall c1,
       _finishRequest (_clearTimeout c) = (c1, Normal tt) ->
       callCallback _finishRequest (getDirectoryCallback qnode p) error (Tree t) c
       = (settle p (Resolved (Tree t)) c1, Normal tt) /\
       (promiseState p c1 = None ->
        promiseState p (settle p (Resolved (Tree t)) c1) = Some (Resolved (Tree t)))) /\
   (forall c1 e,
       _finishRequest (_clearTimeout c) = (c1, Throw e) ->
       callCallback _finishRequest (getDirectoryCallback qnode p) error (Tree t) c
       = (c1, Throw e)) /\
   (errorListeners c <> 0%nat \/ _pendingRequests c = [] ->
    snd (_finishRequest (_clearTimeout c)) = Normal tt) /\
   (_pendingRequests c = [] -> promiseState p c = None ->
    snd (callCallback _finishRequest (getDirectoryCallback qnode p) error (Tree t) c)
    = Normal tt /\
    promiseState p
      (fst (callCallback _finishRequest (getDirectoryCallback qnode p) error (Tree t) c))
    = Some (Resolved (Tree t)) /\
    _activeRequest
      (fst (callCallback _finishRequest (getDirectoryCallback qnode p) error (Tree t) c))
    = None)) /\
  (~ accepts qnode t c ->
   callCallback _finishRequest (getDirectoryCallback qnode p) error (Tree t) c
   = (c, Normal tt)).
Proof.
  intros Hcb Herr Hq.
  rewrite (getDirectoryCallback_decides c qnode p t error Hcb Herr).
  pose proof (acceptsb_spec qnode t c Hq) as Hspec.
  destruct (acceptsb qnode t c).
  - split; [|intros Hn; elim Hn; now apply Hspec].
    intros _. rewrite bind_exec.
    split; [reflexivity|]. split; [|split; [|split]].
    + intros c1 E. unfold bind. rewrite E. split; [reflexivity|].
      apply FacadeFacts.promiseState_settle_fresh.
    + intros c1 e E. unfold bind. now rewrite E.
    + intros [Hl|Hempty].
      * apply _finishRequest_returns. now rewrite listeners_clearTimeout.
      * rewrite _finishRequest_empty by now rewrite pending_clearTimeout.
        reflexivity.
    + intros Hempty Hp. unfold bind.
      rewrite _finishRequest_empty by now rewrite pending_clearTimeout.
      cbn [exec fst snd]. split; [reflexivity|].
      assert (Hfresh : promiseState p (released (_clearTimeout c)) = None).
      { rewrite <- Hp. apply promiseState_same. unfold released.
        cbn [promises log set_trace set_activeRequest].
        now rewrite !promises_clearTimeout. }
      split; [now apply FacadeFacts.promiseState_settle_fresh|].
      unfold settle. rewrite Hfresh. reflexivity.
  - split; [|reflexivity].
    intros Ha. apply Hspec in Ha. discriminate.
Qed.

(** A directory request for node 1.2 is waiting. *)
Definition awaiting : EmberClient :=
  run (new []) [call_getDirectory (Some (Detached [1%N; 2%N] (container 2 [])))].

(** The peer answers in positional form: node 1, holding node 2, holding
    parameter 3. *)
Definition positionalAnswer : TreeNode :=
  decodedRoot [container 1 [container 2 [parameter 3 5]]].

Lemma getDirectory_resolves_witness :
  promiseState 0
    (fst (callCallback _finishRequest
            (getDirectoryCallback (Detached [1%N; 2%N] (container 2 [])) 0)
            ErrNull (Tree positionalAnswer) awaiting))
  = Some (Resolved (Tree positionalAnswer)).
Proof.
  destruct (getDirectory_resolves_on_accepted_roots awaiting
              (Detached [1%N; 2%N] (container 2 [])) 0 positionalAnswer ErrNull
              eq_refl eq_refl) as [Hyes _].
  - intros _. discriminate.
  - destruct Hyes as (_ & _ & _ & _ & Hp).
    + left. vm_compute. discriminate.
    + apply Hp; reflexivity.
Defined.

(** C3 fails here: the positional answer completes the request although
    its only element, node 1, is neither at the target's path 1.2 nor one
    number below it. *)
Lemma getDirectory_accepts_more_than_direct_children :
  _activeRequest (step awaiting (ev_in_emberTree (Tree positionalAnswer))) = None /\
  (exists r,
      promiseState 0 (step awaiting (ev_in_emberTree (Tree positionalAnswer)))
      = Some (Resolved (Tree r))) /\
  map (getPath []) (children_of positionalAnswer) = [[1%N]] /\
  forallb (fun el => isDirectSubPathOf (elementPath el) "1.2")
          (children_of positionalAnswer) = false.
Proof.
  vm_compute. repeat split. eexists. reflexivity.
Qed.

End MatchFacts.

(* ===================================================================== *)
(** * The walk to a path                                                  *)
(* ===================================================================== *)

Module WalkFacts.
Import Tree Client Samples Walk.

(** The error of [getNodeByPath] is built before [pos] has a value: its
    message names no segment, whatever the path. *)
Lemma pathError_message path :
  pathError path = JsError "Failed path discovery at ".
Proof. reflexivity. Qed.

(** The error of [getNodeByPathnum] names the whole path, whatever the
    position the walk stops at. *)
Lemma pathnumError_message path :
  pathnumError path = JsError ("Failed path discovery at " ++ JsString.join "/" path).
Proof. reflexivity. Qed.

(** A turn throws when no child passes the test and the position is the
    one that was missing at the turn before. *)
Lemma turn_throws found failure path tree st e :
  turn found failure path tree st = Thrown e <->
  e = failure /\
  lastMissingPos st = Z.of_nat (pos st) /\
  match getElementByPath (currentNode st) tree with
  | Some current =>
      match getChildren current with
      | Some l => find (found (nth_error path (pos st))) l = None
      | None => True
      end
  | None => True
  end.
Proof.
  unfold turn.
  destruct (getElementByPath (currentNode st) tree) as [current|].
  - destruct (getChildren current) as [l|].
    + destruct (find _ l) as [n|].
      * destruct (Nat.leb _ _); split; try discriminate; intros (_ & _ & H); discriminate.
      * destruct (lastMissingPos st =? Z.of_nat (pos st)) eqn:E.
        -- apply Z.eqb_eq in E. split; [intros H; inversion H; auto | intros (-> & _); reflexivity].
        -- apply Z.eqb_neq in E. split; [discriminate | intros (_ & H & _); contradiction].
    + destruct (lastMissingPos st =? Z.of_nat (pos st)) eqn:E.
      * apply Z.eqb_eq in E. split; [intros H; inversion H; auto | intros (-> & _); reflexivity].
      * apply Z.eqb_neq in E. split; [discriminate | intros (_ & H & _); contradiction].
  - destruct (lastMissingPos st =? Z.of_nat (pos st)) eqn:E.
    + apply Z.eqb_eq in E. split; [intros H; inversion H; auto | intros (-> & _); reflexivity].
    + apply Z.eqb_neq in E. split; [discriminate | intros (_ & H & _); contradiction].
Qed.

(** The position is marked as missing by a turn that asks for the
    directory, and by no other. *)
Lemma turn_marks found failure path tree st :
  match turn found failure path tree st with
  | AwaitDirectory target next =>
      target = currentNode st /\ pos next = pos st /\
      lastMissingPos next = Z.of_nat (pos st) /\ currentNode next = currentNode st
  | Again next =>
      pos next = S (pos st) /\ lastMissingPos next = lastMissingPos st /\
      (pos next < List.length path)%nat
  | _ => True
  end.
Proof.
  unfold turn.
  destruct (match match getElementByPath (currentNode st) tree with
                  | Some current => getChildren current
                  | None => None
                  end with
            | Some l => find (found (nth_error path (pos st))) l
            | None => None
            end) as [n|].
  - destruct (Nat.leb (List.length path) (S (pos st))) eqn:E; [exact I|].
    apply Nat.leb_gt in E. cbn. auto.
  - destruct (lastMissingPos st =? Z.of_nat (pos st)); [exact I|]. cbn. auto.
Qed.

(** The fuel that [getNodeByPath] and [getNodeByPathnum] give is enough. *)
Lemma getNext_terminates fuel found failure path :
  forall tree answers st,
    (List.length path - pos st + List.length answers < fuel)%nat ->
    getNext fuel found failure path tree answers st <> OutOfFuel.
Proof.
  induction fuel as [|fuel IH]; intros tree answers st Hf; [lia|].
  cbn [getNext].
  pose proof (turn_marks found failure path tree st) as Hm.
  destruct (turn found failure path tree st) as [n|e|next|target next];
    try discriminate.
  - destruct Hm as (Hp & _ & Hlt). apply IH. lia.
  - destruct Hm as (_ & Hp & _). destruct answers as [|[tree'|e] rest];
      try discriminate.
    apply IH. cbn [List.length] in Hf. lia.
Qed.

Lemma getNodeByPath_terminates path tree answers :
  getNodeByPath path tree answers <> OutOfFuel.
Proof. apply getNext_terminates. unfold enough, start. cbn [pos]. lia. Qed.

Lemma getNodeByPathnum_terminates path tree answers :
  getNodeByPathnum path tree answers <> OutOfFuel.
Proof. apply getNext_terminates. unfold enough, start. cbn [pos]. lia. Qed.

Definition identified (k : N) (name : string) (children : option (list TreeNode))
  : TreeNode :=
  mkTreeNode KNode k None None
    (Some (mkContents (Some name) None None None None None)) children.

(** The peer advertises a node [a] (number 1) with one child [x]
    (number 5), and nothing else. *)
Definition advertised : TreeNode :=
  decodedRoot [identified 1 "a" (Some [identified 5 "x" None])].

(** C8, at the input where the code departs from it: the walks to [a/b]
    and to [1.0.2] find the first segment, miss the second twice in a row
    and fail with the path-discovery error; the first unknown segment is
    [a/b], respectively [1.0], but the message of [getNodeByPath] names no
    segment at all and that of [getNodeByPathnum] names the whole path. *)
Theorem path_error_does_not_name_the_missing_segment :
  getNodeByPath (path_string "a/b") advertised [inl advertised]
  = Failed (JsError "Failed path discovery at ") /\
  getNodeByPath (path_string "a") advertised [] = Found (identified 1 "a" (Some [identified 5 "x" None])) /\
  getNodeByPath (path_string "a/b") advertised [] = Pending [1%N] /\
  getNodeByPathnum (path_string "1.0.2") advertised [inl advertised]
  = Failed (JsError "Failed path discovery at 1/0/2") /\
  getNodeByPathnum (path_string "1") advertised []
  = Found (identified 1 "a" (Some [identified 5 "x" None])) /\
  getNodeByPathnum (path_string "1.0.2") advertised [] = Pending [1%N].
Proof. vm_compute. repeat split. Qed.

End WalkFacts.

(* ===================================================================== *)
(** * The StreamDescription round trip                                    *)
(* ===================================================================== *)

Module BerFacts.
Import Ber.

Lemma firstn_exact {A} (a b : list A) : firstn (List.length a) (a ++ b) = a.
Proof. induction a as [|x a IH]; simpl; [now destruct b | now rewrite IH]. Qed.

Lemma skipn_exact {A} (a b : list A) : skipn (List.length a) (a ++ b) = b.
Proof. induction a as [|x a IH]; simpl; [reflexivity | exact IH]. Qed.

Lemma length_be_bytes n : forall z, List.length (be_bytes n z) = n.
Proof.
  induction n as [|n IH]; intros z; [reflexivity|].
  cbn [be_bytes]. rewrite length_app, IH. simpl. lia.
Qed.

Lemma unsigned_snoc l b : unsigned (l ++ [b]) = unsigned l * 256 + b.
Proof. unfold unsigned. now rewrite fold_left_app. Qed.

Lemma unsigned_be_bytes n :
  forall z, unsigned (be_bytes n z) = z mod 2 ^ (8 * Z.of_nat n).
Proof.
  induction n as [|n IH]; intros z.
  - cbn. now rewrite Z.mod_1_r.
  - cbn [be_bytes]. rewrite unsigned_snoc, IH.
    rewrite Z.shiftr_div_pow2 by lia.
    change (Z.land z 255) with (Z.land z (Z.ones 8)).
    rewrite Z.land_ones by lia.
    replace (8 * Z.of_nat (S n)) with (8 + 8 * Z.of_nat n) by lia.
    rewrite Z.pow_add_r by lia.
    rewrite Z.rem_mul_r by lia. lia.
Qed.

Lemma fits_spec n z :
  fits n z = true <-> - 2 ^ (8 * Z.of_nat n - 1) <= z < 2 ^ (8 * Z.of_nat n - 1).
Proof. unfold fits. rewrite andb_true_iff, Z.leb_le, Z.ltb_lt. tauto. Qed.

(** Two's complement read back. *)
Lemma signed_be_bytes n z :
  (1 <= n)%nat -> fits n z = true -> signed (be_bytes n z) = z.
Proof.
  intros Hn Hfit. apply fits_spec in Hfit.
  unfold signed. rewrite length_be_bytes, unsigned_be_bytes.
  set (bits := 8 * Z.of_nat n) in *.
  assert (Hpow : 2 ^ bits = 2 * 2 ^ (bits - 1)).
  { replace bits with (1 + (bits - 1)) at 1 by lia.
    rewrite Z.pow_add_r by lia. reflexivity. }
  assert (Hpos : 0 < 2 ^ (bits - 1)) by (apply Z.pow_pos_nonneg; lia).
  destruct (Z.leb_spec (2 ^ (bits - 1)) (z mod 2 ^ bits)) as [Hhi|Hlo].
  - assert (Hz : z < 0).
    { destruct (Z.lt_ge_cases z 0) as [|Hge]; [assumption|].
      rewrite Z.mod_small in Hhi by lia. lia. }
    rewrite <- (Z.mod_add z 1 (2 ^ bits)) by lia.
    rewrite Z.mod_small by lia. lia.
  - assert (Hz : 0 <= z).
    { destruct (Z.lt_ge_cases z 0) as [Hneg|]; [|assumption].
      rewrite <- (Z.mod_add z 1 (2 ^ bits)) in Hlo by lia.
      rewrite Z.mod_small in Hlo by lia. lia. }
    apply Z.mod_small. lia.
Qed.

Lemma size_from_spec z fuel :
  forall n,
    (exists m, (n <= m <= n + fuel)%nat /\ fits m z = true) ->
    fits (size_from fuel n z) z = true /\
    (n <= size_from fuel n z)%nat /\
    (forall m, (n <= m)%nat -> fits m z = true -> (size_from fuel n z <= m)%nat).
Proof.
  induction fuel as [|fuel IH]; intros n [m [Hm Hfit]]; cbn [size_from].
  - assert (m = n) by lia. subst m. repeat split; auto.
  - destruct (fits n z) eqn:Hn; [repeat split; auto|].
    assert (Hm' : (S n <= m <= S n + fuel)%nat).
    { assert (m <> n) by (intros ->; congruence). lia. }
    destruct (IH (S n) (ex_intro _ m (conj Hm' Hfit))) as (H1 & H2 & H3).
    repeat split; [exact H1 | lia |].
    intros k Hk Hkfit. apply H3; [|exact Hkfit].
    assert (k <> n) by (intros ->; congruence). lia.
Qed.

(** The size chosen for an integer holds it, is at least one and is the
    least such. *)
Lemma intSize_spec z :
  fits (intSize z) z = true /\ (1 <= intSize z)%nat /\
  (forall m, (1 <= m)%nat -> fits m z = true -> (intSize z <= m)%nat).
Proof.
  unfold intSize. apply size_from_spec.
  set (L := Z.log2_up (Z.abs z + 1)).
  assert (HL : 0 <= L) by apply Z.log2_up_nonneg.
  exists (1 + Z.to_nat L)%nat. split; [lia|].
  apply fits_spec.
  assert (Hup : Z.abs z + 1 <= 2 ^ L).
  { destruct (Z.eq_dec (Z.abs z + 1) 1) as [E|E].
    - rewrite E. assert (0 < 2 ^ L) by (apply Z.pow_pos_nonneg; lia). lia.
    - apply Z.log2_up_spec. lia. }
  assert (Hle : 2 ^ L <= 2 ^ (8 * Z.of_nat (1 + Z.to_nat L) - 1))
    by (apply Z.pow_le_mono_r; lia).
  lia.
Qed.

Lemma intSize_int64 z : - 2 ^ 63 <= z < 2 ^ 63 -> (1 <= intSize z <= 8)%nat.
Proof.
  intros H. destruct (intSize_spec z) as (_ & H1 & Hmin). split; [exact H1|].
  apply Hmin; [lia|]. apply fits_spec. exact H.
Qed.

Lemma signed_twosComplement z : signed (twosComplement z) = z.
Proof.
  destruct (intSize_spec z) as (Hfit & H1 & _).
  now apply signed_be_bytes.
Qed.

Lemma length_twosComplement z : List.length (twosComplement z) = intSize z.
Proof. apply length_be_bytes. Qed.

(** ** Headers *)

Lemma encodeLength_short n : (n < 128)%nat -> encodeLength n = [Z.of_nat n].
Proof.
  intros H. unfold encodeLength.
  destruct (Z.ltb_spec (Z.of_nat n) 128); [reflexivity | lia].
Qed.

Lemma readLength_short n rest :
  (n < 128)%nat -> readLength (encodeLength n ++ rest) = Ok (Some n, rest).
Proof.
  intros H. rewrite encodeLength_short by exact H.
  change ([Z.of_nat n] ++ rest)%list with (Z.of_nat n :: rest). cbn [readLength].
  destruct (Z.ltb_spec (Z.of_nat n) 128); [|lia].
  now rewrite Nat2Z.id.
Qed.

(** A tag whose identifier octet reads back as itself. *)
Definition plain (t : Tag) : Prop :=
  forall b, encodeTag t = [b] -> Tag_eqb (decodeTag b) t = true.

Lemma plain_small c k n : (n < 31)%nat -> plain (mkTag c k (Z.of_nat n)).
Proof.
  intros Hn b E. unfold encodeTag in E. cbn [tagClass constructed tagNumber] in E.
  inversion E; subst b; clear E.
  do 31 (destruct n as [|n]; [destruct c, k; reflexivity|]). lia.
Qed.

Lemma plain_tag c k z : 0 <= z < 31 -> plain (mkTag c k z).
Proof.
  intros H. rewrite <- (Z2Nat.id z) by lia. apply plain_small. lia.
Qed.

Lemma readHeader_short t n rest :
  plain t -> (n < 128)%nat ->
  readHeader t (encodeTag t ++ encodeLength n ++ rest) = Ok (Some n, rest).
Proof.
  intros Ht Hn. specialize (Ht _ eq_refl).
  unfold encodeTag in *.
  match goal with
  | |- readHeader t ([?b] ++ ?l) = _ => change ([b] ++ l)%list with (b :: l)%list
  end.
  cbn [readHeader]. rewrite Ht.
  now apply readLength_short.
Qed.

Lemma enterSequence_short t body rest fr :
  plain t -> (List.length body < 128)%nat ->
  enterSequence t
    (mkReader (encodeTag t ++ encodeLength (List.length body) ++ body ++ rest) fr)
  = Ok (mkReader body (DefiniteFrame rest :: fr)).
Proof.
  intros Ht Hn. unfold enterSequence. cbn [input frames].
  rewrite readHeader_short by assumption. cbn [andThen].
  rewrite firstn_exact, skipn_exact.
  destruct (Nat.ltb_spec (List.length (body ++ rest)) (List.length body)) as [H|H];
    [|reflexivity].
  rewrite length_app in H. lia.
Qed.

Lemma readInteger_short t z rest fr :
  plain t -> (intSize z < 128)%nat ->
  readInteger t
    (mkReader (encodeTag t ++ encodeLength (intSize z) ++ twosComplement z ++ rest) fr)
  = Ok (z, mkReader rest fr).
Proof.
  intros Ht Hn. unfold readInteger. cbn [input frames].
  rewrite readHeader_short by assumption. cbn [andThen].
  destruct (intSize_spec z) as (_ & H1 & _).
  destruct (intSize z) as [|k] eqn:Ek; [lia|].
  rewrite <- Ek, <- length_twosComplement, firstn_exact, skipn_exact.
  rewrite signed_twosComplement.
  destruct (Nat.ltb_spec (List.length (twosComplement z ++ rest))
              (List.length (twosComplement z))) as [H|H]; [|reflexivity].
  rewrite length_app in H. lia.
Qed.

(** ** Encoding, then decoding *)

Section RoundTrip.

Variable id : Z.
Variable formatCode : StreamFormat -> Z.
Hypothesis id_small : 0 <= id < 31.
Hypothesis formatCode_inj : forall f g, formatCode f = formatCode g -> f = g.
Hypothesis formatCode_int64 : forall f, - 2 ^ 63 <= formatCode f < 2 ^ 63.

Lemma formatOfCode_formatCode f : formatOfCode formatCode (formatCode f) = Some f.
Proof.
  unfold formatOfCode, allFormats.
  destruct f; cbn [find];
    repeat match goal with
           | |- context [formatCode ?g =? formatCode ?f] =>
               let E := fresh "E" in
               destruct (Z.eqb_spec (formatCode g) (formatCode f)) as [E|E];
               [first [reflexivity | apply formatCode_inj in E; discriminate]
               | try congruence]
           end.
Qed.

(** A value with its universal tag. *)
Definition primitive (t : Tag) (z : Z) : list Z :=
  encodeTag t ++ encodeLength (intSize z) ++ twosComplement z.

(** A field: a context tag around a value. *)
Definition field (n : Z) (t : Tag) (z : Z) : list Z :=
  encodeTag (CONTEXT n) ++ encodeLength (List.length (primitive t z)) ++ primitive t z.

Lemma length_primitive t z :
  - 2 ^ 63 <= z < 2 ^ 63 -> (3 <= List.length (primitive t z) <= 10)%nat.
Proof.
  intros H. apply intSize_int64 in H. unfold primitive.
  rewrite !length_app, length_twosComplement, encodeLength_short by lia.
  cbn [encodeTag List.length]. lia.
Qed.

Lemma length_field n t z :
  - 2 ^ 63 <= z < 2 ^ 63 -> (5 <= List.length (field n t z) <= 12)%nat.
Proof.
  intros H. pose proof (length_primitive t z H). unfold field.
  rewrite !length_app, encodeLength_short by lia.
  cbn [encodeTag List.length]. lia.
Qed.

Lemma encode_buffer sd :
  buffer (encodeStreamDescription id formatCode sd newWriter)
  = (encodeTag (APPLICATION id)
     ++ encodeLength (List.length (field 0 ENUMERATED (formatCode (format sd))
                                   ++ field 1 INTEGER (offset sd)))
     ++ (field 0 ENUMERATED (formatCode (format sd)) ++ field 1 INTEGER (offset sd)))%list.
Proof. reflexivity. Qed.

Lemma enter_field n t z rest fr :
  - 2 ^ 63 <= z < 2 ^ 63 -> 0 <= n < 31 ->
  enterSequence (CONTEXT n) (mkReader (field n t z ++ rest) fr)
  = Ok (mkReader (primitive t z) (DefiniteFrame rest :: fr)).
Proof.
  intros Hz Hn. pose proof (length_primitive t z Hz).
  unfold field. rewrite <- !app_assoc.
  apply enterSequence_short; [apply plain_tag|]; lia.
Qed.

Lemma read_primitive t z fr :
  - 2 ^ 63 <= z < 2 ^ 63 -> plain t ->
  readInteger t (mkReader (primitive t z) fr) = Ok (z, mkReader [] fr).
Proof.
  intros Hz Ht. pose proof (intSize_int64 z Hz).
  unfold primitive. rewrite <- (app_nil_r (twosComplement z)).
  apply readInteger_short; [assumption | lia].
Qed.

Lemma peekTag_field n t z rest fr :
  peekTag (mkReader (field n t z ++ rest) fr)
  = Ok (decodeTag (Z.lor (Z.lor 128 32) (Z.land n 31))).
Proof. reflexivity. Qed.

Lemma readField_format f fields rest fr :
  readField formatCode fields
    (mkReader (field 0 ENUMERATED (formatCode f) ++ rest) fr)
  = Ok ((Some f, snd fields), mkReader rest fr).
Proof.
  unfold readField. rewrite peekTag_field. cbn [andThen].
  change (Tag_eqb (decodeTag (Z.lor (Z.lor 128 32) (Z.land 0 31))) (CONTEXT 0)) with true.
  cbv iota.
  rewrite enter_field by (try apply formatCode_int64; lia). cbn [andThen].
  rewrite read_primitive by (try apply formatCode_int64; apply plain_tag; lia).
  cbn [andThen exitSequence frames input].
  now rewrite formatOfCode_formatCode.
Qed.

Lemma readField_offset o fields rest fr :
  - 2 ^ 63 <= o < 2 ^ 63 ->
  readField formatCode fields (mkReader (field 1 INTEGER o ++ rest) fr)
  = Ok ((fst fields, Some o), mkReader rest fr).
Proof.
  intros Ho. unfold readField. rewrite peekTag_field. cbn [andThen].
  change (Tag_eqb (decodeTag (Z.lor (Z.lor 128 32) (Z.land 1 31))) (CONTEXT 0)) with false.
  change (Tag_eqb (decodeTag (Z.lor (Z.lor 128 32) (Z.land 1 31))) (CONTEXT 1)) with true.
  cbv iota.
  rewrite enter_field by (try assumption; lia). cbn [andThen].
  rewrite read_primitive by (try assumption; apply plain_tag; lia).
  reflexivity.
Qed.

Lemma atEnd_field n t z rest fr :
  atEnd (mkReader (field n t z ++ rest) (DefiniteFrame fr :: nil)) = false.
Proof. reflexivity. Qed.

(** C2: for every StreamDescription whose offset is a 64-bit integer (the
    widest integer of the codec), decoding the bytes that the encoder wrote
    gives the description back, field by field; and when [Int32BE] is sent
    as 4, the description [{format: Int32BE, offset: 42}] is written as the
    application tag, a context-0 tag around the enumerated 4 and a context-1
    tag around the integer 42. *)
Theorem streamDescription_round_trip (sd : StreamDescription) :
  - 2 ^ 63 <= offset sd < 2 ^ 63 ->
  decodeStreamDescription id formatCode
    (newReader (buffer (encodeStreamDescription id formatCode sd newWriter)))
  = Ok sd /\
  (formatCode Int32BE = 4 ->
   buffer (encodeStreamDescription id formatCode (mkStreamDescription Int32BE 42) newWriter)
   = [Z.lor (Z.lor 64 32) (Z.land id 31); 10;
      160; 3; 10; 1; 4;
      161; 3; 2; 1; 42]).
Proof.
  intros Ho. split.
  - rewrite encode_buffer.
    pose proof (length_field 0 ENUMERATED _ (formatCode_int64 (format sd))) as H0.
    pose proof (length_field 1 INTEGER _ Ho) as H1.
    unfold decodeStreamDescription, newReader.
    rewrite <- (app_nil_r (field 0 _ _ ++ field 1 _ _)) at 2.
    rewrite enterSequence_short by (try apply plain_tag; try rewrite length_app; lia).
    cbn [andThen input].
    destruct (List.length (field 0 ENUMERATED (formatCode (format sd))
                           ++ field 1 INTEGER (offset sd))) as [|[|fuel]] eqn:El;
      try (rewrite length_app in El; lia).
    cbn [readFields]. rewrite atEnd_field.
    rewrite readField_format. cbn [andThen snd].
    rewrite <- (app_nil_r (field 1 INTEGER (offset sd))).
    rewrite atEnd_field.
    rewrite readField_offset by assumption. cbn [andThen fst].
    destruct fuel; cbn; now destruct sd.
  - intros H4. rewrite encode_buffer. cbn [format offset]. rewrite H4. reflexivity.
Qed.

End RoundTrip.

(** A table of sample types that sends [Int32BE] as 4, and the tag
    number 12. *)
Definition sampleCodes (f : StreamFormat) : Z :=
  match f with
  | Int8 => 1 | Int16BE => 2 | Int16LE => 3 | Int32BE => 4 | Int32LE => 5
  | Int64BE => 6 | Int64LE => 7 | Float32BE => 8 | Float32LE => 9
  | Float64BE => 10 | Float64LE => 11
  end.

Lemma streamDescription_round_trip_witness :
  decodeStreamDescription 12 sampleCodes
    (newReader (buffer (encodeStreamDescription 12 sampleCodes
                          (mkStreamDescription Int32BE 42) newWriter)))
  = Ok (mkStreamDescription Int32BE 42) /\
  buffer (encodeStreamDescription 12 sampleCodes (mkStreamDescription Int32BE 42) newWriter)
  = [108; 10; 160; 3; 10; 1; 4; 161; 3; 2; 1; 42].
Proof.
  destruct (streamDescription_round_trip 12 sampleCodes) with
    (sd := mkStreamDescription Int32BE 42) as [Hrt Hbytes].
  - lia.
  - intros f g. destruct f, g; cbn; intros E; try reflexivity; discriminate.
  - intros f. destruct f; cbn; lia.
  - cbn. lia.
  - split; [exact Hrt | exact (Hbytes eq_refl)].
Defined.

End BerFacts.


(* ===================================================================== *)
(** * Invariants of whole sessions                                        *)
(* ===================================================================== *)

Module SessionFacts.
Import Tree Client Samples PipelineFacts.
Local Open Scope client_scope.

(** ** Timers *)

(** At most one timer is armed, and [_timeout] holds its handle. *)
Definition oneTimer (c : EmberClient) : Prop :=
  timers c = [] \/ exists h, timers c = [h] /\ _timeout c = Some h.

(** And none is armed while no request is active. *)
Definition timerKept (c : EmberClient) : Prop :=
  oneTimer c /\ (_activeRequest c = None -> timers c = []).

Lemma oneTimer_clearTimeout c : oneTimer c -> timers (_clearTimeout c) = [].
Proof.
  unfold _clearTimeout, oneTimer. intros [E|[h [E Ht]]].
  - destruct (_timeout c); [|exact E]. cbn. now rewrite E.
  - rewrite Ht. cbn. rewrite E. cbn. now rewrite Nat.eqb_refl.
Qed.

Lemma timerKept_fire h c : timerKept c -> timerKept (clearTimeout h c).
Proof.
  intros [[E|[h' [E Ht]]] Hidle]; unfold timerKept, oneTimer; cbn; rewrite E; cbn.
  - now split; [left|].
  - destruct (Nat.eqb h' h); cbn.
    + now split; [left|].
    + split; [right; eauto|]. intros Ha. specialize (Hidle Ha). congruence.
Qed.

Lemma reachable_timerKept c : reachable c -> timerKept c.
Proof.
  apply (reachable_I timerKept oneTimer).
  - intros c0 H. apply H.
  - intros c0 c' (Ha & Ht & _ & Hs & _ & _). unfold timerKept, oneTimer.
    now rewrite Ha, Ht, Hs.
  - intros c0 c' (Ha & Ht & _ & Hs & _ & _). unfold oneTimer. now rewrite Ht, Hs.
  - intros e c0 _ H _. exact H.
  - intros c0 H. left. now apply oneTimer_clearTimeout.
  - intros c0 H. pose proof (oneTimer_clearTimeout c0 H) as E.
    unfold released. split; [left; exact E | intros _; exact E].
  - intros req rest c0 [_ Hidle] Ha. split; [|discriminate].
    right. exists (nextTimer c0). cbn. rewrite (Hidle Ha). now split.
  - apply timerKept_fire.
  - intros faults. split; [now left | reflexivity].
Qed.
(** ** Request numbers *)

Definition startedIds (tr : list TraceEvent) : list nat :=
  flat_map (fun e => match e with Started id => [id] | _ => [] end) tr.

Definition counted (c : EmberClient) : Prop :=
  startedIds (trace c) = seq 0 (_requestID c).

(** The active request carries the timeout error made for it. *)
Definition labelled (c : EmberClient) : Prop :=
  forall a, _activeRequest c = Some a ->
    exists id, _requestID c = S id /\
      timeoutError a = Some (EmberTimeoutError id (requestedPath (node a))).

Lemma startedIds_snoc tr e :
  startedIds (tr ++ [e])
  = (startedIds tr ++ match e with Started id => [id] | _ => [] end)%list.
Proof. unfold startedIds. rewrite flat_map_app. cbn. now rewrite app_nil_r. Qed.

Lemma reachable_numbered c : reachable c -> counted c /\ labelled c.
Proof.
  apply (reachable_I (fun c => counted c /\ labelled c) counted).
  - intros c0 H. apply H.
  - intros c0 c' (Ha & _ & Hr & _ & _ & Htr). unfold counted, labelled.
    now rewrite Ha, Hr, Htr.
  - intros c0 c' (_ & _ & Hr & _ & _ & Htr). unfold counted. now rewrite Hr, Htr.
  - intros e c0 He [Hc Hl] _. split; [|exact Hl].
    unfold counted in *. cbn [trace log set_trace _requestID].
    rewrite startedIds_snoc. destruct e; try discriminate; now rewrite app_nil_r.
  - intros c0 H. unfold counted in *. now rewrite trace_clearTimeout, requestID_clearTimeout.
  - intros c0 H. split; [|intros a Ha; discriminate].
    unfold counted, released in *.
    cbn [trace log set_trace set_activeRequest _requestID].
    rewrite startedIds_snoc, trace_clearTimeout, requestID_clearTimeout.
    now rewrite app_nil_r.
  - intros req rest c0 [Hc _] _. split.
    + unfold counted, started in *.
      cbn [trace _requestID set_timeout setTimeout snd set_timers log set_trace
           set_requestID set_activeRequest set_pendingRequests].
      rewrite startedIds_snoc, Hc. now rewrite seq_S.
    + intros a Ha. cbn in Ha. injection Ha as <-. eexists. split; reflexivity.
  - intros h c0 H. exact H.
  - intros faults. split; [reflexivity | intros a Ha; discriminate].
Qed.

(** ** Requests leave the queue from its head, one after the other *)

(** [c'] has taken requests off the head of [queue]: what is still queued
    is the rest, and the request in the slot, if any, is the last one
    taken. *)
Definition served (queue : list REQUEST) (c' : EmberClient) : Prop :=
  exists pre,
    queue = (pre ++ _pendingRequests c')%list /\
    forall a, _activeRequest c' = Some a ->
      exists pre' r, pre = (pre' ++ [r])%list /\ node a = node r /\ func a = func r.

Definition sameQueue (c c' : EmberClient) : Prop :=
  _pendingRequests c' = _pendingRequests c /\ _activeRequest c' = _activeRequest c.

(** What a closure does to the queue and the slot: nothing, or what
    [_finishRequest] does. *)
Definition kept_or_served (c c' : EmberClient) : Prop :=
  sameQueue c c' \/ served (_pendingRequests c) c'.

Lemma served_same q c c' : sameQueue c c' -> served q c -> served q c'.
Proof. intros [Hp Ha] [pre [E H]]. exists pre. now rewrite Hp, Ha. Qed.

Lemma served_trans q c1 c2 :
  served q c1 -> served (_pendingRequests c1) c2 -> served q c2.
Proof.
  intros [pre1 [E1 _]] [pre2 [E2 H2]]. exists (pre1 ++ pre2)%list. split.
  - now rewrite <- app_assoc, <- E2.
  - intros a Ha. destruct (H2 a Ha) as [pre' [r [-> Hr]]].
    exists (pre1 ++ pre')%list, r. split; [now rewrite app_assoc | exact Hr].
Qed.

Lemma kept_or_served_refl c : kept_or_served c c.
Proof. left. now split. Qed.

Lemma kept_or_served_trans c c1 c2 :
  kept_or_served c c1 -> kept_or_served c1 c2 -> kept_or_served c c2.
Proof.
  intros [[Hp Ha]|H] [[Hp2 Ha2]|H2].
  - left. split; congruence.
  - right. now rewrite <- Hp.
  - right. eapply served_same; [split; eassumption | exact H].
  - right. eapply served_trans; eassumption.
Qed.

Lemma sameQueue_settle p s c : sameQueue c (settle p s c).
Proof. unfold settle. destruct (promiseState p c); now split. Qed.

Lemma sameQueue_clearTimeout c : sameQueue c (_clearTimeout c).
Proof. unfold _clearTimeout. destruct (_timeout c); now split. Qed.

Lemma sameQueue_send m c : sameQueue c (fst (sendBERNode m c)).
Proof. unfold sendBERNode. destruct (faults c) as [|[e|] rest]; now split. Qed.

Lemma sameQueue_emitError e c : sameQueue c (fst (emitError e c)).
Proof. unfold emitError. destruct (Nat.eqb _ 0); now split. Qed.

(** The closures call [_finishRequest] or leave the queue and the slot
    alone: [kept_or_served] is respected by everything they do when
    [_finishRequest] serves. *)
Definition Serves (finish : M unit) : Prop :=
  forall x, served (_pendingRequests x) (fst (finish x)).

Ltac kept_auto :=
  intros;
  first [ apply kept_or_served_refl
        | eapply kept_or_served_trans; eassumption
        | left; apply sameQueue_settle
        | left; apply sameQueue_clearTimeout
        | left; apply sameQueue_send
        | left; split; reflexivity ].

Lemma callFunc_serves finish f error c :
  Serves finish -> kept_or_served c (fst (callFunc finish f error c)).
Proof.
  intros Hfin. apply (callFunc_respects kept_or_served); try kept_auto.
  intros x. right. apply Hfin.
Qed.

Lemma callCallback_serves finish cb error node c :
  Serves finish -> kept_or_served c (fst (callCallback finish cb error node c)).
Proof.
  intros Hfin. apply (callCallback_respects kept_or_served); try kept_auto.
  intros x. right. apply Hfin.
Qed.

(** The same when the head [req] at least has been taken. *)
Definition servedFrom (req : REQUEST) (rest : list REQUEST) (c' : EmberClient) : Prop :=
  exists pre,
    rest = (pre ++ _pendingRequests c')%list /\
    forall a, _activeRequest c' = Some a ->
      exists pre' r, (req :: pre = pre' ++ [r])%list /\ node a = node r /\ func a = func r.

Lemma servedFrom_served req rest c' : servedFrom req rest c' -> served (req :: rest) c'.
Proof.
  intros [pre [E H]]. exists (req :: pre). split; [now rewrite E at 1 | exact H].
Qed.

Lemma served_cons req rest s c1 :
  _pendingRequests s = rest ->
  (exists a, _activeRequest s = Some a /\ node a = node req /\ func a = func req) ->
  kept_or_served s c1 ->
  servedFrom req rest c1.
Proof.
  intros Hp [a0 [Ha0 [Hn Hf]]] [[Hp1 Ha1]|[pre [E H]]].
  - exists []. split; [now rewrite Hp1, Hp|].
    intros a Ha. exists [], req. rewrite Ha1, Ha0 in Ha. injection Ha as <-. auto.
  - exists pre. rewrite Hp in E. split; [exact E|].
    intros a Ha. destruct (H a Ha) as [pre' [r [-> Hr]]].
    exists (req :: pre'), r. auto.
Qed.

Lemma _finishRequest_upto_head depth req rest :
  Serves (_finishRequest_upto depth) ->
  forall c, _pendingRequests c = req :: rest ->
    servedFrom req rest (fst (_finishRequest_upto (S depth) c)).
Proof.
  intros IH c Eq. rewrite _finishRequest_upto_S, Eq.
  set (s := started req rest (released c)).
  assert (Hs : _pendingRequests s = rest) by reflexivity.
  assert (Hslot : exists a, _activeRequest s = Some a /\ node a = node req /\ func a = func req)
    by (eexists; split; [reflexivity | now split]).
  apply (served_cons req rest s _ Hs Hslot).
  apply (after_try_catch (kept_or_served s) (kept_or_served s)); auto.
  - now apply callFunc_serves.
  - intros e x Hx. apply (after_bind (kept_or_served s) (kept_or_served s)); auto.
    + destruct (_callback x) as [cb|]; [|exact Hx].
      eapply kept_or_served_trans; [exact Hx | now apply callCallback_serves].
    + intros [] y Hy. eapply kept_or_served_trans; [exact Hy|].
      left. apply sameQueue_emitError.
Qed.

Lemma served_released c : served (_pendingRequests c) (released c).
Proof.
  exists []. rewrite pending_released. split; [reflexivity|].
  intros a Ha. unfold released in Ha.
  cbn [_activeRequest log set_trace set_activeRequest] in Ha. discriminate.
Qed.

Lemma _finishRequest_upto_serves depth : Serves (_finishRequest_upto depth).
Proof.
  induction depth as [|depth IH]; intros c.
  - rewrite _finishRequest_upto_0. apply served_released.
  - destruct (_pendingRequests c) as [|req rest] eqn:Eq.
    + rewrite _finishRequest_upto_S, Eq. cbn [fst].
      rewrite <- Eq. apply served_released.
    + now apply servedFrom_served, _finishRequest_upto_head.
Qed.

(** ** Sample sessions *)

Definition directoryOf1 : Input :=
  call_getDirectory (Some (Detached [1%N] (container 1 []))).

Definition oneCall : EmberClient := run (new []) [directoryOf1].

(** X1: in every state of every session at most one timer is armed; it is
    the one whose handle [_timeout] holds, and it belongs to an active
    request: no timer is left behind when the pipeline is idle, and a timer
    that goes off always finds [_activeRequest] set. *)
Theorem at_most_one_timer (c : EmberClient) :
  reachable c ->
  (List.length (timers c) <= 1)%nat /\
  (forall h, In h (timers c) -> _timeout c = Some h /\ _activeRequest c <> None).
Proof.
  intros Hr. destruct (reachable_timerKept c Hr) as [[E|[h' [E Ht]]] Hidle].
  - rewrite E. split; [cbn; lia | intros h []].
  - rewrite E. split; [cbn; lia|]. intros h [<-|[]]. split; [exact Ht|].
    intros Ha. specialize (Hidle Ha). congruence.
Qed.

Lemma at_most_one_timer_witness :
  (List.length (timers oneCall) <= 1)%nat /\
  (forall h, In h (timers oneCall) ->
     _timeout oneCall = Some h /\ _activeRequest oneCall <> None).
Proof. apply at_most_one_timer. exists [], [directoryOf1]. reflexivity. Defined.

(** X2: in every state of every session the requests started so far were
    numbered 0, 1, 2, ... in the order they were started, [_requestID] is
    their count, and the active request carries the timeout error made for
    it: the one that names its own number and the path of its node. *)
Theorem requests_numbered_in_order (c : EmberClient) :
  reachable c ->
  startedIds (trace c) = seq 0 (_requestID c) /\
  (forall a, _activeRequest c = Some a ->
     exists id, _requestID c = S id /\
       timeoutError a = Some (EmberTimeoutError id (requestedPath (node a)))).
Proof. intros Hr. exact (reachable_numbered c Hr). Qed.

Lemma requests_numbered_in_order_witness :
  startedIds (trace oneCall) = seq 0 (_requestID oneCall) /\
  (forall a, _activeRequest oneCall = Some a ->
     exists id, _requestID oneCall = S id /\
       timeoutError a = Some (EmberTimeoutError id (requestedPath (node a)))).
Proof. apply requests_numbered_in_order. exists [], [directoryOf1]. reflexivity. Defined.

(** ** When the timer goes off *)

Lemma active_settle p s c : _activeRequest (settle p s c) = _activeRequest c.
Proof. unfold settle. now destruct (promiseState p c). Qed.

Lemma callback_settle p s c : _callback (settle p s c) = _callback c.
Proof. unfold settle. now destruct (promiseState p c). Qed.

Lemma timeout_settle p s c : _timeout (settle p s c) = _timeout c.
Proof. unfold settle. now destruct (promiseState p c). Qed.

Lemma timeout_cleared c : _timeout (_clearTimeout c) = None.
Proof. unfold _clearTimeout. now destruct (_timeout c) eqn:E. Qed.

Lemma callback_clearTimeout c : _callback (_clearTimeout c) = _callback c.
Proof. unfold _clearTimeout. now destruct (_timeout c). Qed.

(** The timer of a reachable state belongs to the active request, and
    [_timeoutRequest] calls that request's function with its timeout
    error. *)
Lemma on_timer_calls c h :
  reachable c -> In h (timers c) ->
  exists a id,
    _activeRequest c = Some a /\ _requestID c = S id /\
    on_timer h c
    = fst (callFunc _finishRequest (func a)
             (Err (EmberTimeoutError id (requestedPath (node a))))
             (clearTimeout h c)).
Proof.
  intros Hr Hin.
  destruct (reachable_timerKept c Hr) as [_ Hidle].
  destruct (_activeRequest c) as [a|] eqn:Ha;
    [|rewrite (Hidle eq_refl) in Hin; destruct Hin].
  destruct (reachable_numbered c Hr) as [_ Hl].
  destruct (Hl a Ha) as [id [Hid Herr]].
  exists a, id. split; [reflexivity|]. split; [exact Hid|].
  unfold on_timer.
  replace (existsb (Nat.eqb h) (timers c)) with true
    by (symmetry; apply existsb_exists; exists h; split;
        [exact Hin | apply Nat.eqb_refl]).
  unfold _timeoutRequest. cbn [_activeRequest clearTimeout set_timers].
  now rewrite Ha, Herr.
Qed.

(** What [_finishRequest ;; reject] leaves, for the three request functions
    that reject last. *)
Lemma finish_then_reject p e x :
  (exists more,
      trace (fst ((_finishRequest ;; exec (settle p (Rejected (Err e)))) x))
      = (trace x ++ Finished :: more)%list) /\
  (forall s, promiseState p x = Some s ->
     promiseState p (fst ((_finishRequest ;; exec (settle p (Rejected (Err e)))) x))
     = Some s) /\
  (forall c1, _finishRequest x = (c1, Normal tt) ->
     fst ((_finishRequest ;; exec (settle p (Rejected (Err e)))) x)
     = settle p (Rejected (Err e)) c1) /\
  (forall c1 e', _finishRequest x = (c1, Throw e') ->
     fst ((_finishRequest ;; exec (settle p (Rejected (Err e)))) x) = c1) /\
  (errorListeners x <> 0%nat \/ _pendingRequests x = [] ->
   snd (_finishRequest x) = Normal tt) /\
  (_pendingRequests x = [] -> promiseState p x = None ->
   promiseState p (fst ((_finishRequest ;; exec (settle p (Rejected (Err e)))) x))
   = Some (Rejected (Err e)) /\
   _activeRequest (fst ((_finishRequest ;; exec (settle p (Rejected (Err e)))) x))
   = None).
Proof.
  split; [|split; [|split; [|split; [|split]]]].
  - destruct (_finishRequest_logs x) as [more E]. exists more.
    unfold bind. destruct (_finishRequest x) as [c1 [[]|e']]; cbn [fst exec] in *;
      [now rewrite trace_settle | exact E].
  - intros s Hs. pose proof (_finishRequest_keeps_promises x p s Hs) as H.
    unfold bind. destruct (_finishRequest x) as [c1 [[]|e']]; cbn [fst exec] in *;
      [now apply promisesKept_settle | exact H].
  - intros c1 E. unfold bind. now rewrite E.
  - intros c1 e' E. unfold bind. now rewrite E.
  - intros [Hl|Hempty]; [now apply _finishRequest_returns|].
    now rewrite _finishRequest_empty.
  - intros Hempty Hp. unfold bind. rewrite _finishRequest_empty by exact Hempty.
    cbn [exec fst].
    assert (Hfresh : promiseState p (released x) = None).
    { rewrite <- Hp. apply promiseState_same. unfold released.
      cbn [promises log set_trace set_activeRequest]. apply promises_clearTimeout. }
    split; [now apply FacadeFacts.promiseState_settle_fresh|].
    now rewrite active_settle.
Qed.

(** X3: in every session a timer that is armed belongs to the active
    request, and when it goes off that request's function is called with
    the timeout error that names the request's number and path.  For a
    [getDirectory], [setValue], matrix or [invokeFunction] request
    [_finishRequest] runs: the trace goes on with [Finished]; a promise that
    is settled already stays as it is.  [invokeFunction] rejects before it
    calls [_finishRequest]: a pending promise is rejected with the timeout
    error.  The other three reject after [_finishRequest]: when that call
    returns, which it does when an ['error'] listener is registered or the
    queue is empty, the rejection is applied to the state it left; when it
    throws, the rejection is skipped; with an empty queue a pending promise
    is rejected with the timeout error and the slot is left empty.
    [subscribe] and [unsubscribe] only reject. *)
Theorem timeout_rejects_and_advances (c : EmberClient) (h : nat) :
  reachable c -> In h (timers c) ->
  exists a id,
    _activeRequest c = Some a /\ _requestID c = S id /\
    let e := EmberTimeoutError id (requestedPath (node a)) in
    match func a with
    | getDirectoryFunc _ p | matrixOperationFunc _ _ _ _ p | setValueFunc _ _ p =>
        (exists more, trace (on_timer h c) = (trace c ++ Finished :: more)%list) /\
        (forall s, promiseState p c = Some s -> promiseState p (on_timer h c) = Some s) /\
        (forall c1,
            _finishRequest (clearTimeout h c) = (c1, Normal tt) ->
            on_timer h c = settle p (Rejected (Err e)) c1) /\
        (forall c1 e',
            _finishRequest (clearTimeout h c) = (c1, Throw e') -> on_timer h c = c1) /\
        (errorListeners c <> 0%nat \/ _pendingRequests c = [] ->
         snd (_finishRequest (clearTimeout h c)) = Normal tt) /\
        (_pendingRequests c = [] -> promiseState p c = None ->
         promiseState p (on_timer h c) = Some (Rejected (Err e)) /\
         _activeRequest (on_timer h c) = None)
    | invokeFunctionFunc _ _ p =>
        (exists more, trace (on_timer h c) = (trace c ++ Finished :: more)%list) /\
        (forall s, promiseState p c = Some s -> promiseState p (on_timer h c) = Some s) /\
        (promiseState p c = None ->
         promiseState p (on_timer h c) = Some (Rejected (Err e))) /\
        on_timer h c
        = fst (_finishRequest (settle p (Rejected (Err e)) (clearTimeout h c)))
    | subscribeFunc _ p | unsubscribeFunc _ p =>
        on_timer h c = settle p (Rejected (Err e)) (clearTimeout h c)
    end.
Proof.
  intros Hr Hin.
  destruct (on_timer_calls c h Hr Hin) as (a & id & Ha & Hid & Hon).
  exists a, id. split; [exact Ha|]. split; [exact Hid|]. cbv zeta.
  rewrite Hon. clear Hon.
  set (e := EmberTimeoutError id (requestedPath (node a))).
  set (x := clearTimeout h c).
  assert (Ht : trace x = trace c) by reflexivity.
  assert (Hp : forall p, promiseState p x = promiseState p c) by reflexivity.
  assert (Hq : _pendingRequests x = _pendingRequests c) by reflexivity.
  assert (Hl : errorListeners x = errorListeners c) by reflexivity.
  destruct (func a); cbn [callFunc truthy].
  - rewrite <- Ht, <- Hq, <- Hl, <- (Hp promise). apply finish_then_reject.
  - rewrite bind_exec. rewrite <- Ht, <- (Hp promise).
    set (y := settle promise (Rejected (Err e)) x).
    split; [|split; [|split]].
    + destruct (_finishRequest_logs y) as [more E]. exists more.
      rewrite E. unfold y. now rewrite trace_settle.
    + intros s Hs. apply _finishRequest_keeps_promises. unfold y.
      now apply promisesKept_settle.
    + intros Hfresh. apply _finishRequest_keeps_promises. unfold y.
      now apply FacadeFacts.promiseState_settle_fresh.
    + reflexivity.
  - rewrite <- Ht, <- Hq, <- Hl, <- (Hp promise). apply finish_then_reject.
  - rewrite <- Ht, <- Hq, <- Hl, <- (Hp promise). apply finish_then_reject.
  - reflexivity.
  - reflexivity.
Qed.

(** The timer of the single call goes off. *)
Lemma timeout_rejects_and_advances_witness :
  exists a id,
    _activeRequest oneCall = Some a /\ _requestID oneCall = S id /\
    match func a with
    | getDirectoryFunc _ p | matrixOperationFunc _ _ _ _ p | setValueFunc _ _ p =>
        _pendingRequests oneCall = [] -> promiseState p oneCall = None ->
        promiseState p (on_timer 0 oneCall)
        = Some (Rejected (Err (EmberTimeoutError id (requestedPath (node a))))) /\
        _activeRequest (on_timer 0 oneCall) = None
    | _ => True
    end.
Proof.
  destruct (timeout_rejects_and_advances oneCall 0) as (a & id & Ha & Hid & H).
  - exists [], [directoryOf1]. reflexivity.
  - vm_compute. left. reflexivity.
  - exists a, id. split; [exact Ha|]. split; [exact Hid|]. cbv zeta in H.
    destruct (func a); try exact Logic.I; apply H.
Defined.

(** X4: [_finishRequest] serves the queue in order.  What is queued
    afterwards is a tail of what was queued before; when the queue was not
    empty at least its head was taken; and the request left in the slot, if
    any, is the last one taken.  Nothing is added and nothing overtakes. *)
Theorem finishRequest_takes_from_the_head (c : EmberClient) :
  exists taken,
    _pendingRequests c = (taken ++ _pendingRequests (fst (_finishRequest c)))%list /\
    (_pendingRequests c <> [] -> taken <> []) /\
    (forall a, _activeRequest (fst (_finishRequest c)) = Some a ->
       exists before r,
         taken = (before ++ [r])%list /\ node a = node r /\ func a = func r).
Proof.
  unfold _finishRequest. destruct (_pendingRequests c) as [|req rest] eqn:Eq.
  - destruct (_finishRequest_upto_serves 0 c) as [pre [E H]].
    rewrite Eq in E. cbn [List.length].
    exists pre. split; [exact E|]. split; [congruence | exact H].
  - cbn [List.length].
    destruct (_finishRequest_upto_head (List.length rest) req rest
                (_finishRequest_upto_serves _) c Eq) as [pre [E H]].
    exists (req :: pre). split; [now rewrite E at 1|]. split; [discriminate | exact H].
Qed.

(** ** Calls while a request is active, and calls on an idle client *)

(** The facade methods that make a request. *)
Definition isRequest (i : Input) : bool :=
  match i with
  | call_getDirectory _ | call_invokeFunction _ _ | call_matrixOPeration _ _ _ _
  | call_setValue _ _ | call_subscribe _ _ | call_unsubscribe _ _ => true
  | _ => false
  end.

(** The record that a call puts in the queue: none when the call is stopped
    by its preflight check or is not awaited; the promise in the record is
    the one that the call returns. *)
Definition queued (i : Input) (c : EmberClient) : list REQUEST :=
  let p := nextPromise c in
  match i with
  | call_getDirectory (Some q) => [mkRequest q (getDirectoryFunc q p) None]
  | call_getDirectory None => [mkRequest TheRoot (getDirectoryFunc TheRoot p) None]
  | call_invokeFunction f ps => [mkRequest f (invokeFunctionFunc f ps p) None]
  | call_matrixOPeration m t (Some srcs) o =>
      match validateConnection (deref m c) t srcs with
      | None => [mkRequest m (matrixOperationFunc m t srcs o p) None]
      | Some _ => []
      end
  | call_setValue n v =>
      if isParameter (deref n c) then [mkRequest n (setValueFunc n v p) None] else []
  | call_subscribe q _ =>
      if (isParameter (deref q c) || isMatrix (deref q c)) && isStream (deref q c)
      then [mkRequest q (subscribeFunc q p) None] else []
  | call_unsubscribe q _ =>
      if isParameter (deref q c) && isStream (deref q c)
      then [mkRequest q (unsubscribeFunc q p) None] else []
  | _ => []
  end.

(** The fields that a call made on a busy client leaves alone. *)
Definition quiet (c c' : EmberClient) : Prop :=
  _activeRequest c' = _activeRequest c /\ trace c' = trace c /\
  timers c' = timers c /\ _timeout c' = _timeout c /\
  _callback c' = _callback c /\ _requestID c' = _requestID c /\
  faults c' = faults c /\ invocationCounter c' = invocationCounter c.

Definition queues (l : list REQUEST) (c c' : EmberClient) : Prop :=
  _pendingRequests c' = (_pendingRequests c ++ l)%list /\ quiet c c'.

Lemma queues_settle l p s c c' : queues l c c' -> queues l c (settle p s c').
Proof. unfold settle. now destruct (promiseState p c'). Qed.

Lemma queues_nothing c c0 :
  c0 = snd (newPromise c) -> queues [] c c0.
Proof. intros ->. split; [now rewrite app_nil_r | now repeat split]. Qed.

Lemma promiseOf_addRequest_busy n f a c c0 :
  _activeRequest c = Some a ->
  _activeRequest c0 = _activeRequest c -> _pendingRequests c0 = _pendingRequests c ->
  quiet c c0 -> nextPromise c0 = nextPromise c ->
  queues [mkRequest n (f (nextPromise c)) None] c
    (snd (promiseOf (fun p => addRequest (mkRequest n (f p) None)) c0)).
Proof.
  intros Ha Ha0 Hp0 Hq Hn. unfold promiseOf. cbn [newPromise].
  rewrite (addRequest_busy _ a) by (rewrite <- Ha, <- Ha0; reflexivity).
  cbn [snd _pendingRequests set_pendingRequests set_promises].
  rewrite Hp0, Hn. split; [reflexivity|].
  destruct Hq as (H1 & H2 & H3 & H4 & H5 & H6 & H7 & H8). now repeat split.
Qed.

Lemma quiet_refl c : quiet c c.
Proof. now repeat split. Qed.

(** X5: a request made through the facade while another one is active is
    only put at the end of the queue.  The queue grows by exactly the
    call's own record, which holds the node, the call's request function
    and the promise that the call returns, or by nothing when the call is
    rejected by its preflight check or is a subscription that is not
    awaited.  Nothing is written to the transport, no timer is set, no
    request number and no invocation-id is used, and the active request and
    the installed callback stay as they are. *)
Theorem call_while_busy_only_queues (c : EmberClient) (i : Input) (a : REQUEST) :
  isRequest i = true -> _activeRequest c = Some a ->
  _pendingRequests (step c i) = (_pendingRequests c ++ queued i c)%list /\
  _activeRequest (step c i) = Some a /\
  trace (step c i) = trace c /\
  timers (step c i) = timers c /\
  _timeout (step c i) = _timeout c /\
  _callback (step c i) = _callback c /\
  _requestID (step c i) = _requestID c /\
  faults (step c i) = faults c /\
  invocationCounter (step c i) = invocationCounter c /\
  (forall body, fst (promiseOf body c) = nextPromise c).
Proof.
  intros Hi Ha.
  assert (Hprom : forall body, fst (promiseOf body c) = nextPromise c).
  { intros body. unfold promiseOf. cbn [newPromise].
    now destruct (body _ _) as [c1 [[]|e]]. }
  assert (H : queues (queued i c) c (step c i)).
  { destruct i; try discriminate; cbn [step queued].
    - unfold getDirectory. destruct qnode as [q|].
      + now apply (promiseOf_addRequest_busy q (getDirectoryFunc q) a c c);
          try apply quiet_refl.
      + apply (promiseOf_addRequest_busy TheRoot (getDirectoryFunc TheRoot) a c
                 (set_root (clear (root c)) c)); try reflexivity; try exact Ha.
        now repeat split.
    - now apply (promiseOf_addRequest_busy fnNode (invokeFunctionFunc fnNode params) a c c);
        try apply quiet_refl.
    - unfold matrixOPeration, promiseOf. cbn [newPromise].
      destruct sources as [srcs|];
        [|apply queues_settle, queues_nothing; reflexivity].
      change (deref matrixNode (set_promises (promises c) (S (nextPromise c)) c))
        with (deref matrixNode c).
      destruct (validateConnection _ _ _);
        [apply queues_settle, queues_nothing; reflexivity|].
      rewrite (addRequest_busy _ a) by exact Ha. cbn [snd].
      split; [reflexivity | now repeat split].
    - unfold setValue, promiseOf. cbn [newPromise].
      change (deref n (set_promises (promises c) (S (nextPromise c)) c))
        with (deref n c).
      destruct (isParameter (deref n c)); cbn [negb];
        [|apply queues_settle, queues_nothing; reflexivity].
      rewrite (addRequest_busy _ a) by exact Ha. cbn [snd].
      split; [reflexivity | now repeat split].
    - unfold subscribe. destruct (_ && _).
      + pose proof (promiseOf_addRequest_busy qnode (subscribeFunc qnode) a c c Ha
                      eq_refl eq_refl (quiet_refl c) eq_refl) as H.
        destruct (promiseOf _ c). exact H.
      + split; [now rewrite app_nil_r | now repeat split].
    - unfold unsubscribe. destruct (_ && _).
      + pose proof (promiseOf_addRequest_busy qnode (unsubscribeFunc qnode) a c c Ha
                      eq_refl eq_refl (quiet_refl c) eq_refl) as H.
        destruct (promiseOf _ c). exact H.
      + split; [now rewrite app_nil_r | apply quiet_refl]. }
  destruct H as (Hq & H1 & H2 & H3 & H4 & H5 & H6 & H7 & H8).
  rewrite <- Ha. repeat split; assumption.
Qed.

(** A second call while the first one waits for its answer: its record,
    with promise 1, is the only one queued. *)
Lemma call_while_busy_only_queues_witness :
  _pendingRequests
    (step oneCall (call_setValue (Detached [1%N; 2%N] (parameter 2 0)) (VInteger 5)))
  = [mkRequest (Detached [1%N; 2%N] (parameter 2 0))
       (setValueFunc (Detached [1%N; 2%N] (parameter 2 0)) (VInteger 5) 1) None] /\
  trace (step oneCall (call_setValue (Detached [1%N; 2%N] (parameter 2 0)) (VInteger 5)))
  = trace oneCall.
Proof.
  destruct (call_while_busy_only_queues oneCall
              (call_setValue (Detached [1%N; 2%N] (parameter 2 0)) (VInteger 5))
              (mkRequest (Detached [1%N] (container 1 []))
                 (getDirectoryFunc (Detached [1%N] (container 1 [])) 0)
                 (Some (EmberTimeoutError 0 "1")))
              eq_refl eq_refl) as (Hq & _ & Ht & _).
  split; [exact Hq | exact Ht].
Defined.

(** The next [sendBERNode] will not throw. *)
Definition transportUp (c : EmberClient) : Prop :=
  match faults c with Some _ :: _ => False | _ => True end.

(** From [c] to [c']: request started, [m] written, request finished and
    promise [p] resolved, all in one go; the slot and the queue are empty
    again, no timer is left and the callback is the one of before. *)
Definition sentAndDone (m : Message) (p : nat) (c c' : EmberClient) : Prop :=
  promiseState p c' = Some (Resolved Undefined) /\
  trace c' = (trace c ++ [Started (_requestID c); Written m; Finished])%list /\
  _activeRequest c' = None /\ _pendingRequests c' = [] /\
  _timeout c' = None /\ _callback c' = _callback c.

Lemma addRequest_idle req c :
  _activeRequest c = None -> _pendingRequests c = [] ->
  addRequest req c = callFunc _finishRequest (func req) ErrUndefined (started req [] c).
Proof.
  intros Ha Hq. unfold addRequest. rewrite bind_exec. unfold _makeRequest.
  cbn [_activeRequest _pendingRequests set_pendingRequests].
  rewrite Ha, Hq, app_nil_l, activate_started. reflexivity.
Qed.

Lemma sendBERNode_up m c :
  transportUp c ->
  exists c1,
    sendBERNode m c = (c1, Normal tt) /\
    trace c1 = (trace c ++ [Written m])%list /\
    promises c1 = promises c /\ _pendingRequests c1 = _pendingRequests c /\
    _callback c1 = _callback c.
Proof.
  unfold transportUp, sendBERNode. intros Hup.
  destruct (faults c) as [|[e|] rest]; [|destruct Hup|];
    (eexists; split; [reflexivity | now repeat split]).
Qed.

(** A request function that writes, finishes and resolves, called for a
    request made on an idle client. *)
Lemma written_finished_resolved (f : nat -> RequestFunc) (m : Message) n c :
  (forall p x,
      callFunc _finishRequest (f p) ErrUndefined x
      = (sendBERNode m ;; _finishRequest ;; exec (settle p (Resolved Undefined))) x) ->
  _activeRequest c = None -> _pendingRequests c = [] -> transportUp c ->
  promiseState (nextPromise c) c = None ->
  let r := promiseOf (fun p => addRequest (mkRequest n (f p) None)) c in
  fst r = nextPromise c /\ sentAndDone m (nextPromise c) c (snd r).
Proof.
  intros Hf Ha Hq Hup Hp. cbv zeta. unfold promiseOf. cbn [newPromise].
  set (c0 := set_promises (promises c) (S (nextPromise c)) c).
  set (s := started (mkRequest n (f (nextPromise c)) None) [] c0).
  destruct (sendBERNode_up m s Hup) as (c1 & E & Ht & Hpr & Hpend & Hcb).
  assert (Hbody : addRequest (mkRequest n (f (nextPromise c)) None) c0
                  = (settle (nextPromise c) (Resolved Undefined) (released c1), Normal tt)).
  { rewrite (addRequest_idle _ c0 Ha Hq). cbn [func]. rewrite Hf. fold s.
    unfold bind at 1. rewrite E. unfold bind.
    rewrite _finishRequest_empty by (rewrite Hpend; reflexivity).
    reflexivity. }
  rewrite Hbody. cbn [fst snd]. split; [reflexivity|].
  assert (Hfresh : promiseState (nextPromise c) (released c1) = None).
  { rewrite <- Hp. apply promiseState_same. unfold released.
    cbn [promises log set_trace set_activeRequest].
    now rewrite promises_clearTimeout, Hpr. }
  unfold sentAndDone.
  split; [now apply FacadeFacts.promiseState_settle_fresh|].
  rewrite trace_settle, active_settle, pending_settle, timeout_settle, callback_settle.
  rewrite trace_released, pending_released, Ht, Hpend.
  split; [|split; [reflexivity|split; [reflexivity|split]]].
  - unfold s, started, c0.
    cbn [trace set_timeout setTimeout snd set_timers log set_trace set_requestID
         set_activeRequest set_pendingRequests set_promises _requestID].
    rewrite <- app_assoc, <- app_assoc. reflexivity.
  - unfold released. cbn [_timeout log set_trace set_activeRequest].
    apply timeout_cleared.
  - unfold released. cbn [_callback log set_trace set_activeRequest].
    now rewrite callback_clearTimeout, Hcb.
Qed.

Lemma subscribe_sent c qnode :
  _activeRequest c = None -> _pendingRequests c = [] -> transportUp c ->
  promiseState (nextPromise c) c = None ->
  let r := promiseOf (fun p => addRequest (mkRequest qnode (subscribeFunc qnode p) None)) c in
  fst r = nextPromise c /\
  sentAndDone (SubscribeCommand (requestedPath qnode)) (nextPromise c) c (snd r).
Proof.
  apply (written_finished_resolved (subscribeFunc qnode)). reflexivity.
Qed.

Lemma unsubscribe_sent c qnode :
  _activeRequest c = None -> _pendingRequests c = [] -> transportUp c ->
  promiseState (nextPromise c) c = None ->
  let r := promiseOf (fun p => addRequest (mkRequest qnode (unsubscribeFunc qnode p) None)) c in
  fst r = nextPromise c /\
  sentAndDone (UnsubscribeCommand (requestedPath qnode)) (nextPromise c) c (snd r).
Proof.
  apply (written_finished_resolved (unsubscribeFunc qnode)). reflexivity.
Qed.

(** X6: [subscribe] and [unsubscribe] on a stream parameter do not wait for
    an answer.  On an idle client with a working transport the command is
    written, the request is finished and the promise is resolved within the
    call itself: the slot is free again, no timer is left and no callback
    has been installed. *)
Theorem stream_subscription_is_not_awaited
    (c : EmberClient) (qnode : NodeRef) (callback : nat) :
  isParameter (deref qnode c) && isStream (deref qnode c) = true ->
  _activeRequest c = None -> _pendingRequests c = [] -> transportUp c ->
  promiseState (nextPromise c) c = None ->
  (fst (subscribe qnode callback c) = Some (nextPromise c) /\
   sentAndDone (SubscribeCommand (requestedPath qnode)) (nextPromise c) c
     (snd (subscribe qnode callback c))) /\
  (fst (unsubscribe qnode callback c) = Some (nextPromise c) /\
   sentAndDone (UnsubscribeCommand (requestedPath qnode)) (nextPromise c) c
     (snd (unsubscribe qnode callback c))).
Proof.
  intros Hs Ha Hq Hup Hp. unfold subscribe, unsubscribe. rewrite Hs.
  apply andb_true_iff in Hs as [Hpar Hst]. rewrite Hpar, Hst. cbn [orb andb].
  pose proof (subscribe_sent c qnode Ha Hq Hup Hp) as H1.
  pose proof (unsubscribe_sent c qnode Ha Hq Hup Hp) as H2.
  cbv zeta in H1, H2.
  destruct (promiseOf (fun p => addRequest (mkRequest qnode (subscribeFunc qnode p) None)) c)
    as [p1 c1].
  destruct (promiseOf (fun p => addRequest (mkRequest qnode (unsubscribeFunc qnode p) None)) c)
    as [p2 c2].
  cbn [fst snd] in *. destruct H1 as [-> H1]. destruct H2 as [-> H2]. auto.
Qed.

Lemma stream_subscription_is_not_awaited_witness :
  sentAndDone (SubscribeCommand "3") 0 (new [])
    (snd (subscribe (Detached [3%N] (streamParameter 3 7)) 0 (new []))) /\
  sentAndDone (UnsubscribeCommand "3") 0 (new [])
    (snd (unsubscribe (Detached [3%N] (streamParameter 3 7)) 0 (new []))).
Proof.
  destruct (stream_subscription_is_not_awaited (new [])
              (Detached [3%N] (streamParameter 3 7)) 0)
    as [[_ H1] [_ H2]]; try reflexivity; try exact Logic.I.
  split; [exact H1 | exact H2].
Defined.

(** What a request function leaves when its write throws. *)
Lemma callFunc_write_fails finish (f : RequestFunc) s e rest :
  faults s = Some e :: rest ->
  exists m c1,
    callFunc finish f ErrUndefined s = (c1, Throw e) /\
    trace c1 = (trace s ++ [WriteFailed m])%list /\
    _activeRequest c1 = _activeRequest s /\
    _pendingRequests c1 = _pendingRequests s /\
    timers c1 = timers s /\ _timeout c1 = _timeout s /\
    emitted c1 = emitted s /\ faults c1 = rest /\ promises c1 = promises s.
Proof.
  intros Hf.
  destruct f; cbn [callFunc truthy]; unfold bind, exec, invoke, sendBERNode;
    cbn [faults set_callback set_invocationCounter]; rewrite Hf;
    eexists _, _; (split; [reflexivity|]); now repeat split.
Qed.

(** X7: when the transport throws on the write of a request made on an idle
    client, the promise returned by the call is rejected with what the
    transport threw, but the request stays in the slot with its timer
    running and no ['error'] event is emitted: the pipeline is held until
    the timer goes off.  This holds for each of the six request
    functions. *)
Theorem write_failure_rejects_and_holds_the_slot
    (c : EmberClient) (n : NodeRef) (f : nat -> RequestFunc) (e : Exn)
    (rest : list (option Exn)) :
  _activeRequest c = None -> _pendingRequests c = [] ->
  faults c = Some e :: rest ->
  promiseState (nextPromise c) c = None ->
  let r := promiseOf (fun p => addRequest (mkRequest n (f p) None)) c in
  fst r = nextPromise c /\
  promiseState (nextPromise c) (snd r) = Some (Rejected (Err e)) /\
  _activeRequest (snd r)
  = Some (mkRequest n (f (nextPromise c))
            (Some (EmberTimeoutError (_requestID c) (requestedPath n)))) /\
  _pendingRequests (snd r) = [] /\
  timers (snd r) = (timers c ++ [nextTimer c])%list /\
  _timeout (snd r) = Some (nextTimer c) /\
  (exists m, trace (snd r) = (trace c ++ [Started (_requestID c); WriteFailed m])%list) /\
  emitted (snd r) = emitted c /\
  faults (snd r) = rest.
Proof.
  intros Ha Hq Hf Hp. cbv zeta.
  unfold promiseOf, addRequest, bind, exec, _makeRequest. cbn [newPromise].
  cbn [_activeRequest _pendingRequests set_pendingRequests set_promises].
  rewrite Ha, Hq, app_nil_l. rewrite activate_started. cbn [func].
  match goal with
  | |- context [callFunc ?fin ?fn ErrUndefined ?s] =>
      destruct (callFunc_write_fails fin fn s e rest Hf)
        as (m & c1 & E & Ht & Hact & Hpend & Htm & Hto & Hem & Hfl & Hpr);
      rewrite E
  end.
  cbn [fst snd].
  assert (H1 : promiseState (nextPromise c) c1 = None)
    by (rewrite <- Hp; apply promiseState_same; exact Hpr).
  split; [reflexivity|].
  split; [now apply FacadeFacts.promiseState_settle_fresh|].
  unfold settle. rewrite H1.
  cbn [_activeRequest _pendingRequests timers _timeout trace emitted faults set_promises].
  rewrite Hact, Hpend, Htm, Hto, Ht, Hem, Hfl.
  do 4 (split; [reflexivity|]).
  split; [|split; reflexivity].
  exists m. unfold started.
  cbn [trace set_timeout setTimeout snd set_timers log set_trace].
  now rewrite <- app_assoc.
Qed.

Definition downFirst : EmberClient := new [Some (TransportFault 1)].

Lemma write_failure_rejects_and_holds_the_slot_witness :
  let r := getDirectory (Some (Detached [1%N] (container 1 []))) downFirst in
  promiseState 0 (snd r) = Some (Rejected (Err (TransportFault 1))) /\
  _activeRequest (snd r)
  = Some (mkRequest (Detached [1%N] (container 1 []))
            (getDirectoryFunc (Detached [1%N] (container 1 [])) 0)
            (Some (EmberTimeoutError 0 "1"))) /\
  timers (snd r) = [0%nat].
Proof.
  destruct (write_failure_rejects_and_holds_the_slot downFirst
              (Detached [1%N] (container 1 []))
              (getDirectoryFunc (Detached [1%N] (container 1 [])))
              (TransportFault 1) [] eq_refl eq_refl eq_refl eq_refl)
    as (_ & H1 & H2 & _ & H3 & _).
  cbv zeta. split; [exact H1 | split; [exact H2 | exact H3]].
Defined.

(** ** An error that nobody listens to *)

Lemma faults_clearTimeout c : faults (_clearTimeout c) = faults c.
Proof. unfold _clearTimeout. now destruct (_timeout c). Qed.

Lemma _finishRequest_sameListeners c : sameListeners c (fst (_finishRequest c)).
Proof. apply _finishRequest_upto_sameListeners. Qed.

(** X8: what [_finishRequest] does with the error of a failed write.  When
    the write of the request that it takes from the queue throws and a
    listener is registered for the ['error'] event, [_finishRequest]
    returns, and the last thing it did was to emit that error as an
    ['error'] event; with no listener registered [_finishRequest]
    throws. *)
Theorem finishRequest_throws_without_listener
    (c : EmberClient) (req : REQUEST) (rest : list REQUEST) (e : Exn)
    (more : list (option Exn)) :
  _pendingRequests c = req :: rest ->
  faults c = Some e :: more ->
  (errorListeners c = 0%nat -> exists e', snd (_finishRequest c) = Throw e') /\
  (errorListeners c <> 0%nat ->
   snd (_finishRequest c) = Normal tt /\
   exists c2, fst (_finishRequest c) = emit (ev_error e) c2).
Proof.
  intros Eq Hf. rewrite _finishRequest_unfold, Eq.
  set (s := started req rest (released c)).
  assert (Hfs : faults s = Some e :: more).
  { unfold s, started, released.
    cbn [faults set_timeout setTimeout snd set_timers log set_trace set_requestID
         set_activeRequest set_pendingRequests].
    now rewrite faults_clearTimeout. }
  assert (Hls : errorListeners s = errorListeners c) by apply listeners_released.
  destruct (callFunc_write_fails _finishRequest (func req) s e more Hfs)
    as (m & c1 & E & _).
  assert (Hl1 : errorListeners c1 = errorListeners s).
  { pose proof (callFunc_respects sameListeners) as H.
    assert (H1 : sameListeners s
                   (fst (callFunc _finishRequest (func req) ErrUndefined s))).
    { apply H; try sameListeners_auto. intros x. apply _finishRequest_sameListeners. }
    now rewrite E in H1. }
  unfold try_catch. rewrite E. unfold bind.
  assert (Hcb : forall c2 r,
             match _callback c1 with
             | Some cb => callCallback _finishRequest cb (Err e) Undefined c1
             | None => (c1, Normal tt)
             end = (c2, r) ->
             errorListeners c2 = errorListeners c1 /\
             (errorListeners c1 <> 0%nat -> r = Normal tt)).
  { intros c2 r. destruct (_callback c1) as [cb|].
    - intros Er. split.
      + assert (H1 : sameListeners c1
                       (fst (callCallback _finishRequest cb (Err e) Undefined c1))).
        { apply (callCallback_respects sameListeners); try sameListeners_auto.
          intros x. apply _finishRequest_sameListeners. }
        now rewrite Er in H1.
      + intros Hl.
        pose proof (callCallback_returns _finishRequest cb e c1
                      _finishRequest_returns Hl) as Hr.
        now rewrite Er in Hr.
    - intros Er. injection Er as <- <-. now split. }
  destruct (match _callback c1 with
            | Some cb => callCallback _finishRequest cb (Err e) Undefined c1
            | None => (c1, Normal tt)
            end) as [c2 r] eqn:Er.
  destruct (Hcb c2 r eq_refl) as [Hl2 Hret].
  split.
  - intros H0. destruct r as [[]|e']; [|now exists e'].
    exists e. unfold emitError. now rewrite Hl2, Hl1, Hls, H0.
  - intros Hl. rewrite Hret by congruence. unfold emitError.
    destruct (Nat.eqb (errorListeners c2) 0) eqn:E0.
    + apply Nat.eqb_eq in E0. congruence.
    + split; [reflexivity | now exists c2].
Qed.

(** A directory request is active and a second one is queued; the
    transport will throw on the next write. *)
Definition queuedBehind : EmberClient :=
  run (new [None; Some (TransportFault 2)])
    [directoryOf1; call_getDirectory (Some (Detached [3%N] (container 3 [])))].

Lemma finishRequest_throws_without_listener_witness :
  exists e', snd (_finishRequest queuedBehind) = Throw e'.
Proof.
  refine (proj1 (finishRequest_throws_without_listener queuedBehind
                   (mkRequest (Detached [3%N] (container 3 []))
                      (getDirectoryFunc (Detached [3%N] (container 3 [])) 1) None)
                   [] (TransportFault 2) [] _ _) _);
    vm_compute; reflexivity.
Defined.

End SessionFacts.
